(** * A shallow embedding of the job/step orchestration engine

    The development follows the sources file by file:

    - [Go]: the pieces of the Go standard library the sources call
      ([strconv.Atoi], [strconv.ParseBool], [strings.TrimSpace],
      [strings.Map], [strings.Replace], [path.Join]);
    - [Model]: package [model] (strategy, matrix expansion, steps);
    - [Container]: the exit status contract of [waitContainer];
    - [Runner]: package [runner] (script naming and composition, the
      case-insensitive environment merge, the step life cycle).

    Logging calls ([log.Debugf], [log.Errorf], [logger.Infof]) write to
    the logger only and never change control flow; they are left out.
    [log.Fatal] and [log.Fatalf] end the process and are modelled by the
    outcome [Fatal]; a failed Go type assertion is the outcome [Panic]. *)

From stdpp Require Import gmap strings list fin_maps pretty.
From Equations Require Import Equations.
From Stdlib Require Import ZArith Lia Ascii.

#[local] Set Warnings "-register-all".
#[local] Open Scope Z_scope.

(* ===================================================================== *)
(** ** Go standard library *)
(* ===================================================================== *)

Module Go.

(** A Go [error] value is modelled by the text of its message;
    [None] is [nil]. *)
Definition error : Type := string.

(** The one-character string holding a double quote. *)
Definition dquote : string := String (ascii_of_nat 34) EmptyString.

(** Bytes of a Go string, as numbers in [0, 255], and back. *)
Definition bytes_of (s : string) : list Z :=
  (λ c, Z.of_N (N_of_ascii c)) <$> String.list_ascii_of_string s.

Definition of_bytes (l : list Z) : string :=
  String.string_of_list_ascii ((λ b, ascii_of_N (Z.to_N b)) <$> l).

(** *** strconv *)

Inductive NumError := ErrSyntax | ErrRange.

Definition is_digit (b : Z) : bool := (48 <=? b) && (b <=? 57).

Definition maxUint64 : Z := 2 ^ 64 - 1.
Definition maxInt64 : Z := 2 ^ 63 - 1.
Definition minInt64 : Z := - 2 ^ 63.

(** The digit loop of [strconv.ParseUint] for base 10 and 64 bits. *)
Fixpoint ParseUint_loop (s : list Z) (n : Z) : Z * option NumError :=
  match s with
  | [] => (n, None)
  | c :: rest =>
      if is_digit c then
        if n >=? maxUint64 / 10 + 1 then (maxUint64, Some ErrRange)
        else
          let n1 := n * 10 + (c - 48) in
          if n1 >? maxUint64 then (maxUint64, Some ErrRange)
          else ParseUint_loop rest n1
      else (0, Some ErrSyntax)
  end.

Definition ParseUint (s : list Z) : Z * option NumError :=
  match s with
  | [] => (0, Some ErrSyntax)
  | _ => ParseUint_loop s 0
  end.

(** [strconv.ParseInt(s, 10, 0)] on a platform whose [int] has 64 bits. *)
Definition ParseInt (s : list Z) : Z * option NumError :=
  match s with
  | [] => (0, Some ErrSyntax)
  | c :: rest =>
      let neg := bool_decide (c = 45) in
      let body := if bool_decide (c = 43) || neg then rest else s in
      match ParseUint body with
      | (_, Some ErrSyntax) => (0, Some ErrSyntax)
      | (un, _) =>
          if negb neg && (un >=? 2 ^ 63) then (maxInt64, Some ErrRange)
          else if neg && (un >? 2 ^ 63) then (minInt64, Some ErrRange)
          else (if neg then - un else un, None)
      end
  end.

(** [strconv.Atoi]: the value is returned together with the error, and
    it is [0] (syntax) or the nearest bound (range) when there is one. *)
Definition Atoi (s : string) : Z * option NumError := ParseInt (bytes_of s).

Definition ParseBool (str : string) : bool * option NumError :=
  if bool_decide (str ∈ ["1"; "t"; "T"; "true"; "TRUE"; "True"])
  then (true, None)
  else if bool_decide (str ∈ ["0"; "f"; "F"; "false"; "FALSE"; "False"])
  then (false, None)
  else (false, Some ErrSyntax).

(** *** unicode/utf8 *)

Definition RuneError : Z := 0xFFFD.
Definition MaxRune : Z := 0x10FFFF.

Definition cont (b : Z) : bool := (0x80 <=? b) && (b <=? 0xBF).
Definition between (lo hi b : Z) : bool := (lo <=? b) && (b <=? hi).

(** The second byte a leading byte accepts (Go's [acceptRanges]). *)
Definition accepts2 (b0 b1 : Z) : bool :=
  if bool_decide (b0 = 0xE0) then between 0xA0 0xBF b1
  else if bool_decide (b0 = 0xED) then between 0x80 0x9F b1
  else if bool_decide (b0 = 0xF0) then between 0x90 0xBF b1
  else if bool_decide (b0 = 0xF4) then between 0x80 0x8F b1
  else cont b1.

(** [decodeRunes s]: the runes a [range] loop over the string yields,
    each with the bytes it was read from; a byte that starts no valid
    encoding yields [RuneError] of width one. *)
Fixpoint decodeRunes (s : list Z) : list (Z * list Z) :=
  match s with
  | [] => []
  | b0 :: t0 =>
      if b0 <? 0x80 then (b0, [b0]) :: decodeRunes t0
      else
        let bad := (RuneError, [b0]) :: decodeRunes t0 in
        match t0 with
        | [] => bad
        | b1 :: t1 =>
            if between 0xC2 0xDF b0 then
              if cont b1
              then (Z.lor (Z.shiftl (Z.land b0 0x1F) 6) (Z.land b1 0x3F),
                    [b0; b1]) :: decodeRunes t1
              else bad
            else if negb (between 0xE0 0xF4 b0 && accepts2 b0 b1) then bad
            else
              match t1 with
              | [] => bad
              | b2 :: t2 =>
                  if negb (cont b2) then bad
                  else if b0 <? 0xF0 then
                    (Z.lor (Z.shiftl (Z.land b0 0x0F) 12)
                       (Z.lor (Z.shiftl (Z.land b1 0x3F) 6) (Z.land b2 0x3F)),
                     [b0; b1; b2]) :: decodeRunes t2
                  else
                    match t2 with
                    | [] => bad
                    | b3 :: t3 =>
                        if cont b3 then
                          (Z.lor (Z.shiftl (Z.land b0 0x07) 18)
                             (Z.lor (Z.shiftl (Z.land b1 0x3F) 12)
                                (Z.lor (Z.shiftl (Z.land b2 0x3F) 6)
                                   (Z.land b3 0x3F))),
                           [b0; b1; b2; b3]) :: decodeRunes t3
                        else bad
                    end
              end
        end
  end.

(** [utf8.AppendRune]: surrogates and values out of range are written
    as [RuneError]. *)
Definition encodeRune (r : Z) : list Z :=
  if between 0 0x7F r then [r]
  else if between 0x80 0x7FF r then
    [Z.lor 0xC0 (Z.shiftr r 6); Z.lor 0x80 (Z.land r 0x3F)]
  else if (r <? 0) || (MaxRune <? r) || between 0xD800 0xDFFF r then
    [0xEF; 0xBF; 0xBD]
  else if r <=? 0xFFFF then
    [Z.lor 0xE0 (Z.shiftr r 12);
     Z.lor 0x80 (Z.land (Z.shiftr r 6) 0x3F);
     Z.lor 0x80 (Z.land r 0x3F)]
  else
    [Z.lor 0xF0 (Z.shiftr r 18);
     Z.lor 0x80 (Z.land (Z.shiftr r 12) 0x3F);
     Z.lor 0x80 (Z.land (Z.shiftr r 6) 0x3F);
     Z.lor 0x80 (Z.land r 0x3F)].

(** *** strings *)

(** [strings.Map]: every rune is replaced by its image, a negative image
    drops the rune. *)
Definition Map (mapping : Z → Z) (s : string) : string :=
  of_bytes
    (concat ((λ '(c, _), let r := mapping c in
                         if r <? 0 then [] else encodeRune r)
             <$> decodeRunes (bytes_of s))).

(** [unicode.IsSpace]. *)
Definition IsSpace (r : Z) : bool :=
  bool_decide (r ∈ [0x09; 0x0A; 0x0B; 0x0C; 0x0D; 0x20; 0x85; 0xA0; 0x1680;
                    0x2028; 0x2029; 0x202F; 0x205F; 0x3000])
  || between 0x2000 0x200A r.

Fixpoint dropSpace (l : list (Z * list Z)) : list (Z * list Z) :=
  match l with
  | (r, _) :: rest => if IsSpace r then dropSpace rest else l
  | [] => []
  end.

Definition TrimSpace (s : string) : string :=
  of_bytes
    (concat (snd <$> reverse (dropSpace (reverse (dropSpace
               (decodeRunes (bytes_of s))))))).

Definition len (s : string) : Z := Z.of_nat (String.length s).

Fixpoint HasPrefix (s p : string) : bool :=
  match p, s with
  | EmptyString, _ => true
  | String c p', String d s' => bool_decide (c = d) && HasPrefix s' p'
  | String _ _, EmptyString => false
  end.

(** [strings.Replace(s, old, new, 1)] for a non-empty [old]: the first
    occurrence, if any, is replaced. *)
Fixpoint Replace1 (s old new : string) : string :=
  if HasPrefix s old then
    new +:+ String.substring (String.length old) (String.length s) s
  else
    match s with
    | EmptyString => EmptyString
    | String c s' => String c (Replace1 s' old new)
    end.

(** [strings.Split(s, sep)] for a separator of one byte. *)
Fixpoint Split (s : string) (sep : ascii) : list string :=
  match s with
  | EmptyString => [""]
  | String c s' =>
      if bool_decide (c = sep) then "" :: Split s' sep
      else
        match Split s' sep with
        | word :: words => String c word :: words
        | [] => [String c ""]
        end
  end.

(** [strings.Join(elems, sep)]. *)
Fixpoint strings_Join (elems : list string) (sep : string) : string :=
  match elems with
  | [] => ""
  | [e] => e
  | e :: rest => e +:+ sep +:+ strings_Join rest sep
  end.

(** *** path *)

(** The loop of [path.Clean], one path element at a time.  [out] holds
    the elements written so far, the last one first.  An empty element
    and [.] write nothing; [..] takes back the last element written
    unless that is a [..] or nothing is written, where it is dropped in
    a rooted path and written in another; any other element is
    written. *)
Definition cleanElement (rooted : bool) (out : list string) (elem : string)
    : list string :=
  if bool_decide (elem = "") || bool_decide (elem = ".") then out
  else if bool_decide (elem = "..") then
    match out with
    | last :: rest =>
        if bool_decide (last = "..") then (if rooted then out else elem :: out)
        else rest
    | [] => if rooted then out else [elem]
    end
  else elem :: out.

(** [path.Clean]: the shortest path that names the same place. *)
Definition path_Clean (path : string) : string :=
  if bool_decide (path = "") then "."
  else
    let rooted := HasPrefix path "/" in
    let out := foldl (cleanElement rooted) [] (Split path "/") in
    let cleaned := (if rooted then "/" else "") +:+ strings_Join (reverse out) "/" in
    if bool_decide (cleaned = "") then "." else cleaned.

(** The loop of [path.Join]: an element is appended, after a slash when
    the buffer holds something; empty elements in front are skipped. *)
Definition joinElement (buf e : string) : string :=
  if bool_decide (buf ≠ "") || bool_decide (e ≠ "") then
    (if bool_decide (buf ≠ "") then buf +:+ "/" else buf) +:+ e
  else buf.

(** [path.Join(elem...)]: empty when all elements are, and the cleaned
    path otherwise. *)
Definition path_JoinN (elem : list string) : string :=
  let size := sum_list_with String.length elem in
  if bool_decide (size = 0%nat) then ""
  else path_Clean (foldl joinElement "" elem).

(** [path.Join(a, b)]. *)
Definition path_Join (a b : string) : string := path_JoinN [a; b].

(** [strings.Index(s, substr)]: the byte offset of the first occurrence
    of [substr] in [s], or [-1]. *)
Fixpoint Index (s substr : string) : Z :=
  if HasPrefix s substr then 0
  else
    match s with
    | EmptyString => -1
    | String _ s' =>
        let i := Index s' substr in
        if i <? 0 then -1 else i + 1
    end.

(** [strings.IndexFunc(s, f)]: the byte offset of the first rune that
    satisfies [f], or [-1]. *)
Fixpoint IndexFunc_loop (f : Z → bool) (runes : list (Z * list Z)) (i : Z) : Z :=
  match runes with
  | [] => -1
  | (r, width) :: rest =>
      if f r then i else IndexFunc_loop f rest (i + Z.of_nat (length width))
  end.

Definition IndexFunc (s : string) (f : Z → bool) : Z :=
  IndexFunc_loop f (decodeRunes (bytes_of s)) 0.

End Go.

(* ===================================================================== *)
(** ** Results of operations that can end the process *)
(* ===================================================================== *)

(** [Ok a]: the call returned [a].  [Fatal msg]: [log.Fatal] was reached,
    the process has ended with [msg] and nothing after it ran.  [Panic]:
    a type assertion failed. *)
Inductive outcome (A : Type) : Type :=
  | Ok (a : A)
  | Fatal (msg : string)
  | Panic.
Arguments Ok {A} a.
Arguments Fatal {A} msg.
Arguments Panic {A}.

#[global] Instance outcome_ret : MRet outcome := λ A a, Ok a.
#[global] Instance outcome_bind : MBind outcome := λ A B f m,
  match m with
  | Ok a => f a
  | Fatal msg => Fatal msg
  | Panic => Panic
  end.

(** The tables of package [unicode] the sources consult.  They are data
    of the Go distribution; the development is parametric in them and
    only relies on [SimpleFold] staying within the rune range. *)
Class UnicodeTables := {
  SimpleFold : Z → Z;
  ToUpper : Z → Z;
  SimpleFold_range : ∀ r, SimpleFold r <= Z.max r Go.MaxRune
}.

(** The order in which a [for ... range] loop visits a Go map is not
    specified.  [range m] is the order taken: any enumeration of the
    entries of [m]. *)
Class MapRange := {
  range : ∀ {A : Type}, gmap string A → list (string * A);
  range_perm : ∀ {A : Type} (m : gmap string A), range m ≡ₚ map_to_list m
}.

(* ===================================================================== *)
(** ** Package model *)
(* ===================================================================== *)

Module Model.

(** A decoded YAML value held in an [interface{}]: [VNull] is the nil
    interface, [VSeq] a [[]interface{}], [VMap] a
    [map[string]interface{}].  Floating point scalars are left out. *)
Inductive value :=
  | VNull
  | VBool (b : bool)
  | VInt (z : Z)
  | VStr (s : string)
  | VSeq (l : list value)
  | VMap (m : gmap string value).

#[global] Instance value_eq_dec : EqDecision value.
Proof.
  refine (fix go (a b : value) {struct a} : Decision (a = b) :=
    let _ : EqDecision value := @go in
    match a, b with
    | VNull, VNull => left _
    | VBool x, VBool y => cast_if (decide (x = y))
    | VInt x, VInt y => cast_if (decide (x = y))
    | VStr x, VStr y => cast_if (decide (x = y))
    | VSeq x, VSeq y => cast_if (decide (x = y))
    | VMap x, VMap y => cast_if (decide (x = y))
    | _, _ => right _
    end); try abstract congruence.
Defined.

(** [reflect.DeepEqual] on decoded values is structural equality. *)
Definition DeepEqual (a b : value) : bool := bool_decide (a = b).

(** What [yaml.Node.Decode] makes of the [matrix] node. *)
Inductive matrixNode :=
  | NotMapping
  | UndecodableMapping (err : string)
  | MappingNode (m : gmap string (list value)).

Record Strategy := mkStrategy {
  FailFast : bool;
  MaxParallel : Z;
  FailFastString : string;
  MaxParallelString : string;
  RawMatrix : matrixNode
}.

Record RunDefaults := mkRunDefaults {
  RunDefaults_Shell : string;
  RunDefaults_WorkingDirectory : string
}.

Record ContainerSpec := mkContainerSpec {
  Image : string;
  ContainerSpec_Env : gmap string string
}.

(** What [yaml.Node.Decode] makes of the [container] node. *)
Inductive containerNode :=
  | NoContainerNode
  | ScalarContainer (image : string)
  | MappingContainer (spec : ContainerSpec).

Record Job := mkJob {
  Job_Name : string;
  Job_Strategy : option Strategy;
  RawContainer : containerNode;
  Job_Defaults : RunDefaults
}.

Record Workflow := mkWorkflow {
  Workflow_Name : string;
  Workflow_Defaults : RunDefaults
}.

(** [Step], with the fields the embedded functions read.  [Env] is the
    decoded [env] node.  [RawContinueOnError] is the expression that
    step.go reads from the step model. *)
Record Step := mkStep {
  ID : string;
  Name : string;
  Uses : string;
  Run : string;
  WorkingDirectory : string;
  Shell : string;
  Env : gmap string string;
  With : gmap string string;
  RawContinueOnError : string
}.

(** [GetMaxParallel]: [maxParallel, err = strconv.Atoi(...)] assigns
    the value [Atoi] returns whether or not [err] is nil. *)
Definition GetMaxParallel (s : Strategy) : Z :=
  let maxParallel := 4 in
  if bool_decide (MaxParallelString s ≠ "") then
    let '(maxParallel, err) := Go.Atoi (MaxParallelString s) in
    maxParallel
  else maxParallel.

(** [GetFailFast]: likewise for [strconv.ParseBool]. *)
Definition GetFailFast (s : Strategy) : bool :=
  let failFast := true in
  if bool_decide (FailFastString s ≠ "") then
    let '(failFast, err) := Go.ParseBool (FailFastString s) in
    failFast
  else failFast.

Definition Container (j : Job) : option ContainerSpec :=
  match RawContainer j with
  | ScalarContainer image => Some (mkContainerSpec image ∅)
  | MappingContainer spec => Some spec
  | NoContainerNode => None
  end.

(** [Matrix]: [None] is the nil map. *)
Definition Matrix (s : Strategy) : outcome (option (gmap string (list value))) :=
  match RawMatrix s with
  | MappingNode val => Ok (Some val)
  | UndecodableMapping err => Fatal err
  | NotMapping => Ok None
  end.

(** Modelled from the spec: [common.CartesianProduct] is not among the
    sources.  "compute the cartesian product over the remaining axes
    (order need not be stable across axes, but the result set must
    contain exactly the product)".  The axes are taken in the order of
    [map_to_list]; the first of them varies fastest. *)
Fixpoint cartesian (axes : list (string * list value)) : list (gmap string value) :=
  match axes with
  | [] => [∅]
  | (k, vs) :: rest =>
      t ← cartesian rest; (λ v, <[k := v]> t) <$> vs
  end.

Definition CartesianProduct (m : gmap string (list value)) : list (gmap string value) :=
  cartesian (map_to_list m).

(** [commonKeysMatch]: no key of [a] that [b] also has carries a
    different value. *)
Definition commonKeysMatch `{MapRange} (a b : gmap string value) : bool :=
  forallb (λ '(aKey, aVal),
             match b !! aKey with
             | Some bVal => DeepEqual aVal bVal
             | None => true
             end)
          (range a).

(** [v.(map[string]interface{})] *)
Definition assertMap (v : value) : outcome (gmap string value) :=
  match v with
  | VMap i => Ok i
  | _ => Panic
  end.

Definition keys `{MapRange} (i : gmap string value) : list string := (range i).*1.

Definition hasKey (m : gmap string (list value)) (k : string) : bool :=
  bool_decide (is_Some (m !! k)).

Definition index (m : gmap string (list value)) (k : string) : list value :=
  default [] (m !! k).

(** [for k := range i { if _, ok := m[k]; ok { includes = append(includes, i); break } }] *)
Fixpoint includeKeys (m : gmap string (list value)) (i : gmap string value)
    (ks : list string) (includes : list (gmap string value)) : list (gmap string value) :=
  match ks with
  | [] => includes
  | k :: ks' =>
      if hasKey m k then includes ++ [i] else includeKeys m i ks' includes
  end.

(** The body of [case []interface{}]. *)
Fixpoint includeSeq `{MapRange} (m : gmap string (list value)) (t : list value)
    (includes : list (gmap string value)) : outcome (list (gmap string value)) :=
  match t with
  | [] => Ok includes
  | i :: rest =>
      i ← assertMap i;
      includeSeq m rest (includeKeys m i (keys i) includes)
  end.

(** [for _, v := range m["include"]]: a type switch on [v]; the nil
    interface matches neither case. *)
Fixpoint includeLoop `{MapRange} (m : gmap string (list value)) (vs : list value)
    (includes : list (gmap string value)) : outcome (list (gmap string value)) :=
  match vs with
  | [] => Ok includes
  | v :: rest =>
      match v with
      | VSeq t =>
          includes ← includeSeq m t includes;
          includeLoop m rest includes
      | VNull => includeLoop m rest includes
      | _ =>
          v ← assertMap v;
          includeLoop m rest (includeKeys m v (keys v) includes)
      end
  end.

Definition excludeFatal (k : string) : string :=
  "The workflow is not valid. Matrix exclude key '" +:+ k +:+
  "' does not match any key within the matrix".

(** [for k := range e { if _, ok := m[k]; ok { excludes = append(excludes, e) } else { log.Fatalf(...) } }] *)
Fixpoint excludeKeys (m : gmap string (list value)) (e : gmap string value)
    (ks : list string) (excludes : list (gmap string value)) : outcome (list (gmap string value)) :=
  match ks with
  | [] => Ok excludes
  | k :: ks' =>
      if hasKey m k then excludeKeys m e ks' (excludes ++ [e])
      else Fatal (excludeFatal k)
  end.

Fixpoint excludeLoop `{MapRange} (m : gmap string (list value)) (es : list value)
    (excludes : list (gmap string value)) : outcome (list (gmap string value)) :=
  match es with
  | [] => Ok excludes
  | e :: rest =>
      e ← assertMap e;
      excludes ← excludeKeys m e (keys e) excludes;
      excludeLoop m rest excludes
  end.

(** The loop labelled [MATRIX]. *)
Fixpoint matrixLoop `{MapRange} (matrixProduct excludes matrixes : list (gmap string value))
    : list (gmap string value) :=
  match matrixProduct with
  | [] => matrixes
  | matrix :: rest =>
      if existsb (commonKeysMatch matrix) excludes
      then matrixLoop rest excludes matrixes
      else matrixLoop rest excludes (matrixes ++ [matrix])
  end.

(** The branch of [GetMatrixes] taken when [j.Matrix()] is not nil. *)
Definition expandMatrix `{MapRange} (m : gmap string (list value)) : outcome (list (gmap string value)) :=
  let matrixes := [] in
  includes ← includeLoop m (index m "include") [];
  let m := delete "include" m in
  excludes ← excludeLoop m (index m "exclude") [];
  let m := delete "exclude" m in
  let matrixProduct := CartesianProduct m in
  let matrixes := matrixLoop matrixProduct excludes matrixes in
  Ok (matrixes ++ includes).

(** [GetMatrixes] stores the resolved [fail-fast] and [max-parallel] in
    the strategy it is called on, hence the job in the result. *)
Definition GetMatrixes `{MapRange} (j : Job) : Job * outcome (list (gmap string value)) :=
  match Job_Strategy j with
  | Some s =>
      let s := mkStrategy (GetFailFast s) (MaxParallel s) (FailFastString s)
                 (MaxParallelString s) (RawMatrix s) in
      let s := mkStrategy (FailFast s) (GetMaxParallel s) (FailFastString s)
                 (MaxParallelString s) (RawMatrix s) in
      let j := mkJob (Job_Name j) (Some s) (RawContainer j) (Job_Defaults j) in
      (j, m ← Matrix s;
          match m with
          | Some m => expandMatrix m
          | None => Ok [∅]
          end)
  | None => (j, Ok [∅])
  end.

(** [Step.GetEnv]: the declared environment, then one [INPUT_] variable
    per [with] entry. *)
Definition inputKeyRune (r : Z) : Z :=
  if Go.between 65 90 r || Go.between 48 57 r || bool_decide (r = 45)
  then r else 95.

Definition inputKey `{UnicodeTables} (k : string) : string :=
  let envKey := Go.Map inputKeyRune (Go.Map ToUpper k) in
  "INPUT_" +:+ Go.Map ToUpper envKey.

Definition GetEnv `{UnicodeTables} `{MapRange} (s : Step) : gmap string string :=
  foldl (λ env '(k, v), <[inputKey k := v]> env) (Env s) (range (With s)).

(** [Step.ShellCommand] *)
Definition ShellCommand (s : Step) : string :=
  if bool_decide (Shell s ∈ [""; "bash"]) then "bash --noprofile --norc -e -o pipefail {0}"
  else if bool_decide (Shell s = "pwsh") then "pwsh -command . '{0}'"
  else if bool_decide (Shell s = "python") then "python {0}"
  else if bool_decide (Shell s = "sh") then "sh -e -c {0}"
  else if bool_decide (Shell s = "cmd") then
    "%ComSpec% /D /E:ON /V:OFF /S /C " +:+ Go.dquote +:+ "CALL " +:+ Go.dquote +:+
    "{0}" +:+ Go.dquote +:+ Go.dquote
  else if bool_decide (Shell s = "powershell") then "powershell -command . '{0}'"
  else Shell s.

(** [Step.String]: the first of name, uses, run and id that is not
    empty. *)
Definition Step_String (s : Step) : string :=
  if bool_decide (Name s ≠ "") then Name s
  else if bool_decide (Uses s ≠ "") then Uses s
  else if bool_decide (Run s ≠ "") then Run s
  else ID s.

Inductive StepType :=
  | StepTypeRun
  | StepTypeUsesDockerURL
  | StepTypeUsesActionLocal
  | StepTypeUsesActionRemote
  | StepTypeInvalid.

#[global] Instance StepType_eq_dec : EqDecision StepType.
Proof. solve_decision. Defined.

(** [Step.Type] *)
Definition Step_Type (s : Step) : StepType :=
  if bool_decide (Run s ≠ "") then
    if bool_decide (Uses s ≠ "") then StepTypeInvalid else StepTypeRun
  else if Go.HasPrefix (Uses s) "docker://" then StepTypeUsesDockerURL
  else if Go.HasPrefix (Uses s) "./" then StepTypeUsesActionLocal
  else StepTypeUsesActionRemote.

Record CompositeRestrictions := mkCompositeRestrictions {
  AllowCompositeUses : bool;
  AllowCompositeIf : bool;
  AllowCompositeContinueOnError : bool
}.

Definition defaultCompositeRestrictions : CompositeRestrictions :=
  mkCompositeRestrictions true false false.

(** The step as [Validate] reads it: the fields of [Step] and the two
    that only the validation looks at, whether the [if] node is the zero
    node and the flag [continue-on-error]. *)
Record CompositeStep := mkCompositeStep {
  CS_Step : Step;
  If_IsZero : bool;
  ContinueOnError : bool
}.

Definition validateError (s : Step) (msg : string) : Go.error :=
  "(StepID: " +:+ Step_String s +:+ "): " +:+ msg.

(** [Step.Validate]; [config = None] is the nil pointer. *)
Definition Validate (s : CompositeStep) (config : option CompositeRestrictions)
    : option Go.error :=
  let config := default defaultCompositeRestrictions config in
  let st := CS_Step s in
  if bool_decide (Step_Type st ≠ StepTypeRun) && negb (AllowCompositeUses config)
  then Some (validateError st "Unexpected value 'uses'")
  else if bool_decide (Step_Type st = StepTypeRun) && bool_decide (Shell st = "")
  then Some (validateError st "Required property is missing: 'shell'")
  else if negb (If_IsZero s) && negb (AllowCompositeIf config)
  then Some (validateError st "Property is not available: 'if'")
  else if ContinueOnError s && negb (AllowCompositeContinueOnError config)
  then Some (validateError st "Property is not available: 'continue-on-error'")
  else None.

Definition setName (j : Job) (name : string) : Job :=
  mkJob name (Job_Strategy j) (RawContainer j) (Job_Defaults j).

(** The loop of [Workflow.GetJob] over the entries of [w.Jobs] in the
    order the [range] visits them.  A job is held by pointer; [None] is
    the nil pointer, whose field [Name] cannot be read.  The value is
    the entry found, renamed when its name was empty. *)
Fixpoint GetJob_loop (jobID : string) (jobs : list (string * option Job))
    : outcome (option (string * Job)) :=
  match jobs with
  | [] => Ok None
  | (id, j) :: rest =>
      if bool_decide (jobID = id) then
        match j with
        | Some j =>
            Ok (Some (id, if bool_decide (Job_Name j = "") then setName j id else j))
        | None => Panic
        end
      else GetJob_loop jobID rest
  end.

(** [Workflow.GetJob] on the field [Jobs]: the map after the call (the
    job is renamed in place) and the job returned; [Ok None] is the nil
    result. *)
Definition GetJob `{MapRange} (Jobs : gmap string (option Job)) (jobID : string)
    : gmap string (option Job) * outcome (option Job) :=
  match GetJob_loop jobID (range Jobs) with
  | Ok (Some (id, j)) => (<[id := Some j]> Jobs, Ok (Some j))
  | Ok None => (Jobs, Ok None)
  | Fatal msg => (Jobs, Fatal msg)
  | Panic => (Jobs, Panic)
  end.

(** [Workflow.GetJobIDs] *)
Definition GetJobIDs `{MapRange} (Jobs : gmap string (option Job)) : list string :=
  foldl (λ ids '(id, _), ids ++ [id]) [] (range Jobs).

End Model.

(* ===================================================================== *)
(** ** Package container: the exit status of a run *)
(* ===================================================================== *)

Module Container.

(** What the [select] of [waitContainer] received: a value from the
    error channel (possibly nil) or a status from the status channel. *)
Inductive waited :=
  | FromErrCh (err : option Go.error)
  | FromStatusCh (StatusCode : Z).

Definition neutral : Go.error := "exiting with `NEUTRAL`: 78".
Definition failure (statusCode : Z) : Go.error :=
  "exit with `FAILURE`: " +:+ pretty statusCode.

Definition waitContainer (received : waited) : option Go.error :=
  let statusCode := 0 in
  let after_select : option Go.error + Z :=
    match received with
    | FromErrCh (Some err) => inl (Some err)
    | FromErrCh None => inr statusCode
    | FromStatusCh status => inr status
    end in
  match after_select with
  | inl err => err
  | inr statusCode =>
      if bool_decide (statusCode = 0) then None
      else if bool_decide (statusCode = 78) then Some neutral
      else Some (failure statusCode)
  end.

(* ------------------------------------------------------------------- *)
(** *** Running a container *)

Record NewDockerRunExecutorInput := mkNewDockerRunExecutorInput {
  Dryrun : bool;
  Input_Image : string;
  Entrypoint : string;
  Input_Cmd : list string;
  WorkingDir : string;
  Input_Env : list string;
  Binds : list string;
  Content : gmap string string;
  Volumes : list string;
  Input_Name : string
}.

(** [container.Config], with the fields [createContainer] sets.  A nil
    map is the empty set, a nil slice the empty list. *)
Record Config := mkConfig {
  Config_Image : string;
  Config_Cmd : list string;
  Config_WorkingDir : string;
  Config_Env : list string;
  Tty : bool;
  Config_Volumes : gset string;
  Config_Entrypoint : list string
}.

(** The configuration [createContainer] hands to the daemon. *)
Definition containerConfig (input : NewDockerRunExecutorInput) (isTerminal : bool)
    : Config :=
  let cmd := Input_Cmd input in
  let cmd :=
    match Input_Cmd input with
    | [cmd0] => Go.Split cmd0 " "
    | _ => cmd
    end in
  let config :=
    mkConfig (Input_Image input) cmd (WorkingDir input) (Input_Env input)
      isTerminal ∅ [] in
  let config :=
    if bool_decide (0 < length (Volumes input))%nat then
      mkConfig (Config_Image config) (Config_Cmd config) (Config_WorkingDir config)
        (Config_Env config) (Tty config)
        (foldl (λ volumes vol, {[vol]} ∪ volumes) ∅ (Volumes input))
        (Config_Entrypoint config)
    else config in
  if bool_decide (Entrypoint input ≠ "") then
    mkConfig (Config_Image config) (Config_Cmd config) (Config_WorkingDir config)
      (Config_Env config) (Tty config) (Config_Volumes config) [Entrypoint input]
  else config.

(** The calls made to the Docker daemon. *)
Inductive call :=
  | ContainerCreate (config : Config) (binds : list string) (name : string)
  | ContainerRemove (containerID : string)
  | CopyToContainer (containerID dstPath content : string)
  | ContainerAttach (containerID : string)
  | ContainerStart (containerID : string)
  | ContainerWait (containerID : string).

(** The Docker client: what the daemon, in the state [D], makes of each
    call, and whether the standard output is a terminal. *)
Class DockerClient (D : Type) := {
  NewClientWithOpts : option Go.error;
  IsTerminal : bool;
  daemon : call → D → D;
  created : D → string * option Go.error;
  failed : D → option Go.error;
  awaited : D → waited
}.

(** The state of a run of the executor: the daemon and the calls made to
    it so far, in order. *)
Definition invoke_call {D} `{DockerClient D} (c : call) (st : D * list call)
    : D * list call :=
  (daemon c st.1, st.2 ++ [c]).

Definition createContainer {D} `{DockerClient D} (input : NewDockerRunExecutorInput)
    (st : D * list call) : D * list call * (string * option Go.error) :=
  let config := containerConfig input IsTerminal in
  let st := invoke_call (ContainerCreate config (Binds input) (Input_Name input)) st in
  match created st.1 with
  | (_, Some err) => (st, ("", Some err))
  | (id, None) => (st, (id, None))
  end.

Definition removeContainer {D} `{DockerClient D} (containerID : string)
    (st : D * list call) : D * list call :=
  invoke_call (ContainerRemove containerID) st.

(** The loop of [copyContentToContainer] over the entries of
    [input.Content] in the order the [range] visits them. *)
Fixpoint copyContent_loop {D} `{DockerClient D} (containerID : string)
    (content : list (string * string)) (st : D * list call)
    : D * list call * option Go.error :=
  match content with
  | [] => (st, None)
  | (dstPath, srcReader) :: rest =>
      let st := invoke_call (CopyToContainer containerID dstPath srcReader) st in
      match failed st.1 with
      | Some err => (st, Some err)
      | None => copyContent_loop containerID rest st
      end
  end.

Definition copyContentToContainer {D} `{DockerClient D} `{MapRange}
    (input : NewDockerRunExecutorInput) (containerID : string) (st : D * list call)
    : D * list call * option Go.error :=
  copyContent_loop containerID (range (Content input)) st.

Definition attachContainer {D} `{DockerClient D} (containerID : string)
    (st : D * list call) : D * list call * option Go.error :=
  let st := invoke_call (ContainerAttach containerID) st in
  (st, failed st.1).

Definition startContainer {D} `{DockerClient D} (containerID : string)
    (st : D * list call) : D * list call * option Go.error :=
  let st := invoke_call (ContainerStart containerID) st in
  (st, failed st.1).

Definition awaitContainer {D} `{DockerClient D} (containerID : string)
    (st : D * list call) : D * list call * option Go.error :=
  let st := invoke_call (ContainerWait containerID) st in
  (st, waitContainer (awaited st.1)).

(** [NewDockerRunExecutor]: the body up to the deferred call, then the
    executor, which runs [removeContainer] on every way out once the
    container has been created. *)
Definition runCreated {D} `{DockerClient D} `{MapRange}
    (input : NewDockerRunExecutorInput) (containerID : string) (st : D * list call)
    : D * list call * option Go.error :=
  match copyContentToContainer input containerID st with
  | (st, Some err) => (st, Some err)
  | (st, None) =>
      match attachContainer containerID st with
      | (st, Some err) => (st, Some err)
      | (st, None) =>
          match startContainer containerID st with
          | (st, Some err) => (st, Some err)
          | (st, None) => awaitContainer containerID st
          end
      end
  end.

Definition NewDockerRunExecutor {D} `{DockerClient D} `{MapRange}
    (input : NewDockerRunExecutorInput) (st : D * list call)
    : D * list call * option Go.error :=
  if Dryrun input then (st, None)
  else
    match NewClientWithOpts with
    | Some err => (st, Some err)
    | None =>
        match createContainer input st with
        | (st, (_, Some err)) => (st, Some err)
        | (st, (containerID, None)) =>
            let '(st, err) := runCreated input containerID st in
            (removeContainer containerID st, err)
        end
    end.

(* ------------------------------------------------------------------- *)
(** *** The daemon socket *)

(** The process environment and the file system, as [os.LookupEnv],
    [os.ExpandEnv] and [os.Lstat] show them; [Lstat] gives the error. *)
Class HostSystem := {
  LookupEnv : string → option string;
  ExpandEnv : string → string;
  Lstat : string → option Go.error
}.

Definition CommonSocketPaths : list string :=
  [ "/var/run/docker.sock";
    "/run/podman/podman.sock";
    "$HOME/.colima/docker.sock";
    "$XDG_RUNTIME_DIR/docker.sock";
    "$XDG_RUNTIME_DIR/podman/podman.sock";
    "\\.\pipe\docker_engine";
    "$HOME/.docker/run/docker.sock" ].

(** [filepath.ToSlash] where the separator is the slash: the file is
    not built for Windows. *)
Definition ToSlash (path : string) : string := path.

Fixpoint socketLocation_loop `{HostSystem} (paths : list string) : string * bool :=
  match paths with
  | [] => ("", false)
  | p :: rest =>
      match Lstat (ExpandEnv p) with
      | None =>
          if Go.HasPrefix p "\\.\"
          then ("npipe://" +:+ ToSlash (ExpandEnv p), true)
          else ("unix://" +:+ ToSlash (ExpandEnv p), true)
      | Some _ => socketLocation_loop rest
      end
  end.

Definition socketLocation `{HostSystem} : string * bool :=
  match LookupEnv "DOCKER_HOST" with
  | Some dockerHost => (dockerHost, true)
  | None => socketLocation_loop CommonSocketPaths
  end.

(** The predicate [isDockerHostURI] hands to [strings.IndexFunc]: the
    rune is no ASCII letter. *)
Definition notLetter (r : Z) : bool :=
  ((r <? 97) || (r >? 122)) && ((r <? 65) || (r >? 90)).

Definition isDockerHostURI (daemonPath : string) : bool :=
  let protoIndex := Go.Index daemonPath "://" in
  if bool_decide (protoIndex ≠ -1) then
    let scheme := String.substring 0 (Z.to_nat protoIndex) daemonPath in
    if bool_decide (Go.IndexFunc scheme notLetter = -1) then true else false
  else false.

Record SocketAndHost := mkSocketAndHost {
  Socket : string;
  Host : string
}.

Definition socketNotFound : Go.error :=
  "daemon Docker Engine socket not found and socketHost.socket option was not set".

Definition invalidSocket (socket : string) : Go.error :=
  "no DOCKER_HOST and an invalid container socket '" +:+ socket +:+ "'".

Definition GetSocketAndHost `{HostSystem} (containerSocket dockerHost : string)
    : SocketAndHost * option Go.error :=
  let socketHost := mkSocketAndHost containerSocket dockerHost in
  let '(dockerHost, hasDockerHost) :=
    match LookupEnv (Host socketHost) with
    | Some v => (v, true)
    | None => ("", false)
    end in
  if negb hasDockerHost && bool_decide (Socket socketHost ≠ "")
     && negb (isDockerHostURI (Socket socketHost))
  then (mkSocketAndHost "" "", Some socketNotFound)
  else
    let socketHost :=
      if bool_decide (Socket socketHost = "") && hasDockerHost
      then mkSocketAndHost dockerHost (Host socketHost)
      else socketHost in
    let socketHost :=
      if bool_decide (Socket socketHost = "")
      then mkSocketAndHost socketLocation.1 (Host socketHost)
      else socketHost in
    if hasDockerHost then (socketHost, None)
    else if isDockerHostURI (Socket socketHost) then (socketHost, None)
    else (mkSocketAndHost "" "", Some (invalidSocket (Socket socketHost))).

End Container.

(* ===================================================================== *)
(** ** Package runner *)
(* ===================================================================== *)

Module Runner.
Import Model.

Definition error : Type := Go.error.
Definition LF : string := String (ascii_of_nat 10) EmptyString.

Inductive stepStage := stepStagePre | stepStageMain | stepStagePost.

#[global] Instance stepStage_eq_dec : EqDecision stepStage.
Proof. solve_decision. Defined.

Definition stepStage_String (s : stepStage) : string :=
  match s with
  | stepStagePre => "Pre"
  | stepStageMain => "Main"
  | stepStagePost => "Post"
  end.

(** Modelled from the spec: [model.StepStatus] and [model.StepResult]
    are declared outside the sources.  "StepResult: outcome (raw result
    before continue-on-error) and conclusion (effective result), plus a
    string-keyed outputs map"; the statuses are success, failure and
    skipped. *)
Inductive stepStatus := StepStatusSuccess | StepStatusFailure | StepStatusSkipped.

Record StepResult := mkStepResult {
  Outcome : stepStatus;
  Conclusion : stepStatus;
  Outputs : gmap string string
}.

(** Modelled from the spec: [exprparser.DefaultStatusCheck] is declared
    outside the sources.  "defaultPolicy ∈ {treat-empty-as-true-if-
    prior-success, treat-empty-as-always-true, treat-empty-as-false}":
    [Success], [Always] and [None] in that order. *)
Inductive DefaultStatusCheck :=
  | DefaultStatusCheckNone
  | DefaultStatusCheckSuccess
  | DefaultStatusCheckAlways.

(** Modelled from the spec: [model.Run] is declared outside the
    sources; the fields the sources read are the workflow and the job
    that [rc.Run.Job()] returns. *)
Record RunInfo := mkRun {
  Run_Workflow : Workflow;
  Run_Job : Job
}.

(** A [*model.StepResult] is an index into the store of step results. *)
Definition ptr : Type := nat.

(** Modelled from the spec: [RunContext] is declared outside the
    sources.  "RunContext: ... current step id, ordered/keyed
    StepResult map, ... optional non-owning reference to a parent
    RunContext"; the parent chain is finite ("never a cycle") and only
    read.  The job container and the expression evaluator it refers to
    are collaborators, see [ShellCollaborators] and [Collaborators]. *)
Inductive RunContext := mkRunContext {
  RC_Run : RunInfo;
  CurrentStep : string;
  StepResults : gmap string ptr;
  Parent : option RunContext
}.

(* ------------------------------------------------------------------- *)
(** *** step_run.go: the script of a [run] step *)

(** [StepContext], with the fields [setupShellCommand] touches. *)
Record StepContext := mkStepContext {
  SC_RunContext : RunContext;
  SC_Step : Step;
  Cmd : list string
}.

(** The collaborators of the script composer: the expression
    interpolation of the run context, [shellquote.Split] and the
    constant [ActPath]. *)
Class ShellCollaborators := {
  ExprEval_Interpolate : RunContext → string → string;
  shellquote_Split : string → list string * option error;
  ActPath : string
}.

Definition setShell (step : Step) (shell : string) : Step :=
  mkStep (ID step) (Name step) (Uses step) (Run step) (WorkingDirectory step)
    shell (Env step) (With step) (RawContinueOnError step).

Definition setWorkingDirectory (step : Step) (dir : string) : Step :=
  mkStep (ID step) (Name step) (Uses step) (Run step) dir
    (Shell step) (Env step) (With step) (RawContinueOnError step).

(** The loop of [getScriptName]: one prefix per parent, walking
    outward. *)
Fixpoint compositeLoop (rcs : RunContext) (scriptName : string) : string :=
  match Parent rcs with
  | Some parent =>
      compositeLoop parent (CurrentStep parent +:+ "-composite-" +:+ scriptName)
  | None => scriptName
  end.

Definition getScriptName (rc : RunContext) (step : Step) : string :=
  let scriptName := ID step in
  let scriptName := compositeLoop rc scriptName in
  "workflow/" +:+ scriptName.

Definition setupShell `{ShellCollaborators} (sc : StepContext) : StepContext :=
  let rc := SC_RunContext sc in
  let step := SC_Step sc in
  let step :=
    if bool_decide (Shell step = "")
    then setShell step (RunDefaults_Shell (Job_Defaults (Run_Job (RC_Run rc))))
    else step in
  let step := setShell step (ExprEval_Interpolate rc (Shell step)) in
  let step :=
    if bool_decide (Shell step = "")
    then setShell step (RunDefaults_Shell (Workflow_Defaults (Run_Workflow (RC_Run rc))))
    else step in
  let step :=
    match Container (Run_Job (RC_Run rc)) with
    | Some c =>
        if bool_decide (Image c ≠ "") && bool_decide (Shell step = "")
        then setShell step "sh" else step
    | None => step
    end in
  mkStepContext rc step (Cmd sc).

Definition setupWorkingDirectory `{ShellCollaborators} (sc : StepContext) : StepContext :=
  let rc := SC_RunContext sc in
  let step := SC_Step sc in
  let step :=
    if bool_decide (WorkingDirectory step = "")
    then setWorkingDirectory step
           (RunDefaults_WorkingDirectory (Job_Defaults (Run_Job (RC_Run rc))))
    else step in
  let step := setWorkingDirectory step (ExprEval_Interpolate rc (WorkingDirectory step)) in
  let step :=
    if bool_decide (WorkingDirectory step = "")
    then setWorkingDirectory step
           (RunDefaults_WorkingDirectory (Workflow_Defaults (Run_Workflow (RC_Run rc))))
    else step in
  mkStepContext rc step (Cmd sc).

Definition stopOnError : string := "$ErrorActionPreference = 'stop'".
Definition propagateExitCode : string :=
  "if ((Test-Path -LiteralPath variable:/LASTEXITCODE)) { exit $LASTEXITCODE }".

(** The [switch step.Shell]: extension, line to prepend, line to
    append. *)
Definition shellWrapping (shell : string) : string * string * string :=
  if bool_decide (shell ∈ ["bash"; "sh"]) then (".sh", "", "")
  else if bool_decide (shell ∈ ["pwsh"; "powershell"])
  then (".ps1", stopOnError, propagateExitCode)
  else if bool_decide (shell = "cmd") then (".cmd", "@echo off", "")
  else if bool_decide (shell = "python") then (".py", "", "")
  else ("", "", "").

(** [setupShellCommand]: the context with the resolved shell, working
    directory and command line, and the results [name], [script],
    [err]. *)
Definition setupShellCommand `{ShellCollaborators} (sc : StepContext)
    : StepContext * (string * string * option error) :=
  let sc := setupShell sc in
  let sc := setupWorkingDirectory sc in
  let step := SC_Step sc in
  let script := ExprEval_Interpolate (SC_RunContext sc) (Run step) in
  let scCmd := ShellCommand step in
  let name := getScriptName (SC_RunContext sc) step in
  let '(ext, runPrepend, runAppend) := shellWrapping (Shell step) in
  let name := name +:+ ext in
  let script := runPrepend +:+ LF +:+ script +:+ LF +:+ runAppend in
  let scriptPath := ActPath +:+ "/" +:+ name in
  let '(cmd, err) := shellquote_Split (Go.Replace1 scCmd "{0}" scriptPath) in
  (mkStepContext (SC_RunContext sc) step cmd, (name, script, err)).

(* ------------------------------------------------------------------- *)
(** *** step.go: merging environments *)

(** The closure passed to [strings.Map]: follow [SimpleFold] upward
    until it wraps around. *)
Equations? foldRune `{UnicodeTables} (r : Z) : Z
    by wf (Z.to_nat (Go.MaxRune - r)) lt :=
  foldRune r with Z_le_dec (SimpleFold r) r => {
    | left _ := r;
    | right _ := foldRune (SimpleFold r) }.
Proof. pose proof (SimpleFold_range r). lia. Qed.

Definition mergeIntoMapCaseSensitive `{MapRange} (target : gmap string string)
    (maps : list (gmap string string)) : gmap string string :=
  foldl (λ target m, foldl (λ target '(k, v), <[k := v]> target) target (range m))
    target maps.

Definition foldKey `{UnicodeTables} (k : string) : string := Go.Map foldRune k.

(** One iteration of the loop of
    [mergeSingleMapIntoMapCaseInsensitive]. *)
Definition mergeEntry `{UnicodeTables}
    (st : gmap string string * gmap string string) (kv : string * string)
    : gmap string string * gmap string string :=
  let '(lookUp, target) := st in
  let '(k, v) := kv in
  let foldkey := foldKey k in
  match lookUp !! foldkey with
  | Some m => (lookUp, <[m := v]> target)
  | None => (<[foldkey := k]> lookUp, <[k := v]> target)
  end.

Definition mergeSingleMapIntoMapCaseInsensitive `{UnicodeTables} `{MapRange}
    (lookUp target m : gmap string string)
    : gmap string string * gmap string string :=
  foldl mergeEntry (lookUp, target) (range m).

(** [mergeIntoMapCaseInsensitive].  The first call ranges over the
    target while writing to it; it only writes keys the loop has
    already visited, so the entries it reads are those of the target at
    the start. *)
Definition mergeIntoMapCaseInsensitive `{UnicodeTables} `{MapRange}
    (target : gmap string string) (maps : list (gmap string string))
    : gmap string string :=
  let lookUp := ∅ in
  let '(lookUp, target) := mergeSingleMapIntoMapCaseInsensitive lookUp target target in
  (foldl (λ '(lookUp, target) m, mergeSingleMapIntoMapCaseInsensitive lookUp target m)
     (lookUp, target) maps).2.

(* ------------------------------------------------------------------- *)
(** *** step.go: the state a step invocation works on *)

(** [W] stands for everything outside the run context's table of step
    results: the container's file system, the environment kept by the
    run context, the states saved for later stages, the extra path.
    [heap] holds the [StepResult] objects allocated so far, [stepEnv]
    is the map [step.getEnv()] points to, and [evaluated] is a ghost
    record of the calls made to [EvalBool], in order. *)
Record State (W : Type) := mkState {
  rc : RunContext;
  heap : list StepResult;
  stepEnv : gmap string string;
  world : W;
  evaluated : list (string * DefaultStatusCheck)
}.
Arguments mkState {W}.
Arguments rc {W}.
Arguments heap {W}.
Arguments stepEnv {W}.
Arguments world {W}.
Arguments evaluated {W}.

(** [container.FileEntry] *)
Record FileEntry := mkFileEntry {
  FileEntry_Name : string;
  Mode : Z;
  Body : string
}.

(** The collaborators of the step runner.  The container, the
    environment setters and the step body act on [W]; the expression
    evaluator reads the whole state. *)
Class Collaborators (W : Type) := {
  IsEnvironmentCaseInsensitive : bool;
  GetActPath : string;
  Copy : string → list FileEntry → W → W * option error;
  UpdateFromEnv : string → W → W * (gmap string string * option error);
  UpdateExtraPath : string → W → W * option error;
  setEnv : string → string → W → W;
  saveState : string → string → W → W;
  RC_GetEnv : W → gmap string string;
  withGithubEnv : W → gmap string string → gmap string string;
  Interpolate : State W → option (gmap string string) → string → string;
  EvalBool : State W → string → DefaultStatusCheck → bool * option error
}.

(** The [step] interface: the step model and the condition that
    applies to each stage. *)
Record step := mkStepI {
  getStepModel : Step;
  getIfExpression : stepStage → string
}.

(** The body of an executor: where it is, the function either goes on
    with a value ([inl]) or has returned ([inr]). *)
Definition M (W A : Type) : Type := State W → State W * (A + option error).

#[global] Instance M_ret {W} : MRet (M W) := λ A a s, (s, inl a).
#[global] Instance M_bind {W} : MBind (M W) := λ A B f m s,
  match m s with
  | (s', inl a) => f a s'
  | (s', inr r) => (s', inr r)
  end.

Definition Return {W A} (r : option error) : M W A := λ s, (s, inr r).
Definition modify {W} (f : State W → State W) : M W () := λ s, (f s, inl ()).
Definition gets {W A} (f : State W → A) : M W A := λ s, (s, inl (f s)).
Definition onWorld {W A} (f : W → W * A) : M W A := λ s,
  let '(w, a) := f (world s) in
  (mkState (rc s) (heap s) (stepEnv s) w (evaluated s), inl a).

Definition run {W} (m : M W (option error)) (s : State W) : State W * option error :=
  match m s with
  | (s', inl r) => (s', r)
  | (s', inr r) => (s', r)
  end.

Section lifecycle.
Context {W : Type} `{Collaborators W} `{UnicodeTables} `{MapRange}.

Definition setCurrentStep (id : string) (s : State W) : State W :=
  mkState (mkRunContext (RC_Run (rc s)) id (StepResults (rc s)) (Parent (rc s)))
    (heap s) (stepEnv s) (world s) (evaluated s).

Definition setStepResults (r : gmap string ptr) (s : State W) : State W :=
  mkState (mkRunContext (RC_Run (rc s)) (CurrentStep (rc s)) r (Parent (rc s)))
    (heap s) (stepEnv s) (world s) (evaluated s).

Definition setHeap (h : list StepResult) (s : State W) : State W :=
  mkState (rc s) h (stepEnv s) (world s) (evaluated s).

Definition setStepEnv (env : gmap string string) (s : State W) : State W :=
  mkState (rc s) (heap s) env (world s) (evaluated s).

(** [&model.StepResult{...}] *)
Definition new (r : StepResult) : M W ptr := λ s,
  (setHeap (heap s ++ [r]) s, inl (length (heap s))).

(** [stepResult.Outcome = v], [stepResult.Conclusion = v] and
    [result.Outputs[name] = v] through a pointer. *)
Definition setOutcome (p : ptr) (v : stepStatus) : M W () :=
  modify (λ s, setHeap
    (alter (λ r, mkStepResult v (Conclusion r) (Outputs r)) p (heap s)) s).

Definition setConclusion (p : ptr) (v : stepStatus) : M W () :=
  modify (λ s, setHeap
    (alter (λ r, mkStepResult (Outcome r) v (Outputs r)) p (heap s)) s).

Definition setOutputAt (p : ptr) (name v : string) (s : State W) : State W :=
  setHeap
    (alter (λ r, mkStepResult (Outcome r) (Conclusion r) (<[name := v]> (Outputs r)))
       p (heap s)) s.

(** The three setters handed to [processRunnerEnvFileCommand]. *)
Definition rc_setEnv (name v : string) (s : State W) : State W :=
  mkState (rc s) (heap s) (stepEnv s) (setEnv name v (world s)) (evaluated s).

Definition rc_saveState (name v : string) (s : State W) : State W :=
  mkState (rc s) (heap s) (stepEnv s) (saveState name v (world s)) (evaluated s).

(** Modelled from the spec: [RunContext.setOutput] is not among the
    sources.  "output-file entries populate the current step's
    StepResult outputs": the entry of the current step, when there is
    one, receives the output. *)
Definition rc_setOutput (name v : string) (s : State W) : State W :=
  match StepResults (rc s) !! CurrentStep (rc s) with
  | Some result => setOutputAt result name v s
  | None => s
  end.

Definition mergeIntoMap (target : gmap string string)
    (maps : list (gmap string string)) : gmap string string :=
  if IsEnvironmentCaseInsensitive
  then mergeIntoMapCaseInsensitive target maps
  else mergeIntoMapCaseSensitive target maps.

Definition mergeEnv : M W () :=
  modify (λ s,
    let job := Run_Job (RC_Run (rc s)) in
    let env :=
      match Container job with
      | Some c => mergeIntoMap (stepEnv s) [RC_GetEnv (world s); ContainerSpec_Env c]
      | None => mergeIntoMap (stepEnv s) [RC_GetEnv (world s)]
      end in
    setStepEnv (withGithubEnv (world s) env) s).

(** The two interpolation loops of [setupEnv] rewrite the value of
    every key on one side of the [INPUT_] prefix. *)
Definition interpolateEnv (inputs : bool) (withEnv : bool) : M W () :=
  modify (λ s,
    let exprEval := Interpolate s (if withEnv then Some (stepEnv s) else None) in
    setStepEnv
      (map_imap (λ k v,
         Some (if bool_decide (Go.HasPrefix k "INPUT_" = inputs)
               then exprEval v else v))
         (stepEnv s)) s).

Definition setupEnv (step : step) : M W (option error) :=
  mergeEnv;;
  modify (λ s, setStepEnv (mergeIntoMap (stepEnv s) [GetEnv (getStepModel step)]) s);;
  interpolateEnv false false;;
  interpolateEnv true true;;
  mret None.

(** A call to [EvalBool], recorded in [evaluated]. *)
Definition callEvalBool (expr : string) (d : DefaultStatusCheck)
    : M W (bool * option error) := λ s,
  (mkState (rc s) (heap s) (stepEnv s) (world s) (evaluated s ++ [(expr, d)]),
   inl (EvalBool s expr d)).

Definition ifError (expr err : string) : error :=
  "  ❌  Error in if-expression: " +:+ Go.dquote +:+ "if: " +:+ expr +:+
  Go.dquote +:+ " (" +:+ err +:+ ")".

Definition continueOnErrorError (expr err : string) : error :=
  "  ❌  Error in continue-on-error-expression: " +:+ Go.dquote +:+
  "continue-on-error: " +:+ expr +:+ Go.dquote +:+ " (" +:+ err +:+ ")".

Definition isStepEnabled (expr : string) (step : step) (stage : stepStage)
    : M W (bool * option error) :=
  let defaultStatusCheck :=
    if decide (stage = stepStagePost)
    then DefaultStatusCheckAlways
    else DefaultStatusCheckSuccess in
  '(runStep, err) ← callEvalBool expr defaultStatusCheck;
  match err with
  | Some err => mret (false, Some (ifError expr err))
  | None => mret (runStep, None)
  end.

Definition isContinueOnError (expr : string) (step : step) (stage : stepStage)
    : M W (bool * option error) :=
  if bool_decide (Go.len (Go.TrimSpace expr) = 0) then mret (false, None)
  else
    '(continueOnError, err) ← callEvalBool expr DefaultStatusCheckNone;
    match err with
    | Some err => mret (false, Some (continueOnErrorError expr err))
    | None => mret (continueOnError, None)
    end.

Definition processRunnerEnvFileCommand (fileName : string)
    (setter : string → string → State W → State W) : M W (option error) :=
  '(env, err) ← onWorld (UpdateFromEnv (Go.path_Join GetActPath fileName));
  match err with
  | Some err => mret (Some err)
  | None =>
      modify (λ s, foldl (λ s '(k, v), setter k v s) s (range env));;
      mret None
  end.

(** The mode [0o666]. *)
Definition mode666 : Z := 438.

Definition outputFileCommand : string := Go.path_Join "workflow" "outputcmd.txt".
Definition stateFileCommand : string := Go.path_Join "workflow" "statecmd.txt".
Definition pathFileCommand : string := Go.path_Join "workflow" "pathcmd.txt".
Definition envFileCommand : string := Go.path_Join "workflow" "envs.txt".
Definition summaryFileCommand : string := Go.path_Join "workflow" "SUMMARY.md".

(** Lines 61 to 80 of [runStepExecutor]: the step result is
    allocated and, in the main stage, installed under the step's id;
    the environment is set up.  The value is the pointer
    [stepResult]. *)
Definition install (step : step) (stage : stepStage) : M W ptr :=
  let stepModel := getStepModel step in
  modify (setCurrentStep (ID stepModel));;
  stepResult ← new (mkStepResult StepStatusSuccess StepStatusSuccess ∅);
  (if decide (stage = stepStageMain)
   then modify (λ s, setStepResults
                  (<[CurrentStep (rc s) := stepResult]> (StepResults (rc s))) s)
   else mret ());;
  err ← setupEnv step;
  match err with Some _ => Return err | None => mret () end;;
  mret stepResult.

(** Lines 82 to 135: the condition is evaluated and the runner file
    commands are prepared. *)
Definition prepare (step : step) (stage : stepStage) (stepResult : ptr) : M W () :=
  let ifExpression := getIfExpression step stage in
  '(runStep, err) ← isStepEnabled ifExpression step stage;
  match err with
  | Some _ =>
      setConclusion stepResult StepStatusFailure;;
      setOutcome stepResult StepStatusFailure;;
      Return err
  | None => mret ()
  end;;
  (if negb runStep then
     setConclusion stepResult StepStatusSkipped;;
     setOutcome stepResult StepStatusSkipped;;
     Return None
   else mret ());;
  let actPath := GetActPath in
  modify (λ s, setStepEnv
    (<["GITHUB_STEP_SUMMARY" := Go.path_Join actPath summaryFileCommand]>
     (<["GITHUB_ENV" := Go.path_Join actPath envFileCommand]>
      (<["GITHUB_PATH" := Go.path_Join actPath pathFileCommand]>
       (<["GITHUB_STATE" := Go.path_Join actPath stateFileCommand]>
        (<["GITHUB_OUTPUT" := Go.path_Join actPath outputFileCommand]>
         (stepEnv s)))))) s);;
  _ ← onWorld (Copy actPath
         [mkFileEntry outputFileCommand mode666 "";
          mkFileEntry stateFileCommand mode666 "";
          mkFileEntry pathFileCommand mode666 "";
          mkFileEntry envFileCommand mode666 "";
          mkFileEntry summaryFileCommand mode666 ""]);
  mret ().

(** Lines 137 to 159: the body runs; on failure the policy
    [continue-on-error] decides what becomes of its error.  The
    value is [err] as it stands at line 160. *)
Definition invoke (step : step) (stage : stepStage) (executor : W → W * option error)
    (stepResult : ptr) : M W (option error) :=
  let stepModel := getStepModel step in
  err ← onWorld executor;
  match err with
  | None => mret None
  | Some _ =>
      setOutcome stepResult StepStatusFailure;;
      '(continueOnError, parseErr) ←
        isContinueOnError (RawContinueOnError stepModel) step stage;
      match parseErr with
      | Some _ =>
          setConclusion stepResult StepStatusFailure;;
          Return parseErr
      | None =>
          if continueOnError : bool then
            setConclusion stepResult StepStatusSuccess;;
            mret None
          else
            setConclusion stepResult StepStatusFailure;;
            mret err
      end
  end.

(** Lines 160 to 177: the runner file commands are processed in the
    order env, state, output, path; the first error ends the
    invocation. *)
Definition processRunnerFileCommands : M W () :=
  let actPath := GetActPath in
  err ← processRunnerEnvFileCommand envFileCommand rc_setEnv;
  match err with Some _ => Return err | None => mret () end;;
  err ← processRunnerEnvFileCommand stateFileCommand rc_saveState;
  match err with Some _ => Return err | None => mret () end;;
  err ← processRunnerEnvFileCommand outputFileCommand rc_setOutput;
  match err with Some _ => Return err | None => mret () end;;
  err ← onWorld (UpdateExtraPath (Go.path_Join actPath pathFileCommand));
  match err with Some _ => Return err | None => mret () end.

Definition runStepExecutor (step : step) (stage : stepStage)
    (executor : W → W * option error) : State W → State W * option error :=
  run (
    stepResult ← install step stage;
    prepare step stage stepResult;;
    err ← invoke step stage executor stepResult;
    let orgerr := err in
    processRunnerFileCommands;;
    match orgerr with
    | Some _ => Return orgerr
    | None => mret None
    end).

End lifecycle.

End Runner.

Import Model Container Runner.

(* ===================================================================== *)
(** ** Concrete collaborators *)
(* ===================================================================== *)

(** The enumeration of a map in the order of its keys' encoding. *)
Definition canonicalRange : MapRange :=
  {| range := λ A m, map_to_list m;
     range_perm := λ A m, reflexivity (map_to_list m) |}.

(** The rows of the [unicode] tables for the ASCII letters, with the two
    runes outside ASCII that [SimpleFold] puts in their orbits (the
    Kelvin sign after [k], the long s after [s]); other runes are left
    alone. *)
Definition asciiSimpleFold (r : Z) : Z :=
  if bool_decide (r = 75) then 107
  else if bool_decide (r = 107) then 0x212A
  else if bool_decide (r = 0x212A) then 75
  else if bool_decide (r = 83) then 115
  else if bool_decide (r = 115) then 0x17F
  else if bool_decide (r = 0x17F) then 83
  else if Go.between 65 90 r then r + 32
  else if Go.between 97 122 r then r - 32
  else r.

(** The lower-case form of a rune of these rows, and the equivalence
    the rows fold: runes with one lower-case form. *)
Definition asciiLower (r : Z) : Z :=
  if bool_decide (r = 0x212A) then 107
  else if bool_decide (r = 0x17F) then 115
  else if Go.between 65 90 r then r + 32
  else r.

Definition sameLetter (r r' : Z) : Prop := asciiLower r = asciiLower r'.

Definition asciiToUpper (r : Z) : Z :=
  if Go.between 97 122 r then r - 32 else r.

Lemma asciiSimpleFold_range r : asciiSimpleFold r <= Z.max r Go.MaxRune.
Proof.
  unfold asciiSimpleFold, Go.between, Go.MaxRune.
  repeat case_bool_decide; repeat case_match; lia.
Qed.

Definition asciiTables : UnicodeTables :=
  {| SimpleFold := asciiSimpleFold;
     ToUpper := asciiToUpper;
     SimpleFold_range := asciiSimpleFold_range |}.

(** A script composer whose expressions are all literal: interpolation
    is the identity and the command line is left in one piece. *)
Definition literalShell : ShellCollaborators :=
  {| ExprEval_Interpolate := λ _ s, s;
     shellquote_Split := λ s, ([s], None);
     ActPath := "/var/run/act" |}.

(** An evaluator for the literals [true] and [false]; the empty
    expression takes the default of the status check. *)
Definition literalEvalBool (expr : string) (d : DefaultStatusCheck) : bool * option Go.error :=
  if bool_decide (expr = "true") then (true, None)
  else if bool_decide (expr = "false") then (false, None)
  else if bool_decide (expr = "") then
    (match d with DefaultStatusCheckNone => false | _ => true end, None)
  else (false, Some "unexpected token").

(** A container in which every file can be read and is empty
    ([unreadable = None]), or in which reading the file [f] fails
    ([unreadable = Some f]).  The world is the list of paths read. *)
Definition fileCollaborators (unreadable : option string) : Collaborators (list string) :=
  {| IsEnvironmentCaseInsensitive := false;
     GetActPath := "/var/run/act";
     Copy := λ _ _ w, (w, None);
     UpdateFromEnv := λ path w,
       (w ++ [path],
        (∅, if bool_decide (unreadable = Some path)
            then Some ("cannot read " +:+ path) else None));
     UpdateExtraPath := λ path w, (w ++ [path], None);
     setEnv := λ _ _ w, w;
     saveState := λ _ _ w, w;
     RC_GetEnv := λ _, ∅;
     withGithubEnv := λ _ env, env;
     Interpolate := λ _ _ s, s;
     EvalBool := λ _ expr d, literalEvalBool expr d |}.

Definition emptyDefaults : RunDefaults := mkRunDefaults "" "".

Definition plainJob : Job := mkJob "job" None NoContainerNode emptyDefaults.

Definition topContext (currentStep : string) : RunContext :=
  mkRunContext (mkRun (mkWorkflow "workflow" emptyDefaults) plainJob) currentStep ∅ None.

Definition initialState : State (list string) :=
  mkState (topContext "") [] ∅ [] [].

(** A [run] step with the given id, shell and [continue-on-error]. *)
Definition runStep (id shell continueOnError : string) : Step :=
  mkStep id "" "" "exit 1" "" shell ∅ ∅ continueOnError.

Definition plainStep (id continueOnError : string) : step :=
  mkStepI (runStep id "bash" continueOnError) (λ _, "").

(** A step body that fails with exit status 1. *)
Definition failingBody : list string → list string * option Go.error :=
  λ w, (w, Some "exit with `FAILURE`: 1").

(** A step body that succeeds. *)
Definition succeedingBody : list string → list string * option Go.error :=
  λ w, (w, None).


(* ===================================================================== *)
(** ** Vocabulary of the statements *)
(* ===================================================================== *)

(** *** Scripts *)

(** The enclosing contexts of a run context, innermost first. *)
Fixpoint ancestors (rc : RunContext) : list RunContext :=
  match Parent rc with
  | Some parent => parent :: ancestors parent
  | None => []
  end.

(** The name a step id gets from the enclosing contexts, innermost
    first: each one puts its current step id and [-composite-] in
    front. *)
Definition compositeName (id : string) (enclosing : list RunContext) : string :=
  foldl (λ name parent, CurrentStep parent +:+ "-composite-" +:+ name) id enclosing.

Definition endsWith (s suffix : string) : Prop := ∃ front, s = front +:+ suffix.

(** A step [build] with the given shell, run in a composite action that
    the step [outer] of the top-level context invoked. *)
Definition compositeBuild (shell : string) : StepContext :=
  mkStepContext
    (mkRunContext (mkRun (mkWorkflow "workflow" emptyDefaults) plainJob) "call" ∅
       (Some (topContext "outer")))
    (runStep "build" shell "") [].

(** *** Environment merge *)

(** The runes of a key, as [strings.Map] reads them. *)
Definition runes (k : string) : list Z := (Go.decodeRunes (Go.bytes_of k)).*1.

(** A Unicode scalar value: a code point that is no surrogate. *)
Definition scalar (r : Z) : Prop :=
  0 <= r <= Go.MaxRune ∧ ¬ (0xD800 <= r <= 0xDFFF).

(** [simpleFolding E]: the tables fold as package [unicode] documents
    [SimpleFold], for the equivalence [E] of simple case folding: among
    the runes equivalent to [r], [SimpleFold r] is the smallest one
    above [r] if there is one, and the smallest of all otherwise.  The
    equivalents of a scalar value are scalar values. *)
Definition simpleFolding `{UnicodeTables} (E : relation Z) : Prop :=
  Equivalence E
  ∧ (∀ r r', E r r' → scalar r → scalar r')
  ∧ ∀ r, E r (SimpleFold r)
       ∧ (r < SimpleFold r → ∀ r', E r r' → r < r' → SimpleFold r <= r')
       ∧ (SimpleFold r <= r → ∀ r', E r r' → SimpleFold r <= r' <= r).

(** The writes [mergeIntoMapCaseInsensitive] performs, in order: the
    entries of the target itself, then those of each map. *)
Definition writes `{MapRange} (target : gmap string string)
    (maps : list (gmap string string)) : list (string * string) :=
  range target ++ concat (range <$> maps).

(** Among the writes [ws], those to the logical name [name]. *)
Definition writesTo `{UnicodeTables} (name : string) (ws : list (string * string))
    : list (string * string) :=
  filter (λ kv, foldKey kv.1 = name) ws.

(** The spelling of the first write to a logical name and the value of
    the last one. *)
Definition firstSpelling `{UnicodeTables} (name : string) (ws : list (string * string))
    : option string :=
  fst <$> head (writesTo name ws).

Definition lastValue `{UnicodeTables} (name : string) (ws : list (string * string))
    : option string :=
  snd <$> last (writesTo name ws).

(** The tables hold the rows of the ASCII range. *)
Definition asciiRows `{UnicodeTables} : Prop :=
  ∀ r, 0 <= r < 128 → SimpleFold r = asciiSimpleFold r.

(** *** Matrix expansion *)

Definition isMap (v : value) : Prop :=
  match v with VMap _ => True | _ => False end.

#[global] Instance isMap_dec v : Decision (isMap v).
Proof. destruct v; simpl; apply _. Defined.

(** The bindings an item of a list of [include] or [exclude] entries
    holds: itself, or the members of a nested list. *)
Definition mapsOf (v : value) : list (gmap string value) :=
  match v with VMap i => [i] | _ => [] end.

Definition entriesOf (v : value) : list (gmap string value) :=
  match v with
  | VSeq t => t ≫= mapsOf
  | _ => mapsOf v
  end.

(** An [include] item the type switch handles without a panic. *)
Definition wellTypedInclude (v : value) : Prop :=
  match v with
  | VNull | VMap _ => True
  | VSeq t => Forall isMap t
  | _ => False
  end.

#[global] Instance wellTypedInclude_dec v : Decision (wellTypedInclude v).
Proof. destruct v; simpl; apply _. Defined.

Definition includeEntries (m : gmap string (list value)) : list (gmap string value) :=
  index m "include" ≫= entriesOf.

(** The exclude items are read once [include] has been deleted. *)
Definition excludeItems (m : gmap string (list value)) : list value :=
  index (delete "include" m) "exclude".

Definition excludeEntries (m : gmap string (list value)) : list (gmap string value) :=
  excludeItems m ≫= mapsOf.

(** The axes: the matrix without its [include] and [exclude] keys. *)
Definition axes (m : gmap string (list value)) : gmap string (list value) :=
  delete "exclude" (delete "include" m).

(** The entry [i] has a key that is also a key of [m]. *)
Definition namesKeyOf (m : gmap string (list value)) (i : gmap string value) : Prop :=
  map_Exists (λ k _, is_Some (m !! k)) i.

(** Every key of the entry [e] is a key of [m]. *)
Definition namesOnlyKeysOf (m : gmap string (list value)) (e : gmap string value) : Prop :=
  map_Forall (λ k _, is_Some (m !! k)) e.

(** The tuple [t] carries the value of [e] at every key they share. *)
Definition partialMatch (t e : gmap string value) : Prop :=
  ∀ k x y, t !! k = Some x → e !! k = Some y → x = y.

#[global] Instance partialMatch_dec t e : Decision (partialMatch t e).
Proof.
  destruct (decide (map_relation (λ _, (=)) (λ _ _, True) (λ _ _, True) t e)) as [Hy|Hn].
  - left. unfold partialMatch. by apply map_agree_spec.
  - right. intros Hp. apply Hn. fold (map_agree t e). by apply map_agree_spec.
Defined.

(** Some exclude entry with at least one key matches [t]. *)
Definition excludedBy (excludes : list (gmap string value)) (t : gmap string value) : Prop :=
  Exists (λ e, e ≠ ∅ ∧ partialMatch t e) excludes.

(** The product of the numbers of values of the axes. *)
Definition cardinality (m : gmap string (list value)) : nat :=
  foldr Nat.mul 1%nat ((λ kv, length kv.2) <$> map_to_list m).

(** The entries the exclude loop appends: each one once per key. *)
Definition appended (es : list value) : list (gmap string value) :=
  es ≫= (λ v, mapsOf v ≫= (λ e, replicate (size e) e)).
Arguments appended : simpl never.

(** The matrix of the example: two axes and one exclude entry. *)
Definition exampleMatrix : gmap string (list value) :=
  {[ "os" := [VStr "a"; VStr "b"];
     "version" := [VInt 1; VInt 2];
     "exclude" := [VMap {[ "os" := VStr "a"; "version" := VInt 1 ]}] ]}.

Definition binding (os : string) (version : Z) : gmap string value :=
  {[ "os" := VStr os; "version" := VInt version ]}.

Definition jobWithMatrix (raw : matrixNode) : Job :=
  mkJob "job" (Some (mkStrategy false 0 "" "" raw)) NoContainerNode emptyDefaults.

(** An include entry that names no key of the matrix, an exclude entry
    without keys, and an exclude entry with a misspelt axis. *)
Definition unknownInclude : gmap string (list value) :=
  {[ "os" := [VStr "a"]; "include" := [VMap {[ "foo" := VStr "bar" ]}] ]}.



(** *** Step life cycle *)

(** Outcome and conclusion of every step result of the store. *)
Definition statuses (h : list StepResult) : list (stepStatus * stepStatus) :=
  (λ r, (Outcome r, Conclusion r)) <$> h.

(** [sameTable s s']: the run context is the same and the store holds
    the same number of step results. *)
Definition sameTable {W} (s s' : State W) : Prop :=
  rc s' = rc s ∧ length (heap s') = length (heap s).

(** [sameRecords s s']: the run context is the same, no outcome or
    conclusion has changed and the evaluator was not called. *)
Definition sameRecords {W} (s s' : State W) : Prop :=
  rc s' = rc s ∧ statuses (heap s') = statuses (heap s) ∧ evaluated s' = evaluated s.

(** [sameOthers p s s']: no step result but the one at [p] has changed
    its outcome or conclusion. *)
Definition sameOthers {W} (p : ptr) (s s' : State W) : Prop :=
  ∀ q, q ≠ p → statuses (heap s') !! q = statuses (heap s) !! q.

(** The outcome and the conclusion recorded for the step [id]: those
    of the step result its entry of [rc.StepResults] points to. *)
Definition recorded {W} (s : State W) (id : string)
    : option (stepStatus * stepStatus) :=
  p ← StepResults (rc s) !! id; statuses (heap s) !! p.

(** [keeps I m]: wherever [m] ends, its final state is related to its
    initial state by [I]. *)
Definition keeps {W A} (I : relation (State W)) (m : M W A) : Prop :=
  ∀ s s' r, m s = (s', r) → I s s'.

(** The state in which the condition of the stage is evaluated. *)
Definition installed {W} `{Collaborators W} `{UnicodeTables} `{MapRange}
    (step : step) (stage : stepStage) (s : State W) : State W :=
  (install step stage s).1.

(** The state in which [continue-on-error] is looked at when the body
    has failed leaving the world [w]. *)
Definition bodyFailed {W} (p : ptr) (w : W) (s : State W) : State W :=
  mkState (rc s)
    (alter (λ r, mkStepResult StepStatusFailure (Conclusion r) (Outputs r)) p (heap s))
    (stepEnv s) w (evaluated s).

Definition defaultCheck (stage : stepStage) : DefaultStatusCheck :=
  if decide (stage = stepStagePost) then DefaultStatusCheckAlways
  else DefaultStatusCheckSuccess.

(** The path of the env file in the container of [fileCollaborators]. *)
Definition envFilePath : string := "/var/run/act/workflow/envs.txt".

(** A matrix whose include entry shares the key [os] with the matrix and
    agrees with its exclude entry. *)
Definition includeAndExclude : gmap string (list value) :=
  {[ "os" := [VStr "a"; VStr "b"];
     "include" := [VMap {[ "os" := VStr "a"; "color" := VStr "red" ]}];
     "exclude" := [VMap {[ "os" := VStr "a" ]}] ]}.

(** A step whose condition is the literal [false]. *)
Definition disabledStep : step := mkStepI (runStep "build" "bash" "") (λ _, "false").


(** *** Steps and jobs *)

(** The bytes of a variable name that [GetEnv] makes of a [with] key:
    upper-case letters, digits, the hyphen and the underscore. *)
Definition envNameByte (b : Z) : bool :=
  Go.between 65 90 b || Go.between 48 57 b || bool_decide (b = 45)
  || bool_decide (b = 95).

(** *** Running a container *)

(** The calls a run makes on the container [containerID] once it is
    created, when none of them fails: one copy per content entry, then
    attach, start and wait. *)
Definition planned `{MapRange} (input : NewDockerRunExecutorInput) (containerID : string)
    : list call :=
  ((λ '(dstPath, content), CopyToContainer containerID dstPath content)
     <$> range (Content input))
  ++ [ContainerAttach containerID; ContainerStart containerID;
      ContainerWait containerID].

(** *** The daemon socket *)

(** The bytes of the ASCII letters. *)
Definition isLetter (b : Z) : bool := Go.between 65 90 b || Go.between 97 122 b.

(** *** Shells *)

(** The shells [ShellCommand] has a command line for. *)
Definition knownShells : list string :=
  [""; "bash"; "pwsh"; "python"; "sh"; "cmd"; "powershell"].

(** *** Stages of an invocation *)

(** The files of the runner file commands, as [runStepExecutor] creates
    them before the body runs. *)
Definition commandFiles : list FileEntry :=
  [ mkFileEntry outputFileCommand mode666 "";
    mkFileEntry stateFileCommand mode666 "";
    mkFileEntry pathFileCommand mode666 "";
    mkFileEntry envFileCommand mode666 "";
    mkFileEntry summaryFileCommand mode666 "" ].

(** The variables that tell the body where these files are. *)
Definition fileVariables {W} `{Collaborators W} : list (string * string) :=
  [ ("GITHUB_OUTPUT", Go.path_Join GetActPath outputFileCommand);
    ("GITHUB_STATE", Go.path_Join GetActPath stateFileCommand);
    ("GITHUB_PATH", Go.path_Join GetActPath pathFileCommand);
    ("GITHUB_ENV", Go.path_Join GetActPath envFileCommand);
    ("GITHUB_STEP_SUMMARY", Go.path_Join GetActPath summaryFileCommand) ].

(** The environment [setupEnv] has merged when it starts to
    interpolate: the step's own, under it what the run context and the
    job container give, the GitHub variables in between. *)
Definition mergedEnv {W} `{Collaborators W} `{UnicodeTables} `{MapRange}
    (st : step) (s : State W) : gmap string string :=
  let inherited :=
    match Container (Run_Job (RC_Run (rc s))) with
    | Some c => [RC_GetEnv (world s); ContainerSpec_Env c]
    | None => [RC_GetEnv (world s)]
    end in
  mergeIntoMap (withGithubEnv (world s) (mergeIntoMap (stepEnv s) inherited))
    [GetEnv (getStepModel st)].

(** The state in which the body of a step starts, in the state [s] in
    which its condition was found true. *)
Definition started {W} `{Collaborators W} (expr : string) (stage : stepStage)
    (s : State W) : State W :=
  mkState (rc s) (heap s)
    (foldl (λ env '(k, v), <[k := v]> env) (stepEnv s) fileVariables)
    (Copy GetActPath commandFiles (world s)).1
    (evaluated s ++ [(expr, defaultCheck stage)]).

(** *** Inputs of the extra examples *)


(** A strategy whose [max-parallel] is the text [-3]. *)
Definition negativeParallel : Strategy := mkStrategy true 0 "" "-3" NotMapping.

(* ===================================================================== *)
(** ** Exit status *)
(* ===================================================================== *)

Section exit_status.

Lemma neutral_not_failure statusCode : neutral ≠ failure statusCode.
Proof. unfold neutral, failure. simpl. discriminate. Qed.

(** C6, as amended: status 0 yields success (the nil error); status 78
    yields the error [neutral], a non-nil error value that differs from
    the failure error of every status; every other status yields its
    failure error. *)
Theorem exit_status_contract :
  waitContainer (FromStatusCh 0) = None
  ∧ (waitContainer (FromStatusCh 78) = Some neutral
     ∧ ∀ statusCode, Some neutral ≠ (None : option Go.error)
                     ∧ neutral ≠ failure statusCode)
  ∧ ∀ statusCode, statusCode ≠ 0 → statusCode ≠ 78 →
      waitContainer (FromStatusCh statusCode) = Some (failure statusCode).
Proof.
  split; [reflexivity|]. split.
  - split; [reflexivity|]. intros sc. split; [discriminate|].
    apply neutral_not_failure.
  - intros sc H0 H78. unfold waitContainer.
    rewrite !bool_decide_eq_false_2 by assumption. reflexivity.
Qed.

(** C6 as stated fails at status 78: the completion is not a non-error
    one, [waitContainer] returns an error value. *)
Lemma status_78_is_an_error :
  is_Some (waitContainer (FromStatusCh 78))
  ∧ waitContainer (FromStatusCh 78) = Some "exiting with `NEUTRAL`: 78".
Proof. split; [eexists|]; reflexivity. Qed.

End exit_status.


(* ===================================================================== *)
(** ** Strategy options *)
(* ===================================================================== *)

(** C7 at a failing input: with [max-parallel: four] the resolved value
    is 0, not the default 4, and with [fail-fast: yes] it is false, not
    the default true; neither call ends the process. *)
Theorem unparsable_strategy_options (ff : bool) (mp : Z) (raw : matrixNode) :
  GetMaxParallel (mkStrategy ff mp "" "four" raw) = 0
  ∧ GetFailFast (mkStrategy ff mp "yes" "" raw) = false
  ∧ Go.Atoi "four" = (0, Some Go.ErrSyntax)
  ∧ Go.ParseBool "yes" = (false, Some Go.ErrSyntax).
Proof. repeat split; vm_compute; reflexivity. Qed.


(* ===================================================================== *)
(** ** Script naming and composition *)
(* ===================================================================== *)

Lemma string_app_assoc (a b c : string) : (a +:+ b) +:+ c = a +:+ (b +:+ c).
Proof.
  induction a as [|x a IH]; [reflexivity|].
  change (String x ((a +:+ b) +:+ c) = String x (a +:+ (b +:+ c))).
  congruence.
Qed.

Section script.
Context `{ShellCollaborators}.

Fixpoint compositeLoop_ancestors (rcs : RunContext) :
  ∀ scriptName, compositeLoop rcs scriptName = compositeName scriptName (ancestors rcs).
Proof.
  destruct rcs as [r c results [parent|]]; intros scriptName; simpl.
  - apply compositeLoop_ancestors.
  - reflexivity.
Qed.

Lemma getScriptName_ancestors rc step :
  getScriptName rc step = "workflow/" +:+ compositeName (ID step) (ancestors rc).
Proof. unfold getScriptName. by rewrite compositeLoop_ancestors. Qed.

Lemma resolved_context sc :
  SC_RunContext (setupWorkingDirectory (setupShell sc)) = SC_RunContext sc.
Proof. reflexivity. Qed.

(** [setupShellCommand] in terms of the resolved step. *)
Lemma setupShellCommand_unfold sc :
  let step := SC_Step (setupWorkingDirectory (setupShell sc)) in
  let rc := SC_RunContext sc in
  let wrap := shellWrapping (Shell step) in
  let name := getScriptName rc step +:+ wrap.1.1 in
  let split := shellquote_Split
                 (Go.Replace1 (ShellCommand step) "{0}" (ActPath +:+ "/" +:+ name)) in
  setupShellCommand sc =
    (mkStepContext rc step split.1,
     (name,
      wrap.1.2 +:+ LF +:+ ExprEval_Interpolate rc (Run step) +:+ LF +:+ wrap.2,
      split.2)).
Proof.
  intros step rc wrap name split. unfold setupShellCommand.
  rewrite resolved_context. fold rc. fold step. subst wrap name split.
  destruct (shellWrapping (Shell step)) as [[ext pre] post]. simpl.
  destruct (shellquote_Split _) as [cmd err]. reflexivity.
Qed.

(** C9, as amended: for the shell and the step as [setupShellCommand]
    resolved them, [pwsh] and [powershell] give a name ending in [.ps1]
    and a body made of the stop-on-error line, the interpolated text of
    [run] and the line that propagates the last exit code, each on a
    line of its own; [bash] and [sh] give a name ending in [.sh] and a
    body in which the text of [run] stands between an empty first line
    and a final line break.  The name lies in directory [workflow] and
    is the step id with one [-composite-] prefix per enclosing context,
    the outermost first; so [build] inside [outer] is
    [workflow/outer-composite-build]. *)
Theorem script_name_and_body sc sc' name script err :
  setupShellCommand sc = (sc', (name, script, err)) →
  let step := SC_Step sc' in
  let rc := SC_RunContext sc in
  let base := "workflow/" +:+ compositeName (ID step) (ancestors rc) in
  let body := ExprEval_Interpolate rc (Run step) in
  let nl := String "010"%char "" in
  (Shell step ∈ ["pwsh"; "powershell"] →
     name = base +:+ ".ps1" ∧ endsWith name ".ps1"
     ∧ script = "$ErrorActionPreference = 'stop'" +:+ nl +:+ body +:+ nl +:+
         "if ((Test-Path -LiteralPath variable:/LASTEXITCODE)) { exit $LASTEXITCODE }"
     ∧ endsWith script
         (nl +:+
          "if ((Test-Path -LiteralPath variable:/LASTEXITCODE)) { exit $LASTEXITCODE }"))
  ∧ (Shell step ∈ ["bash"; "sh"] →
     name = base +:+ ".sh" ∧ endsWith name ".sh"
     ∧ script = nl +:+ body +:+ nl)
  ∧ (Shell step = "cmd" →
     name = base +:+ ".cmd" ∧ script = "@echo off" +:+ nl +:+ body +:+ nl)
  ∧ (Shell step = "python" →
     name = base +:+ ".py" ∧ script = nl +:+ body +:+ nl)
  ∧ (Shell step ∉ ["bash"; "sh"; "pwsh"; "powershell"; "cmd"; "python"] →
     name = base ∧ script = nl +:+ body +:+ nl)
  ∧ (Parent rc = None → base = "workflow/" +:+ ID step)
  ∧ (∀ parent, Parent rc = Some parent → Parent parent = None →
       base = "workflow/" +:+ CurrentStep parent +:+ "-composite-" +:+ ID step
       ∧ (ID step = "build" → CurrentStep parent = "outer" →
          base = "workflow/outer-composite-build"))
  ∧ (∀ parent outermost,
       Parent rc = Some parent → Parent parent = Some outermost →
       Parent outermost = None →
       base = "workflow/" +:+ CurrentStep outermost +:+ "-composite-" +:+
              CurrentStep parent +:+ "-composite-" +:+ ID step).
Proof.
  rewrite setupShellCommand_unfold. cbv zeta.
  generalize (SC_Step (setupWorkingDirectory (setupShell sc))).
  generalize (SC_RunContext sc). intros rc step.
  rewrite getScriptName_ancestors.
  intros [= <- <- <- <-]. cbn [SC_Step].
  assert (∀ a : string, a +:+ "" = a) as Hnil.
  { intros a. induction a as [|x a IH]; [reflexivity|].
    change (String x (a +:+ "") = String x a). by rewrite IH. }
  split_and!.
  - intros Hshell.
    assert (shellWrapping (Shell step) = (".ps1", stopOnError, propagateExitCode)) as ->.
    { apply elem_of_cons in Hshell as [->|Hshell]; [reflexivity|].
      by apply list_elem_of_singleton in Hshell as ->. }
    cbn [fst snd]. split; [done|]. split; [by eexists|]. split; [done|].
    exists ("$ErrorActionPreference = 'stop'" +:+ LF +:+ ExprEval_Interpolate rc (Run step)).
    by rewrite !string_app_assoc.
  - intros Hshell.
    assert (shellWrapping (Shell step) = (".sh", "", "")) as ->.
    { apply elem_of_cons in Hshell as [->|Hshell]; [reflexivity|].
      by apply list_elem_of_singleton in Hshell as ->. }
    cbn [fst snd]. split; [done|]. split; [by eexists|].
    change ("" +:+ LF +:+ ExprEval_Interpolate rc (Run step) +:+ LF +:+ "")
      with (LF +:+ ExprEval_Interpolate rc (Run step) +:+ LF +:+ "").
    by rewrite Hnil.
  - intros ->. split; [reflexivity|]. cbn [fst snd shellWrapping].
    change (shellWrapping "cmd") with (".cmd", "@echo off", ""). cbn [fst snd].
    by rewrite Hnil.
  - intros ->. split; [reflexivity|].
    change (shellWrapping "python") with (".py", "", ""). cbn [fst snd].
    change ("" +:+ LF +:+ ExprEval_Interpolate rc (Run step) +:+ LF +:+ "")
      with (LF +:+ ExprEval_Interpolate rc (Run step) +:+ LF +:+ "").
    by rewrite Hnil.
  - intros Hshell. rewrite !not_elem_of_cons in Hshell.
    destruct Hshell as (Hbash & Hsh & Hpwsh & Hpowershell & Hcmd & Hpython & _).
    assert (shellWrapping (Shell step) = ("", "", "")) as ->.
    { unfold shellWrapping.
      rewrite (bool_decide_eq_false_2 (Shell step ∈ ["bash"; "sh"])).
      2:{ rewrite !not_elem_of_cons. split_and!; [done|done|apply not_elem_of_nil]. }
      rewrite (bool_decide_eq_false_2 (Shell step ∈ ["pwsh"; "powershell"])).
      2:{ rewrite !not_elem_of_cons. split_and!; [done|done|apply not_elem_of_nil]. }
      by rewrite !bool_decide_eq_false_2. }
    cbn [fst snd]. rewrite Hnil. split; [done|].
    change ("" +:+ LF +:+ ExprEval_Interpolate rc (Run step) +:+ LF +:+ "")
      with (LF +:+ ExprEval_Interpolate rc (Run step) +:+ LF +:+ "").
    by rewrite Hnil.
  - intros Htop. destruct rc as [r c results p]. cbn [Parent] in Htop. by subst p.
  - intros parent Hparent Htop.
    destruct rc as [r c results p]. cbn [Parent] in Hparent. subst p.
    destruct parent as [r' c' results' p']. cbn [CurrentStep Parent] in Htop |- *.
    subst p'. split; [reflexivity|]. intros -> ->. reflexivity.
  - intros parent outermost Hparent Hnext Htop.
    destruct rc as [r c results p]. cbn [Parent] in Hparent. subst p.
    destruct parent as [r' c' results' p']. cbn [CurrentStep Parent] in Hnext |- *.
    subst p'.
    destruct outermost as [r2 c2 results2 p2]. cbn [CurrentStep Parent] in Htop |- *.
    subst p2. reflexivity.
Qed.
End script.

(** C9 as stated fails: the script of the step [build] inside [outer]
    with shell [bash] is named [workflow/outer-composite-build.sh], in
    directory [workflow], and its body is not the text of [run] alone:
    a line break stands before it and another after it. *)
Lemma script_has_directory_and_line_breaks :
  let result := (@setupShellCommand literalShell (compositeBuild "bash")).2 in
  Run (SC_Step (compositeBuild "bash")) = "exit 1"
  ∧ result.1.1 = "workflow/outer-composite-build.sh"
  ∧ result.1.1 ≠ "outer-composite-build.sh"
  ∧ result.1.2 = String "010" ("exit 1" +:+ String "010" "")
  ∧ result.1.2 ≠ "exit 1".
Proof. vm_compute. repeat split; discriminate. Qed.


(* ===================================================================== *)
(** ** Bytes and runes *)
(* ===================================================================== *)

Lemma lor_shifted a b n :
  0 <= n → 0 <= b < 2 ^ n → Z.lor (a * 2 ^ n) b = a * 2 ^ n + b.
Proof.
  intros Hn Hb. rewrite <- (Z.add_lor_land (a * 2 ^ n) b).
  assert (Z.land (a * 2 ^ n) b = 0) as ->; [|lia].
  apply Z.bits_inj'. intros i Hi. rewrite Z.land_spec, Z.bits_0.
  destruct (decide (i < n)).
  - by rewrite Z.mul_pow2_bits_low.
  - rewrite <- (Z.mod_small b (2 ^ n)) by lia.
    rewrite Z.mod_pow2_bits_high by lia. apply andb_false_r.
Qed.

Lemma bytes_of_String c s :
  Go.bytes_of (String c s) = Z.of_N (N_of_ascii c) :: Go.bytes_of s.
Proof. reflexivity. Qed.

Lemma bytes_of_range s : Forall (λ b, 0 <= b < 256) (Go.bytes_of s).
Proof.
  induction s as [|c s IH]; [constructor|].
  rewrite bytes_of_String. constructor; [|done].
  pose proof (N_ascii_bounded c). lia.
Qed.

Lemma bytes_of_of_bytes (l : list Z) :
  Forall (λ b, 0 <= b < 256) l → Go.bytes_of (Go.of_bytes l) = l.
Proof.
  intros Hl. unfold Go.bytes_of, Go.of_bytes.
  rewrite String.list_ascii_of_string_of_list_ascii, <- list_fmap_compose.
  induction Hl as [|b l Hb _ IH]; [done|].
  cbn [fmap list_fmap]. f_equal; [|exact IH].
  simpl. rewrite N_ascii_embedding by lia. lia.
Qed.

(** [utf8.AppendRune] on a scalar value, in arithmetic. *)
Lemma encodeRune_scalar r :
  scalar r →
  Go.encodeRune r =
    if r <? 128 then [r]
    else if r <? 2048 then [192 + r / 64; 128 + r mod 64]
    else if r <? 65536 then
      [224 + r / 4096; 128 + r / 64 mod 64; 128 + r mod 64]
    else [240 + r / 262144; 128 + r / 4096 mod 64; 128 + r / 64 mod 64;
          128 + r mod 64].
Proof.
  unfold scalar, Go.MaxRune. intros [Hr Hs].
  unfold Go.encodeRune, Go.between, Go.MaxRune.
  change 63 with (Z.ones 6). rewrite !Z.land_ones, !Z.shiftr_div_pow2 by lia.
  change (2 ^ 6) with 64. change (2 ^ 12) with 4096. change (2 ^ 18) with 262144.
  assert (∀ x, 0 <= x < 64 → Z.lor 128 x = 128 + x) as Hcont.
  { intros x Hx. apply (lor_shifted 2 x 6); lia. }
  rewrite !Hcont by (apply Z.mod_pos_bound; lia).
  destruct (r <? 128) eqn:H1.
  { rewrite (proj2 (Z.leb_le 0 r)), (proj2 (Z.leb_le r 127)) by lia. done. }
  rewrite (proj2 (Z.leb_gt r 127)), andb_false_r by lia.
  destruct (r <? 2048) eqn:H2.
  { rewrite (proj2 (Z.leb_le 128 r)), (proj2 (Z.leb_le r 2047)) by lia.
    cbn [andb]. f_equal. apply (lor_shifted 3 (r / 64) 6); [lia|].
    split; [apply Z.div_pos; lia | apply Z.div_lt_upper_bound; lia]. }
  rewrite (proj2 (Z.leb_gt r 2047)), andb_false_r by lia.
  rewrite (proj2 (Z.ltb_ge r 0)), (proj2 (Z.ltb_ge 1114111 r)) by lia.
  cbn [orb].
  destruct ((55296 <=? r) && (r <=? 57343)) eqn:Hsur; [lia|].
  destruct (r <? 65536) eqn:H3.
  { rewrite (proj2 (Z.leb_le r 65535)) by lia. f_equal.
    apply (lor_shifted 14 (r / 4096) 4); [lia|].
    split; [apply Z.div_pos; lia | apply Z.div_lt_upper_bound; lia]. }
  rewrite (proj2 (Z.leb_gt r 65535)) by lia. f_equal.
  apply (lor_shifted 30 (r / 262144) 3); [lia|].
  split; [apply Z.div_pos; lia | apply Z.div_lt_upper_bound; lia].
Qed.

Lemma encodeRune_bytes r : scalar r → Forall (λ b, 0 <= b < 256) (Go.encodeRune r).
Proof.
  intros Hr. rewrite (encodeRune_scalar r Hr). destruct Hr as [Hr _].
  unfold Go.MaxRune in Hr.
  repeat case_match; repeat constructor; try lia;
    Z.div_mod_to_equations; lia.
Qed.

(** The encoding is a prefix code on the scalar values. *)
Lemma encodeRune_prefix r1 r2 l1 l2 :
  scalar r1 → scalar r2 →
  Go.encodeRune r1 ++ l1 = Go.encodeRune r2 ++ l2 → r1 = r2 ∧ l1 = l2.
Proof.
  intros H1 H2. rewrite (encodeRune_scalar r1 H1), (encodeRune_scalar r2 H2).
  destruct H1 as [H1 _], H2 as [H2 _]. unfold Go.MaxRune in H1, H2.
  repeat case_match; cbn [app]; intros Heq;
    repeat match goal with H : _ :: _ = _ :: _ |- _ => injection H as ? ? end;
    try (exfalso; Z.div_mod_to_equations; lia);
    (split; [Z.div_mod_to_equations; lia | by subst]).
Qed.

(** A [range] loop over a string yields scalar values only. *)
Lemma decodeRunes_scalar (l : list Z) :
  Forall (λ b, 0 <= b < 256) l → Forall scalar (Go.decodeRunes l).*1.
Proof.
  assert (scalar Go.RuneError) as Herror.
  { unfold scalar, Go.RuneError, Go.MaxRune. lia. }
  remember (length l) as n eqn:Hn. revert l Hn.
  induction n as [n IH] using lt_wf_ind. intros l Hn Hl.
  assert (∀ t, (length t < n)%nat → Forall (λ b, 0 <= b < 256) t →
               Forall scalar (Go.decodeRunes t).*1) as Hrec.
  { intros t Ht. by apply (IH (length t)). }
  destruct l as [|b0 t0]; [constructor|].
  apply Forall_cons in Hl as [Hb0 Ht0]. cbn [length] in Hn.
  assert (Forall scalar ((Go.RuneError, [b0]) :: Go.decodeRunes t0).*1) as Hbad.
  { cbn [fmap list_fmap fst]. constructor; [done|]. apply Hrec; [lia|done]. }
  cbn [Go.decodeRunes]. destruct (b0 <? 128) eqn:Hlt.
  { cbn [fmap list_fmap fst]. constructor; [|apply Hrec; [lia|done]].
    unfold scalar, Go.MaxRune. lia. }
  destruct t0 as [|b1 t1]; [exact Hbad|].
  pose proof Ht0 as Ht0'. apply Forall_cons in Ht0' as [Hb1 Ht1]. cbn [length] in Hn.
  unfold Go.accepts2, Go.cont, Go.between.
  change 31 with (Z.ones 5). change 63 with (Z.ones 6).
  change 15 with (Z.ones 4). change 7 with (Z.ones 3).
  rewrite !Z.shiftl_mul_pow2, !Z.land_ones by lia.
  destruct ((194 <=? b0) && (b0 <=? 223)) eqn:H2.
  { destruct ((128 <=? b1) && (b1 <=? 191)) eqn:Hc1; [|exact Hbad].
    cbn [fmap list_fmap fst]. constructor; [|apply Hrec; [lia|done]].
    rewrite lor_shifted by (try apply Z.mod_pos_bound; lia).
    unfold scalar, Go.MaxRune. Z.div_mod_to_equations. lia. }
  destruct (negb _) eqn:Haccept; [exact Hbad|].
  apply negb_false_iff, andb_true_iff in Haccept as [Hrange Haccept].
  destruct t1 as [|b2 t2]; [exact Hbad|].
  pose proof Ht1 as Ht1'. apply Forall_cons in Ht1' as [Hb2 Ht2]. cbn [length] in Hn.
  rewrite ?Z.shiftl_mul_pow2, ?Z.land_ones by lia.
  destruct (negb ((128 <=? b2) && (b2 <=? 191))) eqn:Hc2; [exact Hbad|].
  apply negb_false_iff in Hc2.
  destruct (b0 <? 240) eqn:H3.
  { cbn [fmap list_fmap fst]. constructor; [|apply Hrec; [lia|done]].
    rewrite (lor_shifted (b1 mod 2 ^ 6) (b2 mod 2 ^ 6) 6)
      by (try apply Z.mod_pos_bound; lia).
    rewrite (lor_shifted (b0 mod 2 ^ 4) _ 12).
    2: lia.
    2:{ pose proof (Z.mod_pos_bound b1 (2 ^ 6)). pose proof (Z.mod_pos_bound b2 (2 ^ 6)).
        lia. }
    unfold scalar, Go.MaxRune.
    repeat case_bool_decide; Z.div_mod_to_equations; lia. }
  destruct t2 as [|b3 t3]; [exact Hbad|].
  pose proof Ht2 as Ht2'. apply Forall_cons in Ht2' as [Hb3 Ht3]. cbn [length] in Hn.
  rewrite ?Z.shiftl_mul_pow2, ?Z.land_ones by lia.
  destruct ((128 <=? b3) && (b3 <=? 191)) eqn:Hc3; [|exact Hbad].
  cbn [fmap list_fmap fst]. constructor; [|apply Hrec; [lia|done]].
  rewrite (lor_shifted (b2 mod 2 ^ 6) (b3 mod 2 ^ 6) 6)
    by (try apply Z.mod_pos_bound; lia).
  rewrite (lor_shifted (b1 mod 2 ^ 6) _ 12).
  2: lia.
  2:{ pose proof (Z.mod_pos_bound b2 (2 ^ 6)). pose proof (Z.mod_pos_bound b3 (2 ^ 6)).
      lia. }
  rewrite (lor_shifted (b0 mod 2 ^ 3) _ 18).
  2: lia.
  2:{ pose proof (Z.mod_pos_bound b1 (2 ^ 6)). pose proof (Z.mod_pos_bound b2 (2 ^ 6)).
      pose proof (Z.mod_pos_bound b3 (2 ^ 6)). lia. }
  unfold scalar, Go.MaxRune.
  repeat case_bool_decide; Z.div_mod_to_equations; lia.
Qed.


(* ===================================================================== *)
(** ** Case-insensitive merge of environments *)
(* ===================================================================== *)

Section merge.
Context `{UnicodeTables} `{MapRange}.

Lemma writesTo_snoc name ws k v :
  writesTo name (ws ++ [(k, v)]) =
    writesTo name ws ++ (if decide (foldKey k = name) then [(k, v)] else []).
Proof.
  unfold writesTo. rewrite filter_app. f_equal.
Qed.

Lemma firstSpelling_fold name ws k :
  firstSpelling name ws = Some k → foldKey k = name.
Proof.
  unfold firstSpelling, writesTo. intros Hk.
  destruct (filter _ ws) as [|[k0 v0] l] eqn:E; simplify_eq/=.
  assert ((k, v0) ∈ filter (λ kv, foldKey kv.1 = name) ws) as Hin
    by (rewrite E; left).
  by apply list_elem_of_filter in Hin as [? _].
Qed.

(** The state of the merge loop after the writes [ws], starting with
    an empty look-up table. *)
Lemma merge_loop_state target ws lookUp' target' :
  foldl mergeEntry (∅, target) ws = (lookUp', target') →
  (∀ name, lookUp' !! name = firstSpelling name ws)
  ∧ ∀ k, target' !! k =
      if decide (firstSpelling (foldKey k) ws = Some k)
      then lastValue (foldKey k) ws
      else target !! k.
Proof.
  revert lookUp' target'.
  induction ws as [|[k' v'] ws IH] using rev_ind; intros lookUp' target'.
  - intros [= <- <-]. split; [intros; by rewrite lookup_empty|].
    intros k. by destruct (decide _).
  - rewrite foldl_app. simpl.
    destruct (foldl mergeEntry (∅, target) ws) as [lookUp0 target0] eqn:E.
    destruct (IH _ _ eq_refl) as [IHl IHt]. clear IH.
    unfold mergeEntry. unfold firstSpelling, lastValue in *.
    destruct (lookUp0 !! foldKey k') as [m|] eqn:Hm; intros [= <- <-].
    + rewrite IHl in Hm.
      pose proof (firstSpelling_fold _ _ _ Hm) as Hfm.
      split.
      * intros name. rewrite IHl, writesTo_snoc.
        destruct (decide (foldKey k' = name)) as [<-|]; [|by rewrite app_nil_r].
        unfold firstSpelling in Hm.
        destruct (writesTo (foldKey k') ws); simplify_eq/=; reflexivity.
      * intros k. rewrite !writesTo_snoc.
        destruct (decide (m = k)) as [<-|Hne].
        -- rewrite lookup_insert_eq, Hfm.
           rewrite (decide_True (P := foldKey k' = foldKey k')) by done.
           rewrite last_snoc.
           destruct (writesTo (foldKey k') ws) eqn:Ew; simplify_eq/=.
           by rewrite decide_True.
        -- rewrite lookup_insert_ne by done. rewrite IHt.
           destruct (decide (foldKey k' = foldKey k)) as [Heq|Hneq];
             [|by rewrite !app_nil_r].
           rewrite <- Heq. unfold firstSpelling in Hm.
           destruct (writesTo (foldKey k') ws) eqn:Ew; simplify_eq/=.
           rewrite !decide_False by congruence. done.
    + rewrite IHl in Hm.
      assert (writesTo (foldKey k') ws = []) as Hnil.
      { unfold firstSpelling in Hm. by destruct (writesTo (foldKey k') ws). }
      split.
      * intros name. rewrite writesTo_snoc.
        destruct (decide (foldKey k' = name)) as [<-|Hne].
        -- rewrite lookup_insert_eq, Hnil. done.
        -- rewrite lookup_insert_ne by done. by rewrite IHl, app_nil_r.
      * intros k. rewrite !writesTo_snoc.
        destruct (decide (k' = k)) as [<-|Hne].
        -- rewrite lookup_insert_eq, Hnil.
           rewrite (decide_True (P := foldKey k' = foldKey k')) by done.
           simpl. by rewrite decide_True.
        -- rewrite lookup_insert_ne by done. rewrite IHt.
           destruct (decide (foldKey k' = foldKey k)) as [Heq|Hneq];
             [|by rewrite !app_nil_r].
           rewrite <- Heq, Hnil. simpl.
           rewrite !decide_False by congruence. done.
Qed.

Lemma mergeSingle_foldl lookUp target m :
  mergeSingleMapIntoMapCaseInsensitive lookUp target m =
    foldl mergeEntry (lookUp, target) (range m).
Proof. reflexivity. Qed.

Lemma merge_maps_foldl st maps :
  foldl (λ '(lookUp, target) m, mergeSingleMapIntoMapCaseInsensitive lookUp target m)
    st maps
  = foldl mergeEntry st (concat (range <$> maps)).
Proof.
  revert st. induction maps as [|m maps IH]; intros [lookUp target]; [done|].
  simpl. rewrite foldl_app, IH. done.
Qed.

Lemma mergeIntoMapCaseInsensitive_writes target maps :
  mergeIntoMapCaseInsensitive target maps =
    (foldl mergeEntry (∅, target) (writes target maps)).2.
Proof.
  unfold mergeIntoMapCaseInsensitive, writes.
  rewrite mergeSingle_foldl, foldl_app.
  destruct (foldl mergeEntry (∅, target) (range target)) as [lookUp target1].
  by rewrite merge_maps_foldl.
Qed.

Lemma merge_lookup target maps k :
  mergeIntoMapCaseInsensitive target maps !! k =
    if decide (firstSpelling (foldKey k) (writes target maps) = Some k)
    then lastValue (foldKey k) (writes target maps)
    else target !! k.
Proof.
  rewrite mergeIntoMapCaseInsensitive_writes.
  destruct (foldl mergeEntry (∅, target) (writes target maps)) as [l t] eqn:E.
  by destruct (merge_loop_state _ _ _ _ E) as [_ ->].
Qed.
End merge.

Section merge_claim.
Context `{UnicodeTables} `{MapRange}.

Lemma foldRune_top r : SimpleFold r <= r → foldRune r = r.
Proof.
  intros Hle. rewrite foldRune_equation_1.
  destruct (Z_le_dec (SimpleFold r) r); [reflexivity | lia].
Qed.

Lemma foldRune_climb r : r < SimpleFold r → foldRune r = foldRune (SimpleFold r).
Proof.
  intros Hlt. rewrite foldRune_equation_1.
  destruct (Z_le_dec (SimpleFold r) r); [lia | reflexivity].
Qed.

Lemma range_empty {A} : range (∅ : gmap string A) = [].
Proof.
  apply Permutation_nil_r. rewrite range_perm. by rewrite map_to_list_empty.
Qed.

Lemma range_singleton {A} k (v : A) : range ({[k := v]} : gmap string A) = [(k, v)].
Proof.
  apply Permutation_singleton_r. rewrite range_perm.
  by rewrite map_to_list_singleton.
Qed.

(** Where the tables hold the ASCII rows, a letter other than [K], [k],
    [S], [s] folds to its lower-case form. *)
Lemma foldRune_upper r :
  asciiRows → 65 <= r <= 90 → r ≠ 75 → r ≠ 83 → foldRune r = r + 32.
Proof.
  intros Hrows Hr H75 H83.
  assert (SimpleFold r = r + 32) as Hup.
  { rewrite Hrows by lia. unfold asciiSimpleFold, Go.between.
    repeat case_bool_decide; try lia.
    rewrite andb_true_intro; [done | split; lia]. }
  assert (SimpleFold (r + 32) = r) as Hdown.
  { rewrite Hrows by lia. unfold asciiSimpleFold, Go.between.
    repeat case_bool_decide; try lia.
    rewrite (andb_false_intro2 (65 <=? r + 32)) by lia.
    rewrite andb_true_intro; [lia | split; lia]. }
  rewrite foldRune_climb by lia. rewrite Hup.
  apply foldRune_top. lia.
Qed.

Lemma foldRune_lower r :
  asciiRows → 97 <= r <= 122 → r ≠ 107 → r ≠ 115 → foldRune r = r.
Proof.
  intros Hrows Hr H107 H115. apply foldRune_top.
  rewrite Hrows by lia. unfold asciiSimpleFold, Go.between.
  repeat case_bool_decide; try lia.
  rewrite (andb_false_intro2 (65 <=? r)) by lia.
  rewrite andb_true_intro; [lia | split; lia].
Qed.

Lemma foldKey_Path : asciiRows → foldKey "Path" = "path".
Proof.
  intros Hrows. unfold foldKey, Go.Map.
  change (Go.decodeRunes (Go.bytes_of "Path"))
    with [(80, [80]); (97, [97]); (116, [116]); (104, [104])].
  cbn [fmap list_fmap].
  rewrite (foldRune_upper 80), !foldRune_lower by (done || lia).
  reflexivity.
Qed.

Lemma foldKey_PATH : asciiRows → foldKey "PATH" = "path".
Proof.
  intros Hrows. unfold foldKey, Go.Map.
  change (Go.decodeRunes (Go.bytes_of "PATH"))
    with [(80, [80]); (65, [65]); (84, [84]); (72, [72])].
  cbn [fmap list_fmap].
  rewrite !foldRune_upper by (done || lia).
  reflexivity.
Qed.

(** The closure of [strings.Map] stops on a rune equivalent to the one
    it started from, at which [SimpleFold] wraps around. *)
Lemma foldRune_orbit (E : relation Z) r :
  simpleFolding E → E r (foldRune r) ∧ SimpleFold (foldRune r) <= foldRune r.
Proof.
  intros (Hequiv & _ & Hfold).
  remember (Z.to_nat (Go.MaxRune - r)) as n eqn:Hn. revert r Hn.
  induction n as [n IH] using lt_wf_ind. intros r Hn.
  destruct (Z_le_dec (SimpleFold r) r) as [Hle|Hgt].
  - rewrite foldRune_top by done. split; [reflexivity | done].
  - rewrite foldRune_climb by lia.
    pose proof (SimpleFold_range r) as Hrange.
    destruct (IH (Z.to_nat (Go.MaxRune - SimpleFold r)) ltac:(lia)
                (SimpleFold r) eq_refl) as [Hstep Hwrap].
    split; [|done]. etrans; [apply Hfold | exact Hstep].
Qed.

(** Two runes have the same image under the closure exactly when they
    are equivalent under simple case folding: the image is the largest
    of the equivalent runes. *)
Lemma foldRune_equivalent (E : relation Z) r1 r2 :
  simpleFolding E → foldRune r1 = foldRune r2 ↔ E r1 r2.
Proof.
  intros Hfolding. pose proof Hfolding as (Hequiv & _ & Hfold).
  destruct (foldRune_orbit E r1 Hfolding) as [H1 Hw1].
  destruct (foldRune_orbit E r2 Hfolding) as [H2 Hw2].
  split.
  - intros Heq. etrans; [exact H1|]. rewrite Heq. by symmetry.
  - intros H12.
    destruct (Hfold (foldRune r1)) as (_ & _ & Hmax1).
    destruct (Hfold (foldRune r2)) as (_ & _ & Hmax2).
    assert (E (foldRune r1) (foldRune r2)) as Hboth
      by (etrans; [symmetry; exact H1|]; etrans; [exact H12 | exact H2]).
    pose proof (Hmax1 Hw1 _ Hboth). pose proof (Hmax2 Hw2 _ (symmetry Hboth)). lia.
Qed.

Lemma concat_encodeRune_inj (l1 l2 : list Z) :
  Forall scalar l1 → Forall scalar l2 →
  concat (Go.encodeRune <$> l1) = concat (Go.encodeRune <$> l2) → l1 = l2.
Proof.
  intros Hl1. revert l2. induction Hl1 as [|r1 l1 Hr1 _ IH]; intros l2 Hl2.
  - destruct Hl2 as [|r2 l2 Hr2 _]; [done|].
    cbn [fmap list_fmap concat]. rewrite (encodeRune_scalar r2 Hr2).
    by repeat case_match.
  - destruct Hl2 as [|r2 l2 Hr2 Hl2].
    + cbn [fmap list_fmap concat]. rewrite (encodeRune_scalar r1 Hr1).
      by repeat case_match.
    + cbn [fmap list_fmap concat]. intros Heq.
      apply encodeRune_prefix in Heq as [-> Heq]; [|done|done].
      f_equal. by apply IH.
Qed.

(** The folded key, as the encoding of the images of its runes. *)
Lemma foldKey_runes (E : relation Z) k :
  simpleFolding E →
  Forall scalar (foldRune <$> runes k)
  ∧ foldKey k = Go.of_bytes (concat (Go.encodeRune <$> (foldRune <$> runes k))).
Proof.
  intros Hfolding. pose proof Hfolding as (_ & Hscalar & _).
  assert (Forall scalar (foldRune <$> runes k)) as Hall.
  { apply Forall_fmap. unfold runes.
    eapply Forall_impl; [apply decodeRunes_scalar, bytes_of_range|].
    intros r Hr. cbn. eapply Hscalar; [|exact Hr].
    by apply foldRune_orbit. }
  split; [done|]. unfold foldKey, Go.Map, runes in *. f_equal. f_equal.
  induction (Go.decodeRunes (Go.bytes_of k)) as [|[r w] l IH]; [done|].
  cbn [fmap list_fmap fst] in *. apply Forall_cons in Hall as [[Hr _] Hall].
  rewrite IH by done. f_equal.
  destruct (foldRune r <? 0) eqn:Hneg; [lia|done].
Qed.

Lemma foldKey_equivalent (E : relation Z) k1 k2 :
  simpleFolding E → foldKey k1 = foldKey k2 ↔ Forall2 E (runes k1) (runes k2).
Proof.
  intros Hfolding.
  destruct (foldKey_runes E k1 Hfolding) as [Hs1 ->].
  destruct (foldKey_runes E k2 Hfolding) as [Hs2 ->].
  assert (∀ l, Forall scalar l →
            Forall (λ b, 0 <= b < 256) (concat (Go.encodeRune <$> l))) as Hbytes.
  { intros l Hl. induction Hl as [|r l Hr _ IH]; [constructor|].
    cbn [fmap list_fmap concat]. apply Forall_app. split; [|done].
    by apply encodeRune_bytes. }
  assert (foldRune <$> runes k1 = foldRune <$> runes k2
          ↔ Forall2 E (runes k1) (runes k2)) as <-.
  { generalize (runes k1) (runes k2). intros l1. induction l1 as [|r1 l1 IH];
      intros [|r2 l2]; cbn [fmap list_fmap].
    - split; [constructor|done].
    - split; [done|]. intros Hall. inversion Hall.
    - split; [done|]. intros Hall. inversion Hall.
    - split.
      + intros [= Hr Hl]. constructor; [|by apply IH].
        by apply (foldRune_equivalent E).
      + intros Hall. apply Forall2_cons in Hall as [Hr Hl].
        f_equal; [by apply (foldRune_equivalent E) | by apply IH]. }
  split.
  - intros Heq. apply (f_equal Go.bytes_of) in Heq.
    rewrite !bytes_of_of_bytes in Heq by (by apply Hbytes).
    by apply concat_encodeRune_inj.
  - by intros ->.
Qed.

Lemma foldKey_HOME : asciiRows → foldKey "HOME" = "home".
Proof.
  intros Hrows. unfold foldKey, Go.Map.
  change (Go.decodeRunes (Go.bytes_of "HOME"))
    with [(72, [72]); (79, [79]); (77, [77]); (69, [69])].
  cbn [fmap list_fmap].
  rewrite !foldRune_upper by (done || lia).
  reflexivity.
Qed.

(** C8: in a case-insensitive merge the logical name of a key is its
    image under [foldKey]; the spelling of the first write to a logical
    name is the key under which every later write to that name is
    stored, and a later spelling creates no key of its own.  Two keys
    have the same logical name exactly when their runes are, one by
    one, equivalent under simple case folding, whatever the tables, as
    long as they fold as package [unicode] documents.  With tables
    that hold the ASCII rows, writing [Path=1] and then [PATH=2] leaves
    the single key [Path] with value [2], and a write to [HOME] before
    them keeps a key of its own. *)
Theorem first_seen_casing_is_kept :
  (∀ target maps before k v after,
     writes target maps = before ++ (k, v) :: after →
     Forall (λ kv, foldKey kv.1 ≠ foldKey k) before →
     let result := mergeIntoMapCaseInsensitive target maps in
     result !! k = lastValue (foldKey k) ((k, v) :: after)
     ∧ is_Some (result !! k)
     ∧ ∀ k', foldKey k' = foldKey k → k' ≠ k → result !! k' = target !! k')
  ∧ (∀ E : relation Z, simpleFolding E →
     ∀ k1 k2, foldKey k1 = foldKey k2 ↔ Forall2 E (runes k1) (runes k2))
  ∧ (asciiRows →
     mergeIntoMapCaseInsensitive ∅ [ {["Path" := "1"]}; {["PATH" := "2"]} ]
     = {["Path" := "2"]})
  ∧ (asciiRows →
     mergeIntoMapCaseInsensitive ∅
       [ {["HOME" := "/root"]}; {["Path" := "1"]}; {["PATH" := "2"]} ]
     = {["HOME" := "/root"; "Path" := "2"]}).
Proof.
  split; [|split; [|split]].
  - intros target maps before k v after Hws Hfirst result.
    assert (writesTo (foldKey k) before = []) as Hbefore.
    { unfold writesTo. clear Hws. induction Hfirst as [|kv l Hkv _ IH]; [done|].
      rewrite filter_cons. destruct (decide _); [done | exact IH]. }
    assert (writesTo (foldKey k) (writes target maps)
            = (k, v) :: writesTo (foldKey k) after) as Hto.
    { rewrite Hws. unfold writesTo in *. rewrite filter_app, Hbefore.
      rewrite filter_cons. by rewrite decide_True. }
    assert (firstSpelling (foldKey k) (writes target maps) = Some k) as Hk.
    { unfold firstSpelling. by rewrite Hto. }
    assert (result !! k = lastValue (foldKey k) ((k, v) :: after)) as Hres.
    { subst result. rewrite merge_lookup, decide_True by done.
      unfold lastValue. rewrite Hto. unfold writesTo.
      rewrite filter_cons. by rewrite decide_True. }
    split; [done|]. split.
    + rewrite Hres. unfold lastValue, writesTo.
      rewrite filter_cons, decide_True by done.
      destruct (filter _ after) as [|x l] using rev_ind; [by eexists|].
      rewrite app_comm_cons, last_snoc. by eexists.
    + intros k' Hfold Hne. subst result.
      rewrite merge_lookup, Hfold, Hk. rewrite decide_False; [done|congruence].
  - intros E Hfolding k1 k2. by apply foldKey_equivalent.
  - intros Hrows. apply map_eq. intros k.
    rewrite merge_lookup. unfold writes. simpl.
    rewrite range_empty, !range_singleton. simpl.
    unfold firstSpelling, lastValue, writesTo.
    rewrite !filter_cons, filter_nil. simpl.
    rewrite foldKey_Path, foldKey_PATH by done.
    destruct (decide ("path" = foldKey k)) as [Hk|Hk]; simpl.
    + destruct (decide (k = "Path")) as [->|Hne].
      * by rewrite lookup_singleton_eq.
      * rewrite lookup_singleton_ne by done.
        case_decide; [congruence | apply lookup_empty].
    + rewrite lookup_singleton_ne; [done|].
      intros <-. by rewrite foldKey_Path in Hk.
  - intros Hrows. apply map_eq. intros k.
    rewrite merge_lookup. unfold writes. simpl.
    rewrite range_empty, !range_singleton. simpl.
    unfold firstSpelling, lastValue, writesTo.
    rewrite !filter_cons, filter_nil. simpl.
    rewrite foldKey_HOME, foldKey_Path, foldKey_PATH by done.
    destruct (decide (k = "HOME")) as [->|Hhome].
    { rewrite foldKey_HOME by done. reflexivity. }
    destruct (decide (k = "Path")) as [->|Hpath].
    { rewrite foldKey_Path by done. reflexivity. }
    rewrite lookup_insert_ne, lookup_singleton_ne by done.
    destruct (decide ("home" = foldKey k)); destruct (decide ("path" = foldKey k));
      simpl; try case_decide; try congruence; apply lookup_empty.
Qed.
End merge_claim.

(** The rows of [asciiTables] fold the letters as package [unicode]
    documents. *)
Lemma asciiTables_simpleFolding : @simpleFolding asciiTables sameLetter.
Proof.
  split; [|split].
  - split.
    + by intros r.
    + by intros r r' Hr.
    + intros r1 r2 r3. unfold sameLetter. congruence.
  - intros r r'. unfold sameLetter, asciiLower, scalar, Go.between, Go.MaxRune.
    repeat case_bool_decide; repeat case_match; lia.
  - intros r. cbn [SimpleFold asciiTables].
    unfold sameLetter, asciiLower, asciiSimpleFold, Go.between.
    split; [|split].
    + repeat case_bool_decide; repeat case_match; lia.
    + intros Hlt r'. repeat case_bool_decide; repeat case_match; lia.
    + intros Hle r'. repeat case_bool_decide; repeat case_match; lia.
Qed.


(* ===================================================================== *)
(** ** Matrix expansion *)
(* ===================================================================== *)

Section matrix.
Context `{MapRange}.

Lemma elem_of_range {A} (m : gmap string A) k v :
  (k, v) ∈ range m ↔ m !! k = Some v.
Proof. rewrite range_perm. apply elem_of_map_to_list. Qed.

Lemma elem_of_keys (i : gmap string value) k : k ∈ keys i ↔ is_Some (i !! k).
Proof.
  unfold keys. rewrite list_elem_of_fmap. split.
  - intros [[k' v] [-> Hin]]. apply elem_of_range in Hin. by eexists.
  - intros [v Hv]. exists (k, v). split; [done|]. by apply elem_of_range.
Qed.

Lemma length_keys (i : gmap string value) : length (keys i) = size i.
Proof.
  unfold keys. rewrite length_fmap, range_perm. apply length_map_to_list.
Qed.

Lemma commonKeysMatch_spec a b : commonKeysMatch a b = true ↔ partialMatch a b.
Proof.
  unfold commonKeysMatch, partialMatch.
  rewrite forallb_forall. split.
  - intros Hall k x y Ha Hb.
    assert (In (k, x) (range a)) as Hin
      by (apply list_elem_of_In; by apply elem_of_range).
    specialize (Hall _ Hin). simpl in Hall. rewrite Hb in Hall.
    unfold DeepEqual in Hall. by apply bool_decide_eq_true in Hall.
  - intros Hagree [k x] Hin. apply list_elem_of_In, elem_of_range in Hin.
    destruct (b !! k) as [y|] eqn:Hb; [|done].
    unfold DeepEqual. apply bool_decide_eq_true. eauto.
Qed.

Lemma includeKeys_list m i ks includes :
  includeKeys m i ks includes =
    includes ++ (if existsb (hasKey m) ks then [i] else []).
Proof.
  induction ks as [|k ks IH]; simpl; [by rewrite app_nil_r|].
  destruct (hasKey m k); [done | apply IH].
Qed.

Lemma includeKeys_spec m i includes :
  includeKeys m i (keys i) includes = includes ++ filter (namesKeyOf m) [i].
Proof.
  rewrite includeKeys_list. f_equal.
  destruct (existsb (hasKey m) (keys i)) eqn:E.
  - rewrite filter_cons_True; [done|].
    apply existsb_exists in E as [k [Hin Hk]].
    apply list_elem_of_In, elem_of_keys in Hin as [v Hv].
    exists k, v. split; [done|]. by apply bool_decide_eq_true in Hk.
  - rewrite filter_cons_False; [done|].
    intros (k & v & Hv & Hk).
    assert (existsb (hasKey m) (keys i) = true) as Habs; [|congruence].
    apply existsb_exists. exists k. split.
    + apply list_elem_of_In, elem_of_keys. by eexists.
    + by apply bool_decide_eq_true.
Qed.

Lemma includeSeq_spec m t includes :
  Forall isMap t →
  includeSeq m t includes = Ok (includes ++ filter (namesKeyOf m) (t ≫= mapsOf)).
Proof.
  intros Ht. revert includes.
  induction Ht as [|v t Hv Ht IH]; intros includes; simpl.
  - by rewrite app_nil_r.
  - destruct v; try done. simpl.
    rewrite IH, includeKeys_spec, <- app_assoc. f_equal. f_equal.
    symmetry. apply (filter_app _ [_]).
Qed.

Lemma includeLoop_spec m vs includes :
  Forall wellTypedInclude vs →
  includeLoop m vs includes = Ok (includes ++ filter (namesKeyOf m) (vs ≫= entriesOf)).
Proof.
  intros Hvs. revert includes.
  induction Hvs as [|v vs Hv Hvs IH]; intros includes.
  - simpl. by rewrite app_nil_r.
  - rewrite bind_cons, filter_app.
    destruct v; try done.
    + simpl. apply IH.
    + simpl in Hv. cbn [includeLoop]. rewrite includeSeq_spec by done.
      cbn. rewrite IH, <- app_assoc. done.
    + cbn. rewrite IH, includeKeys_spec, <- app_assoc. done.
Qed.

Lemma excludeKeys_ok m e ks excludes :
  Forall (λ k, is_Some (m !! k)) ks →
  excludeKeys m e ks excludes = Ok (excludes ++ replicate (length ks) e).
Proof.
  intros Hks. revert excludes.
  induction Hks as [|k ks Hk Hks IH]; intros excludes; simpl.
  - by rewrite app_nil_r.
  - unfold hasKey. rewrite bool_decide_eq_true_2 by done.
    rewrite IH, <- app_assoc. done.
Qed.


Lemma appended_cons e es :
  appended (VMap e :: es) = replicate (size e) e ++ appended es.
Proof. unfold appended. rewrite bind_cons. cbn. by rewrite app_nil_r. Qed.

Lemma excludeLoop_ok m es excludes :
  Forall isMap es →
  Forall (namesOnlyKeysOf m) (es ≫= mapsOf) →
  excludeLoop m es excludes = Ok (excludes ++ appended es).
Proof.
  intros Hes. revert excludes.
  induction Hes as [|v es Hv Hes IH]; intros excludes Hkeys.
  - simpl. by rewrite app_nil_r.
  - destruct v; try done. rewrite bind_cons in Hkeys. simpl in Hkeys.
    apply Forall_cons in Hkeys as [Hm Hkeys].
    cbn. rewrite excludeKeys_ok.
    + cbn. rewrite IH by done. rewrite appended_cons, length_keys, <- app_assoc. done.
    + apply Forall_forall. intros k Hk. apply elem_of_keys in Hk as [x Hx].
      by apply (Hm k x).
Qed.


Lemma matrixLoop_spec matrixProduct excludes matrixes :
  matrixLoop matrixProduct excludes matrixes =
    matrixes ++ filter (λ t, ¬ Exists (partialMatch t) excludes) matrixProduct.
Proof.
  revert matrixes.
  induction matrixProduct as [|t rest IH]; intros matrixes; simpl.
  - by rewrite app_nil_r.
  - destruct (existsb (commonKeysMatch t) excludes) eqn:E.
    + rewrite IH, filter_cons_False; [done|].
      intros Hno. apply Hno. apply existsb_exists in E as [e [Hin He]].
      apply Exists_exists. exists e. split; [by apply list_elem_of_In|].
      by apply commonKeysMatch_spec.
    + rewrite IH, filter_cons_True, <- app_assoc; [done|].
      intros Hex. apply Exists_exists in Hex as [e [Hin He]].
      assert (existsb (commonKeysMatch t) excludes = true) as Habs; [|congruence].
      apply existsb_exists. exists e. split; [by apply list_elem_of_In|].
      by apply commonKeysMatch_spec.
Qed.

Lemma Exists_appended es (P : gmap string value → Prop) :
  Exists P (appended es) ↔ Exists (λ e, e ≠ ∅ ∧ P e) (es ≫= mapsOf).
Proof.
  rewrite !Exists_exists. unfold appended. split.
  - intros (e & Hin & HP). apply list_elem_of_bind in Hin as (v & Hin & Hv).
    apply list_elem_of_bind in Hin as (e' & Hin & He').
    apply elem_of_replicate in Hin as [-> Hsize].
    exists e'. split; [apply list_elem_of_bind; eauto|]. split; [|done].
    intros ->. by rewrite map_size_empty in Hsize.
  - intros (e & Hin & Hne & HP). apply list_elem_of_bind in Hin as (v & Hin & Hv).
    exists e. split; [|done]. apply list_elem_of_bind. exists v. split; [|done].
    apply list_elem_of_bind. exists e. split; [|done].
    apply elem_of_replicate. split; [done|].
    by intros ?%map_size_empty_inv.
Qed.

(** The expansion of a matrix whose [include] and [exclude] items have
    the expected shape and whose exclude entries name known keys. *)
Lemma expandMatrix_ok m :
  Forall wellTypedInclude (index m "include") →
  Forall isMap (excludeItems m) →
  Forall (namesOnlyKeysOf (delete "include" m)) (excludeEntries m) →
  expandMatrix m =
    Ok (filter (λ t, ¬ excludedBy (excludeEntries m) t) (CartesianProduct (axes m))
        ++ filter (namesKeyOf m) (includeEntries m)).
Proof.
  intros Hinc Hex Hkeys. unfold expandMatrix.
  rewrite includeLoop_spec by done. cbn.
  fold (excludeItems m). rewrite excludeLoop_ok by done. cbn.
  rewrite matrixLoop_spec. cbn. f_equal. f_equal.
  apply list_filter_iff. intros t. unfold excludedBy.
  by rewrite Exists_appended.
Qed.

End matrix.

Section product.
Context `{MapRange}.

Lemma length_cartesian l :
  length (cartesian l) = foldr Nat.mul 1%nat ((λ kv, length kv.2) <$> l).
Proof.
  induction l as [|[k vs] l IH]; [done|]. cbn [cartesian fmap list_fmap foldr snd].
  rewrite <- IH. generalize (cartesian l). intros ts.
  induction ts as [|t ts IHts]; cbn; [lia|].
  rewrite length_app, length_fmap. cbn in IHts. rewrite IHts. lia.
Qed.

Lemma elem_of_cartesian l t :
  NoDup l.*1 →
  t ∈ cartesian l ↔
    dom t = list_to_set l.*1 ∧ ∀ k vs, (k, vs) ∈ l → ∃ v, v ∈ vs ∧ t !! k = Some v.
Proof.
  revert t. induction l as [|[k vs] l IH]; intros t Hnd.
  - cbn. rewrite list_elem_of_singleton. split.
    + intros ->. split; [by rewrite dom_empty_L|]. intros ?? Hin. inversion Hin.
    + intros [Hdom _]. by apply dom_empty_inv_L.
  - cbn [cartesian]. apply NoDup_cons in Hnd as [Hk Hnd]. rewrite list_elem_of_bind.
    split.
    + intros (t' & Hin & Ht'). apply list_elem_of_fmap in Hin as (v & -> & Hv).
      apply IH in Ht' as [Hdom Hall]; [|done]. split.
      * cbn. rewrite dom_insert_L, Hdom. done.
      * intros k' vs' [[= -> ->]|Hin]%elem_of_cons.
        -- exists v. split; [done|]. apply lookup_insert_eq.
        -- destruct (Hall _ _ Hin) as (v' & Hv' & Ht').
           exists v'. split; [done|]. rewrite lookup_insert_ne; [done|].
           intros ->. apply Hk. apply list_elem_of_fmap. by exists (k', vs').
    + intros [Hdom Hall]. destruct (Hall k vs) as (v & Hv & Htv); [by left|].
      exists (delete k t). split.
      * apply list_elem_of_fmap. exists v. split; [|done].
        by rewrite insert_delete_id.
      * apply IH; [done|]. split.
        -- rewrite dom_delete_L, Hdom. cbn.
           assert (k ∉ (list_to_set l.*1 : gset string)) as Hnotin
             by (by rewrite elem_of_list_to_set).
           apply set_eq. intros x.
           rewrite elem_of_difference, elem_of_union, !elem_of_singleton.
           split; [intros [[->|Hx] Hne]; done|].
           intros Hx. split; [by right|]. by intros ->.
        -- intros k' vs' Hin. destruct (Hall k' vs') as (v' & Hv' & Ht'); [by right|].
           exists v'. split; [done|]. rewrite lookup_delete_ne; [done|].
           intros ->. apply Hk. apply list_elem_of_fmap. by exists (k', vs').
Qed.

Lemma elem_of_CartesianProduct m t :
  t ∈ CartesianProduct m ↔
    dom t = dom m ∧ ∀ k vs, m !! k = Some vs → ∃ v, v ∈ vs ∧ t !! k = Some v.
Proof.
  unfold CartesianProduct. rewrite elem_of_cartesian by apply NoDup_fst_map_to_list.
  assert ((list_to_set (map_to_list m).*1 : gset string) = dom m) as ->.
  { apply set_eq. intros k. rewrite elem_of_list_to_set, elem_of_dom.
    rewrite list_elem_of_fmap. split.
    - intros [[k' vs] [-> Hin]]. apply elem_of_map_to_list in Hin. by eexists.
    - intros [vs Hvs]. exists (k, vs). split; [done|]. by apply elem_of_map_to_list. }
  by setoid_rewrite elem_of_map_to_list.
Qed.

Lemma GetMatrixes_mapping j s m :
  Job_Strategy j = Some s → RawMatrix s = MappingNode m →
  (GetMatrixes j).2 = expandMatrix m.
Proof. intros Hs Hm. unfold GetMatrixes. rewrite Hs. cbn. unfold Matrix. cbn. by rewrite Hm. Qed.

Lemma exampleMatrix_expansion :
  expandMatrix exampleMatrix = Ok [binding "b" 1; binding "a" 2; binding "b" 2].
Proof.
  rewrite expandMatrix_ok.
  - vm_compute. reflexivity.
  - apply (bool_decide_unpack _). vm_compute. exact I.
  - apply (bool_decide_unpack _). vm_compute. exact I.
  - apply (bool_decide_unpack _). vm_compute. exact I.
Qed.
End product.

Section matrix_claims.
Context `{MapRange}.

(** C5: before the exclusion filter the expansion is the cartesian
    product of the axes (the matrix without [include] and [exclude]):
    it has as many entries as the product of the axes' cardinalities,
    and its entries are the bindings that give every axis one of its
    values; without a strategy or without a matrix the expansion is one
    empty binding; the axes os:[a,b], version:[1,2] with the exclude
    entry os:a, version:1 expand to the three remaining bindings. *)
Theorem matrix_expansion_is_the_product :
  (∀ m,
     length (CartesianProduct (axes m)) = cardinality (axes m)
     ∧ ∀ t, t ∈ CartesianProduct (axes m) ↔
         dom t = dom (axes m)
         ∧ ∀ k vs, axes m !! k = Some vs → ∃ v, v ∈ vs ∧ t !! k = Some v)
  ∧ (∀ j, Job_Strategy j = None → (GetMatrixes j).2 = Ok [∅])
  ∧ (∀ j s, Job_Strategy j = Some s → RawMatrix s = NotMapping →
       (GetMatrixes j).2 = Ok [∅])
  ∧ (GetMatrixes (jobWithMatrix (MappingNode exampleMatrix))).2
    = Ok [binding "b" 1; binding "a" 2; binding "b" 2].
Proof.
  split; [|split; [|split]].
  - intros m. split.
    + apply length_cartesian.
    + intros t. apply elem_of_CartesianProduct.
  - intros j Hj. unfold GetMatrixes. by rewrite Hj.
  - intros j s Hj Hs. unfold GetMatrixes. rewrite Hj. cbn. unfold Matrix. cbn.
    by rewrite Hs.
  - rewrite (GetMatrixes_mapping _ _ exampleMatrix) by done.
    apply exampleMatrix_expansion.
Qed.


(** C3, as amended: when the matrix expands (its include and exclude
    items are mappings and the exclude entries name only keys of the
    matrix), the result is the filtered product followed by the
    include entries that have at least one key of the matrix, in
    order; such an entry is in the result whether or not an exclude
    entry matches it, and the other include entries are not
    appended. *)
Theorem include_entries_are_appended j s m :
  Job_Strategy j = Some s → RawMatrix s = MappingNode m →
  Forall wellTypedInclude (index m "include") →
  Forall isMap (excludeItems m) →
  Forall (namesOnlyKeysOf (delete "include" m)) (excludeEntries m) →
  ∃ matrixes result,
    (GetMatrixes j).2 = Ok result
    ∧ result = matrixes ++ filter (namesKeyOf m) (includeEntries m)
    ∧ (∀ t, t ∈ matrixes → t ∈ CartesianProduct (axes m))
    ∧ ∀ i, i ∈ includeEntries m → namesKeyOf m i → i ∈ result.
Proof.
  intros Hj Hs Hinc Hex Hkeys. rewrite (GetMatrixes_mapping j s m) by done.
  eexists _, _. split; [by apply expandMatrix_ok|]. split; [done|]. split.
  - intros t Ht. by apply list_elem_of_filter in Ht as [_ Ht].
  - intros i Hi Hnames. apply elem_of_app. right. by apply list_elem_of_filter.
Qed.
End matrix_claims.

(** C3 as stated fails: the include entry foo:bar names no key of the
    matrix and is not in the result. *)
Lemma include_without_matrix_key_is_skipped :
  (@GetMatrixes canonicalRange (jobWithMatrix (MappingNode unknownInclude))).2
    = Ok [ {[ "os" := VStr "a" ]} ]
  ∧ index unknownInclude "include" = [VMap {[ "foo" := VStr "bar" ]}]
  ∧ ({[ "foo" := VStr "bar" ]} : gmap string value) ∉ [ ({[ "os" := VStr "a" ]} : gmap string value) ].
Proof.
  split; [vm_compute; reflexivity|]. split; [vm_compute; reflexivity|].
  apply (bool_decide_unpack _). vm_compute. exact I.
Qed.



(* ===================================================================== *)
(** ** The step life cycle *)
(* ===================================================================== *)

#[global] Instance sameTable_preorder {W} : PreOrder (@sameTable W).
Proof.
  split; unfold sameTable; [done|].
  intros s1 s2 s3 [??] [??]. split; congruence.
Qed.

#[global] Instance sameRecords_preorder {W} : PreOrder (@sameRecords W).
Proof.
  split; unfold sameRecords; [done|].
  intros s1 s2 s3 (?&?&?) (?&?&?). repeat split; congruence.
Qed.

#[global] Instance sameOthers_preorder {W} p : PreOrder (@sameOthers W p).
Proof.
  split.
  - by intros s q Hq.
  - intros s1 s2 s3 H12 H23 q Hq. by rewrite (H23 q Hq), (H12 q Hq).
Qed.

Section keeps.
Context {W : Type} (I : relation (State W)) `{!PreOrder I}.

Lemma keeps_ret {A} (a : A) : keeps I (mret a : M W A).
Proof. intros s s' r [= <- <-]. reflexivity. Qed.

Lemma keeps_Return {A} r : keeps I (Return r : M W A).
Proof. intros s s' r' [= <- <-]. reflexivity. Qed.

Lemma keeps_bind {A B} (m : M W A) (f : A → M W B) :
  keeps I m → (∀ a, keeps I (f a)) → keeps I (m ≫= f).
Proof.
  intros Hm Hf s s' r. unfold mbind, M_bind.
  destruct (m s) as [s1 [a|r1]] eqn:E.
  - intros Hfa. etrans; [by eapply Hm | by eapply Hf].
  - intros [= <- <-]. by eapply Hm.
Qed.

Lemma keeps_modify (f : State W → State W) :
  (∀ s, I s (f s)) → keeps I (modify f).
Proof. intros Hf s s' r [= <- <-]. apply Hf. Qed.

Lemma keeps_gets {A} (f : State W → A) : keeps I (gets f).
Proof. intros s s' r [= <- <-]. reflexivity. Qed.

Lemma keeps_onWorld {A} (f : W → W * A) :
  (∀ s w, I s (mkState (rc s) (heap s) (stepEnv s) w (evaluated s))) →
  keeps I (onWorld f).
Proof.
  intros Hw s s' r. unfold onWorld. destruct (f (world s)) as [w a].
  intros [= <- <-]. apply Hw.
Qed.

Lemma keeps_foldl {A} (f : State W → A → State W) (l : list A) :
  (∀ s a, I s (f s a)) → ∀ s, I s (foldl f s l).
Proof.
  intros Hf. induction l as [|a l IH]; intros s; simpl; [reflexivity|].
  etrans; [apply Hf | apply IH].
Qed.
End keeps.

(** One step of a proof that a body keeps a relation: the shape of the
    body decides. *)
Ltac keeps_step :=
  lazymatch goal with
  | |- keeps _ (mret _) => apply keeps_ret; try apply _
  | |- keeps _ (Return _) => apply keeps_Return; try apply _
  | |- keeps _ (gets _) => apply keeps_gets; try apply _
  | |- keeps _ (_ ≫= _) => apply keeps_bind; try apply _; [| intros ?]
  | |- keeps _ (modify _) => apply keeps_modify; try apply _; intros ?
  | |- keeps _ (onWorld _) => apply keeps_onWorld; try apply _; intros ? ?
  | |- keeps _ (match ?x with _ => _ end) => destruct x
  end.


Section lifecycle.
Context {W : Type} `{Collaborators W} `{UnicodeTables} `{MapRange}.

Lemma statuses_alter_outputs (f : gmap string string → gmap string string) p h :
  statuses (alter (λ r, mkStepResult (Outcome r) (Conclusion r) (f (Outputs r))) p h)
  = statuses h.
Proof.
  unfold statuses. revert p. induction h as [|r h IH]; intros [|p]; try done.
  cbn. f_equal. apply IH.
Qed.

Lemma rc_setOutput_sameRecords name v (s : State W) :
  sameRecords s (rc_setOutput name v s).
Proof.
  unfold rc_setOutput. destruct (_ !! _); [|reflexivity].
  unfold setOutputAt, sameRecords. cbn.
  split; [done|]. split; [|done].
  apply (statuses_alter_outputs (λ o, <[name := v]> o)).
Qed.

Lemma keeps_processRunnerEnvFileCommand I `{!PreOrder I} fileName setter :
  (∀ s w, I s (mkState (rc s) (heap s) (stepEnv s) w (evaluated s))) →
  (∀ k v s, I s (setter k v s)) →
  keeps I (processRunnerEnvFileCommand fileName setter).
Proof.
  intros Hw Hset. unfold processRunnerEnvFileCommand.
  keeps_step; [keeps_step; apply Hw|]. repeat keeps_step.
  apply (keeps_foldl I (λ s '(k, v), setter k v s)). intros s' [k v]. apply Hset.
Qed.

(** Processing the runner file commands changes no outcome, no
    conclusion, no entry of the table, and evaluates nothing. *)
Lemma processRunnerFileCommands_sameRecords :
  keeps sameRecords processRunnerFileCommands.
Proof.
  assert (∀ (s : State W) w,
    sameRecords s (mkState (rc s) (heap s) (stepEnv s) w (evaluated s))) as Hw by done.
  unfold processRunnerFileCommands.
  repeat first
    [ apply keeps_processRunnerEnvFileCommand; try apply _; [exact Hw | intros ???]
    | keeps_step ];
    try done; apply rc_setOutput_sameRecords.
Qed.

Lemma sameRecords_sameTable (s s' : State W) : sameRecords s s' → sameTable s s'.
Proof.
  intros (Hrc & Hst & _). split; [done|].
  apply (f_equal length) in Hst. unfold statuses in Hst.
  by rewrite !length_fmap in Hst.
Qed.

Lemma keeps_callEvalBool I `{!PreOrder I} expr d :
  (∀ s l, I s (mkState (rc s) (heap s) (stepEnv s) (world s) l)) →
  keeps I (callEvalBool expr d).
Proof. intros HI s s' r [= <- <-]. apply HI. Qed.

Lemma keeps_isStepEnabled I `{!PreOrder I} expr step stage :
  (∀ s l, I s (mkState (rc s) (heap s) (stepEnv s) (world s) l)) →
  keeps I (isStepEnabled expr step stage).
Proof.
  intros HI. unfold isStepEnabled. keeps_step; [by apply keeps_callEvalBool|].
  repeat keeps_step.
Qed.

Lemma keeps_isContinueOnError I `{!PreOrder I} expr step stage :
  (∀ s l, I s (mkState (rc s) (heap s) (stepEnv s) (world s) l)) →
  keeps I (isContinueOnError expr step stage).
Proof.
  intros HI. unfold isContinueOnError. case_bool_decide; [keeps_step|].
  keeps_step; [by apply keeps_callEvalBool|]. repeat keeps_step.
Qed.

Lemma sameTable_setHeap_alter f p (s : State W) :
  sameTable s (setHeap (alter f p (heap s)) s).
Proof. split; [done|]. cbn. apply length_alter. Qed.

Lemma keeps_setOutcome p v : keeps sameTable (setOutcome p v : M W ()).
Proof. unfold setOutcome. keeps_step. apply sameTable_setHeap_alter. Qed.

Lemma keeps_setConclusion p v : keeps sameTable (setConclusion p v : M W ()).
Proof. unfold setConclusion. keeps_step. apply sameTable_setHeap_alter. Qed.

(** After [install], nothing touches the table of step results. *)
Lemma keeps_invoke step stage executor p :
  keeps sameTable (invoke step stage executor p).
Proof.
  unfold invoke.
  repeat first
    [ apply keeps_setOutcome | apply keeps_setConclusion
    | apply keeps_isContinueOnError; try apply _; [done]
    | keeps_step ]; done.
Qed.

Lemma keeps_processRunnerFileCommands :
  keeps sameTable processRunnerFileCommands.
Proof.
  intros s s' r Hr. apply sameRecords_sameTable.
  by eapply processRunnerFileCommands_sameRecords.
Qed.
End lifecycle.

Section lifecycle_claims.
Context {W : Type} `{Collaborators W} `{UnicodeTables} `{MapRange}.

Lemma bind_run {A B} (m : M W A) (f : A → M W B) s :
  (m ≫= f) s =
    match m s with
    | (s', inl a) => f a s'
    | (s', inr r) => (s', inr r)
    end.
Proof. reflexivity. Qed.

Lemma install_result step stage s :
  install step stage s = (installed step stage s, inl (length (heap s))).
Proof.
  unfold installed, install. unfold setupEnv, mergeEnv, interpolateEnv.
  destruct (decide (stage = stepStageMain)); reflexivity.
Qed.

Lemma installed_rc step stage s :
  rc (installed step stage s) =
    mkRunContext (RC_Run (rc s)) (ID (getStepModel step))
      (if decide (stage = stepStageMain)
       then <[ID (getStepModel step) := length (heap s)]> (StepResults (rc s))
       else StepResults (rc s))
      (Parent (rc s)).
Proof.
  unfold installed, install, setupEnv, mergeEnv, interpolateEnv.
  destruct (decide (stage = stepStageMain)); reflexivity.
Qed.

Lemma installed_heap step stage s :
  heap (installed step stage s) =
    heap s ++ [mkStepResult StepStatusSuccess StepStatusSuccess ∅].
Proof.
  unfold installed, install, setupEnv, mergeEnv, interpolateEnv.
  destruct (decide (stage = stepStageMain)); reflexivity.
Qed.

Lemma installed_length step stage s :
  length (heap (installed step stage s)) = S (length (heap s)).
Proof. rewrite installed_heap, length_app. simpl. lia. Qed.

Lemma keeps_prepare step stage p : keeps sameTable (prepare step stage p).
Proof.
  unfold prepare.
  repeat first
    [ apply keeps_setOutcome | apply keeps_setConclusion
    | apply keeps_isStepEnabled; try apply _; [done]
    | keeps_step ]; done.
Qed.

Lemma run_keeps (I : relation (State W)) (m : M W (option error)) s :
  keeps I m → I s (run m s).1.
Proof.
  intros Hm. unfold run. destruct (m s) as [s' [r|r]] eqn:E; by eapply Hm.
Qed.

(** The part of [runStepExecutor] that follows [install]. *)
Lemma runStepExecutor_installed step stage executor s :
  runStepExecutor step stage executor s =
    run (prepare step stage (length (heap s));;
         err ← invoke step stage executor (length (heap s));
         processRunnerFileCommands;;
         match err with
         | Some _ => Return err
         | None => mret None
         end)
      (installed step stage s).
Proof.
  unfold runStepExecutor, run. rewrite bind_run, install_result. reflexivity.
Qed.

Lemma keeps_after_install step stage executor p :
  keeps sameTable
    (prepare step stage p;;
     err ← invoke step stage executor p;
     processRunnerFileCommands;;
     match err with
     | Some _ => Return err
     | None => mret None
     end : M W (option error)).
Proof.
  repeat first
    [ apply keeps_prepare | apply keeps_invoke | apply keeps_processRunnerFileCommands
    | keeps_step ].
Qed.

Lemma lookup_installed step stage s :
  heap (installed step stage s) !! length (heap s)
  = Some (mkStepResult StepStatusSuccess StepStatusSuccess ∅).
Proof. rewrite installed_heap. by rewrite lookup_app_r, Nat.sub_diag by lia. Qed.

Ltac exec :=
  cbv beta iota zeta delta
    [mbind M_bind mret M_ret Return modify gets setConclusion setOutcome run].

(** C10: an invocation writes the table of step results in the main
    stage only, where it puts the new step result under the step's id;
    pre and post invocations leave the table as it is.  The step
    result exists whatever the condition gives: marked skipped when it
    evaluates false (the invocation succeeds), marked failure when its
    evaluation fails (the invocation returns that error). *)
Theorem step_result_entries (st : step) stage executor s0 :
  let result := runStepExecutor st stage executor s0 in
  let stepResult := length (heap s0) in
  let id := ID (getStepModel st) in
  let condition :=
    EvalBool (installed st stage s0) (getIfExpression st stage) (defaultCheck stage) in
  (stage = stepStageMain →
     StepResults (rc result.1) = <[id := stepResult]> (StepResults (rc s0))
     ∧ StepResults (rc result.1) !! id = Some stepResult
     ∧ is_Some (heap result.1 !! stepResult))
  ∧ (stage ≠ stepStageMain → StepResults (rc result.1) = StepResults (rc s0))
  ∧ (condition = (false, None) →
     result.2 = None
     ∧ heap result.1 !! stepResult
       = Some (mkStepResult StepStatusSkipped StepStatusSkipped ∅))
  ∧ (∀ b err, condition = (b, Some err) →
     result.2 = Some (ifError (getIfExpression st stage) err)
     ∧ heap result.1 !! stepResult
       = Some (mkStepResult StepStatusFailure StepStatusFailure ∅)).
Proof.
  intros result stepResult id condition.
  assert (sameTable (installed st stage s0) result.1) as [Hrc Hlen].
  { subst result. rewrite runStepExecutor_installed.
    apply run_keeps, keeps_after_install. }
  split; [|split; [|split]].
  - intros ->. rewrite Hrc, installed_rc. cbn. rewrite decide_True by done.
    split; [done|]. split; [apply lookup_insert_eq|].
    apply lookup_lt_is_Some. rewrite Hlen, installed_length. subst stepResult. lia.
  - intros Hstage. rewrite Hrc, installed_rc. cbn. by rewrite decide_False.
  - subst result condition. intros Hcond.
    rewrite runStepExecutor_installed. unfold prepare, isStepEnabled, callEvalBool.
    exec. fold (defaultCheck stage). rewrite Hcond. exec. cbn.
    split; [done|]. rewrite !list_lookup_alter, lookup_installed.
    subst stepResult. by rewrite !decide_True by done.
  - subst result condition. intros b err Hcond.
    rewrite runStepExecutor_installed. unfold prepare, isStepEnabled, callEvalBool.
    exec. fold (defaultCheck stage). rewrite Hcond. exec. cbn.
    split; [done|]. rewrite !list_lookup_alter, lookup_installed.
    subst stepResult. by rewrite !decide_True by done.
Qed.

Lemma processRunnerEnvFileCommand_value fileName setter s s' r :
  processRunnerEnvFileCommand fileName setter s = (s', r) → ∃ err, r = inl err.
Proof.
  unfold processRunnerEnvFileCommand, onWorld. exec.
  destruct (UpdateFromEnv _ _) as [w [env [err|]]]; intros [= <- <-]; by eexists.
Qed.

(** Processing returns early only with an error. *)
Lemma processRunnerFileCommands_returns s s' perr :
  processRunnerFileCommands s = (s', inr perr) → is_Some perr.
Proof.
  unfold processRunnerFileCommands. rewrite !bind_run.
  destruct (processRunnerEnvFileCommand envFileCommand rc_setEnv s)
    as [s1 r1] eqn:E1.
  destruct (processRunnerEnvFileCommand_value _ _ _ _ _ E1) as [[e1|] ->];
    [intros [= <- <-]; by eexists|].
  exec.
  destruct (processRunnerEnvFileCommand stateFileCommand rc_saveState s1)
    as [s2 r2] eqn:E2.
  destruct (processRunnerEnvFileCommand_value _ _ _ _ _ E2) as [[e2|] ->];
    [intros [= <- <-]; by eexists|].
  destruct (processRunnerEnvFileCommand outputFileCommand rc_setOutput s2)
    as [s3 r3] eqn:E3.
  destruct (processRunnerEnvFileCommand_value _ _ _ _ _ E3) as [[e3|] ->];
    [intros [= <- <-]; by eexists|].
  unfold onWorld. destruct (UpdateExtraPath _ _) as [w [e4|]];
    [intros [= <- <-]; by eexists | intros [=]].
Qed.

(** When [invoke] goes on with an error, it is the error of the body. *)
Lemma invoke_error (st : step) stage executor p s1 s2 e :
  invoke st stage executor p s1 = (s2, inl (Some e)) →
  (executor (world s1)).2 = Some e.
Proof.
  unfold invoke, isContinueOnError, callEvalBool, onWorld. exec.
  destruct (executor (world s1)) as [w [e'|]]; [|intros [=]].
  case_bool_decide.
  - by intros [= _ ->].
  - destruct (EvalBool _ _ _) as [[|] [err|]]; intros [=]. by subst.
Qed.

(** A file command that cannot be read ends the processing with its
    error; the later files are not read. *)
Lemma env_file_unreadable s w env perr :
  UpdateFromEnv (Go.path_Join GetActPath envFileCommand) (world s)
    = (w, (env, Some perr)) →
  processRunnerFileCommands s
    = (mkState (rc s) (heap s) (stepEnv s) w (evaluated s), inr (Some perr)).
Proof.
  intros Hread. unfold processRunnerFileCommands. rewrite bind_run.
  unfold processRunnerEnvFileCommand at 1. rewrite bind_run.
  unfold onWorld at 1. by rewrite Hread.
Qed.

(** C1, as amended: when the body has returned an error that
    [continue-on-error] does not suppress, the runner file commands are
    processed; the invocation returns the body's error when the
    processing succeeds, and the error of the processing when it fails
    (so, when the env file cannot be read, that error and nothing
    else). *)
Theorem body_error_and_file_commands (st : step) stage executor s0 s1 s2 e :
  prepare st stage (length (heap s0)) (installed st stage s0) = (s1, inl ()) →
  invoke st stage executor (length (heap s0)) s1 = (s2, inl (Some e)) →
  (executor (world s1)).2 = Some e
  ∧ (∀ s3 r, processRunnerFileCommands s2 = (s3, r) →
       runStepExecutor st stage executor s0
       = (s3, match r with inl _ => Some e | inr perr => perr end)
       ∧ ∀ perr, r = inr perr → is_Some perr)
  ∧ ∀ w env perr,
      UpdateFromEnv (Go.path_Join GetActPath envFileCommand) (world s2)
        = (w, (env, Some perr)) →
      runStepExecutor st stage executor s0
      = (mkState (rc s2) (heap s2) (stepEnv s2) w (evaluated s2), Some perr).
Proof.
  intros Hprep Hinv. split; [by eapply invoke_error|].
  assert (∀ s3 r, processRunnerFileCommands s2 = (s3, r) →
    runStepExecutor st stage executor s0
    = (s3, match r with inl _ => Some e | inr perr => perr end)) as Hrun.
  { intros s3 r Hproc. rewrite runStepExecutor_installed. unfold run.
    rewrite bind_run, Hprep, bind_run, Hinv, bind_run, Hproc.
    by destruct r as [[]|perr]. }
  split.
  - intros s3 r Hproc. split; [by apply Hrun|].
    intros perr ->. by eapply processRunnerFileCommands_returns.
  - intros w env perr Hread.
    by rewrite (Hrun _ _ (env_file_unreadable _ _ _ _ Hread)).
Qed.

Lemma sameOthers_alter f p (s : State W) :
  sameOthers p s (setHeap (alter f p (heap s)) s).
Proof.
  intros q Hq. cbn [heap setHeap]. unfold statuses.
  by rewrite !list_lookup_fmap, list_lookup_alter_ne.
Qed.

Lemma sameOthers_setHeap p (s : State W) :
  (∀ l, sameOthers p s (mkState (rc s) (heap s) (stepEnv s) (world s) l))
  ∧ (∀ w, sameOthers p s (mkState (rc s) (heap s) (stepEnv s) w (evaluated s)))
  ∧ (∀ env, sameOthers p s (setStepEnv env s)).
Proof. by split_and!; intros ? q Hq. Qed.

Lemma keeps_others_after_install (st : step) stage executor p :
  keeps (sameOthers p)
    (prepare st stage p;;
     err ← invoke st stage executor p;
     processRunnerFileCommands;;
     match err with
     | Some _ => Return err
     | None => mret None
     end : M W (option error)).
Proof.
  assert (keeps (sameOthers p) processRunnerFileCommands) as Hproc.
  { intros s s' r Hr q Hq.
    destruct (processRunnerFileCommands_sameRecords s s' r Hr) as (_ & -> & _).
    done. }
  unfold prepare, invoke, setOutcome, setConclusion.
  repeat first
    [ apply Hproc
    | apply keeps_isStepEnabled; try apply _; [intros ??; apply sameOthers_setHeap]
    | apply keeps_isContinueOnError; try apply _;
      [intros ??; apply sameOthers_setHeap]
    | keeps_step ];
    first [ apply sameOthers_alter | apply sameOthers_setHeap | done ].
Qed.

(** An invocation changes the outcome and the conclusion of no step
    result but the one it allocates. *)
Lemma runStepExecutor_others (st : step) stage executor s0 q :
  q ≠ length (heap s0) →
  statuses (heap (runStepExecutor st stage executor s0).1) !! q
  = statuses (heap s0) !! q.
Proof.
  intros Hq.
  assert (sameOthers (length (heap s0)) (installed st stage s0)
            (runStepExecutor st stage executor s0).1) as Hothers.
  { rewrite runStepExecutor_installed.
    apply run_keeps, keeps_others_after_install. }
  etrans; [exact (Hothers q Hq)|]. rewrite installed_heap.
  unfold statuses.
  rewrite fmap_app. cbn [fmap list_fmap].
  destruct (decide (q < length (heap s0))%nat) as [Hlt|Hge].
  - rewrite lookup_app_l; [done|]. by rewrite length_fmap.
  - rewrite !lookup_ge_None_2; [done|rewrite length_fmap; lia|].
    rewrite length_app, length_fmap. simpl. lia.
Qed.

Lemma statuses_lookup_alter f p (h : list StepResult) :
  statuses (alter f p h) !! p
  = (λ r, (Outcome (f r), Conclusion (f r))) <$> h !! p.
Proof.
  unfold statuses. rewrite list_lookup_fmap, list_lookup_alter.
  rewrite decide_True by done. by destruct (h !! p).
Qed.

Lemma prepared_lookup (st : step) stage s0 s1 r :
  prepare st stage (length (heap s0)) (installed st stage s0) = (s1, r) →
  is_Some (heap s1 !! length (heap s0)).
Proof.
  intros Hprep. apply keeps_prepare in Hprep as [_ Hlen].
  apply lookup_lt_is_Some. rewrite Hlen, installed_length. lia.
Qed.

(** [invoke] when the body fails, by what [isContinueOnError] gives. *)
Lemma invoke_failed (st : step) stage executor p s1 w e :
  executor (world s1) = (w, Some e) →
  invoke st stage executor p s1 =
    match isContinueOnError (RawContinueOnError (getStepModel st)) st stage
            (bodyFailed p w s1) with
    | (s, inl (_, Some perr)) =>
        ((setConclusion p StepStatusFailure s).1, inr (Some perr))
    | (s, inl (true, None)) => ((setConclusion p StepStatusSuccess s).1, inl None)
    | (s, inl (false, None)) =>
        ((setConclusion p StepStatusFailure s).1, inl (Some e))
    | (s, inr r) => (s, inr r)
    end.
Proof.
  intros Hbody. unfold invoke. rewrite bind_run. unfold onWorld at 1.
  rewrite Hbody. cbn beta iota zeta. rewrite bind_run.
  unfold setOutcome at 1, modify at 1. cbn beta iota. rewrite bind_run.
  change (setHeap _ _) with (bodyFailed p w s1).
  destruct (isContinueOnError _ _ _ (bodyFailed p w s1)) as [s [[b [perr|]]|r]];
    try reflexivity; by destruct b.
Qed.

(** C2, as amended: when the body fails, a blank [continue-on-error]
    counts as false and nothing is evaluated for it; an expression that
    evaluates true removes the body's error, so that the invocation
    returns what the processing of the runner file commands returns
    (success when it succeeds), and the step result of the invocation
    gets outcome failure and conclusion success; an expression that
    does not evaluate makes the invocation return that error at once,
    before any file command is processed.  The step result of the
    invocation is the one recorded for the step in the main stage only:
    in the pre and post stages no entry of the table points to it, and
    what is recorded for every step stays as it was. *)
Theorem continue_on_error_policy (st : step) stage executor s0 s1 w e :
  prepare st stage (length (heap s0)) (installed st stage s0) = (s1, inl ()) →
  executor (world s1) = (w, Some e) →
  let p := length (heap s0) in
  let expr := RawContinueOnError (getStepModel st) in
  let s2 := bodyFailed p w s1 in
  let result := runStepExecutor st stage executor s0 in
  let status := statuses (heap result.1) !! p in
  (Go.len (Go.TrimSpace expr) = 0 →
     isContinueOnError expr st stage s2 = (s2, inl (false, None))
     ∧ evaluated result.1 = evaluated s1
     ∧ status = Some (StepStatusFailure, StepStatusFailure)
     ∧ is_Some result.2
     ∧ ∃ s3, invoke st stage executor p s1 = (s3, inl (Some e)))
  ∧ (Go.len (Go.TrimSpace expr) ≠ 0 →
     EvalBool s2 expr DefaultStatusCheckNone = (true, None) →
     status = Some (StepStatusFailure, StepStatusSuccess)
     ∧ ∃ s3, invoke st stage executor p s1 = (s3, inl None)
       ∧ ∀ s4 r, processRunnerFileCommands s3 = (s4, r) →
           result = (s4, match r with inl _ => None | inr perr => perr end))
  ∧ (Go.len (Go.TrimSpace expr) ≠ 0 →
     ∀ b err, EvalBool s2 expr DefaultStatusCheckNone = (b, Some err) →
       result = (result.1, Some (continueOnErrorError expr err))
       ∧ status = Some (StepStatusFailure, StepStatusFailure)
       ∧ world result.1 = w)
  ∧ (stage = stepStageMain →
     StepResults (rc result.1) !! ID (getStepModel st) = Some p
     ∧ recorded result.1 (ID (getStepModel st)) = status)
  ∧ (stage ≠ stepStageMain →
     StepResults (rc result.1) = StepResults (rc s0)
     ∧ ∀ id, StepResults (rc s0) !! id ≠ Some p →
         recorded result.1 id = recorded s0 id).
Proof.
  intros Hprep Hbody p expr s2 result status.
  assert (StepResults (rc result.1)
          = if decide (stage = stepStageMain)
            then <[ID (getStepModel st) := p]> (StepResults (rc s0))
            else StepResults (rc s0)) as Htable.
  { assert (sameTable (installed st stage s0) result.1) as [-> _].
    { subst result. rewrite runStepExecutor_installed.
      apply run_keeps, keeps_after_install. }
    by rewrite installed_rc. }
  assert (∀ q, q ≠ p → statuses (heap result.1) !! q = statuses (heap s0) !! q)
    as Hothers by (intros q Hq; by apply runStepExecutor_others).
  destruct (prepared_lookup _ _ _ _ _ Hprep) as [r0 Hr0]. fold p in Hr0, Hprep.
  assert (∀ s3 oerr,
    invoke st stage executor p s1 = (s3, inl oerr) →
    ∃ s4 r, processRunnerFileCommands s3 = (s4, r)
      ∧ result = (s4, match r with
                      | inl _ => oerr
                      | inr perr => perr
                      end)
      ∧ statuses (heap s4) = statuses (heap s3)
      ∧ evaluated s4 = evaluated s3) as Hrest.
  { intros s3 oerr Hinv.
    destruct (processRunnerFileCommands s3) as [s4 r] eqn:Hproc.
    exists s4, r. split; [done|].
    pose proof (processRunnerFileCommands_sameRecords _ _ _ Hproc) as (_ & Hst & Hev).
    split; [|done]. subst result. rewrite runStepExecutor_installed. unfold run.
    fold p. rewrite bind_run, Hprep, bind_run, Hinv, bind_run, Hproc.
    destruct r as [[]|perr]; [|done]. by destruct oerr. }
  split; [|split; [|split; [|split]]].
  - intros Hblank.
    assert (isContinueOnError expr st stage s2 = (s2, inl (false, None))) as Hcoe.
    { unfold isContinueOnError. by rewrite bool_decide_eq_true_2. }
    split; [done|].
    assert (invoke st stage executor p s1
            = ((setConclusion p StepStatusFailure s2).1, inl (Some e))) as Hinv.
    { rewrite (invoke_failed _ _ _ _ _ _ _ Hbody). fold expr. fold s2. by rewrite Hcoe. }
    destruct (Hrest _ _ Hinv) as (s4 & r & Hproc & Hres & Hst & Hev).
    subst status. rewrite Hres. cbn [fst snd]. rewrite Hev, Hst.
    split; [done|]. split.
    + cbn. rewrite statuses_lookup_alter, list_lookup_alter, decide_True by done.
      by rewrite Hr0.
    + split; [|by eexists]. destruct r as [[]|perr]; [by eexists|].
      by eapply processRunnerFileCommands_returns.
  - intros Hexpr Heval.
    assert (isContinueOnError expr st stage s2
            = (mkState (rc s2) (heap s2) (stepEnv s2) (world s2)
                 (evaluated s2 ++ [(expr, DefaultStatusCheckNone)]),
               inl (true, None))) as Hcoe.
    { unfold isContinueOnError, callEvalBool. rewrite bool_decide_eq_false_2 by done.
      exec. by rewrite Heval. }
    eassert (invoke st stage executor p s1 = (_, inl None)) as Hinv.
    { rewrite (invoke_failed _ _ _ _ _ _ _ Hbody). fold expr. fold s2. rewrite Hcoe.
      reflexivity. }
    destruct (Hrest _ _ Hinv) as (s4 & r & Hproc & Hres & Hst & Hev).
    split.
    + subst status. rewrite Hres. cbn [fst snd]. rewrite Hst. cbn.
      rewrite statuses_lookup_alter, list_lookup_alter, decide_True by done.
      by rewrite Hr0.
    + eexists. split; [exact Hinv|]. intros s4' r' Hproc'.
      rewrite Hproc in Hproc'. injection Hproc' as <- <-. exact Hres.
  - intros Hexpr b err Heval.
    assert (result
            = ((setConclusion p StepStatusFailure
                  (mkState (rc s2) (heap s2) (stepEnv s2) (world s2)
                     (evaluated s2 ++ [(expr, DefaultStatusCheckNone)]))).1,
               Some (continueOnErrorError expr err))) as ->.
    { subst result. rewrite runStepExecutor_installed. unfold run. fold p.
      rewrite bind_run, Hprep, bind_run.
      rewrite (invoke_failed _ _ _ _ _ _ _ Hbody). fold expr. fold s2.
      unfold isContinueOnError, callEvalBool. rewrite bool_decide_eq_false_2 by done.
      exec. by rewrite Heval. }
    split; [done|]. split; [|done]. subst status. cbn.
    rewrite statuses_lookup_alter, list_lookup_alter, decide_True by done.
    by rewrite Hr0.
  - intros Hmain. rewrite decide_True in Htable by done.
    assert (StepResults (rc result.1) !! ID (getStepModel st) = Some p) as Hentry
      by (rewrite Htable; apply lookup_insert_eq).
    split; [done|]. unfold recorded. by rewrite Hentry.
  - intros Hstage. rewrite decide_False in Htable by done.
    split; [done|]. intros id Hfresh. unfold recorded. rewrite Htable.
    destruct (StepResults (rc s0) !! id) as [q|]; [|done]. cbn.
    apply Hothers. congruence.
Qed.
End lifecycle_claims.

(** C2 as stated fails: the main stage of the step [build] succeeds;
    the body of its post stage fails and [continue-on-error] is the
    literal true.  The post invocation returns success and marks its
    own step result with outcome failure and conclusion success, but
    the table of step results does not point to it: what is recorded
    for [build] is still outcome success and conclusion success. *)
Lemma post_stage_failure_is_not_recorded :
  let readable := fileCollaborators None in
  let main :=
    @runStepExecutor _ readable asciiTables canonicalRange
      (plainStep "build" "true") stepStageMain succeedingBody initialState in
  let post :=
    @runStepExecutor _ readable asciiTables canonicalRange
      (plainStep "build" "true") stepStagePost failingBody main.1 in
  (failingBody (world main.1)).2 = Some "exit with `FAILURE`: 1"
  ∧ literalEvalBool "true" DefaultStatusCheckNone = (true, None)
  ∧ post.2 = None
  ∧ statuses (heap post.1)
    = [(StepStatusSuccess, StepStatusSuccess); (StepStatusFailure, StepStatusSuccess)]
  ∧ StepResults (rc post.1) !! "build" = Some 0%nat
  ∧ recorded post.1 "build" = Some (StepStatusSuccess, StepStatusSuccess)
  ∧ recorded post.1 "build" ≠ Some (StepStatusFailure, StepStatusSuccess).
Proof. vm_compute. repeat split; discriminate. Qed.

(** C1 as stated fails: the body fails with exit status 1, nothing
    suppresses it, reading the env file fails, and the invocation
    returns the error of the file command instead of the body's. *)
Lemma file_command_error_replaces_body_error :
  let unreadable := fileCollaborators (Some envFilePath) in
  let result :=
    @runStepExecutor _ unreadable asciiTables canonicalRange
      (plainStep "build" "") stepStageMain failingBody initialState in
  failingBody (world initialState) = ([], Some "exit with `FAILURE`: 1")
  ∧ result.2 = Some "cannot read /var/run/act/workflow/envs.txt"
  ∧ result.2 ≠ Some "exit with `FAILURE`: 1".
Proof. vm_compute. repeat split; discriminate. Qed.


(* ===================================================================== *)
(** ** The theorems at concrete inputs *)
(* ===================================================================== *)

(** [build] inside [outer] with shell [pwsh]. *)
Lemma script_name_and_body_witness :
  (@setupShellCommand literalShell (compositeBuild "pwsh")).2.1.1
    = "workflow/outer-composite-build.ps1"
  ∧ endsWith (@setupShellCommand literalShell (compositeBuild "pwsh")).2.1.2
      (String "010"
         "if ((Test-Path -LiteralPath variable:/LASTEXITCODE)) { exit $LASTEXITCODE }").
Proof.
  destruct (script_name_and_body (H := literalShell) (compositeBuild "pwsh")
              _ _ _ _ eq_refl) as [Hpwsh _].
  destruct (Hpwsh ltac:(left)) as (Hname & _ & _ & Hends).
  split; [exact Hname | exact Hends].
Defined.

(** The ASCII tables fold as documented; with them [Path] and [PATH]
    are one logical name, [HOME] is another, and the merges give what
    the theorem says. *)
Lemma first_seen_casing_is_kept_witness :
  @asciiRows asciiTables
  ∧ @simpleFolding asciiTables sameLetter
  ∧ @foldKey asciiTables "Path" = @foldKey asciiTables "PATH"
  ∧ @foldKey asciiTables "HOME" ≠ @foldKey asciiTables "PATH"
  ∧ @mergeIntoMapCaseInsensitive asciiTables canonicalRange ∅
      [ {["Path" := "1"]}; {["PATH" := "2"]} ]
    = {["Path" := "2"]}
  ∧ @mergeIntoMapCaseInsensitive asciiTables canonicalRange ∅
      [ {["HOME" := "/root"]}; {["Path" := "1"]}; {["PATH" := "2"]} ]
    = {["HOME" := "/root"; "Path" := "2"]}.
Proof.
  assert (@asciiRows asciiTables) as Hrows by (intros r _; reflexivity).
  destruct (first_seen_casing_is_kept (H := asciiTables) (H0 := canonicalRange))
    as (_ & Hfold & Hpath & Hhome).
  split; [exact Hrows|]. split; [exact asciiTables_simpleFolding|].
  split; [|split; [|split; [exact (Hpath Hrows) | exact (Hhome Hrows)]]].
  - apply (Hfold sameLetter asciiTables_simpleFolding).
    repeat constructor.
  - intros Heq. apply (Hfold sameLetter asciiTables_simpleFolding) in Heq.
    apply Forall2_cons_1 in Heq as [Heq _]. vm_compute in Heq. discriminate.
Defined.

(** An include entry that an exclude entry matches is in the result. *)
Lemma include_entries_are_appended_witness :
  ∃ matrixes result,
    (@GetMatrixes canonicalRange (jobWithMatrix (MappingNode includeAndExclude))).2
      = Ok result
    ∧ result = matrixes ++ filter (namesKeyOf includeAndExclude)
                             (includeEntries includeAndExclude)
    ∧ (∀ t, t ∈ matrixes → t ∈ CartesianProduct (axes includeAndExclude))
    ∧ ∀ i, i ∈ includeEntries includeAndExclude → namesKeyOf includeAndExclude i →
        i ∈ result.
Proof.
  apply (include_entries_are_appended (H := canonicalRange)
           (jobWithMatrix (MappingNode includeAndExclude)) _ includeAndExclude
           eq_refl eq_refl);
    apply (bool_decide_unpack _); vm_compute; exact I.
Defined.


(** No strategy: one empty binding. *)
Lemma matrix_expansion_is_the_product_witness :
  Job_Strategy plainJob = None ∧ (@GetMatrixes canonicalRange plainJob).2 = Ok [∅].
Proof.
  split; [reflexivity|].
  exact (proj1 (proj2 (matrix_expansion_is_the_product (H := canonicalRange)))
           plainJob eq_refl).
Defined.

(** A failing body, no [continue-on-error], every file readable: the
    invocation returns the body's error. *)
Lemma body_error_and_file_commands_witness :
  (@runStepExecutor _ (fileCollaborators None) asciiTables canonicalRange
     (plainStep "build" "") stepStageMain failingBody initialState).2
  = Some "exit with `FAILURE`: 1".
Proof.
  pose (C := fileCollaborators None).
  pose (st := plainStep "build" "").
  pose (s1 := (@prepare _ C st stepStageMain 0%nat
                 (@installed _ C asciiTables canonicalRange st stepStageMain initialState)).1).
  pose (s2 := (@invoke _ C st stepStageMain failingBody 0%nat s1).1).
  pose (s3 := (@processRunnerFileCommands _ C canonicalRange s2).1).
  destruct (body_error_and_file_commands (H := C) (H0 := asciiTables)
              (H1 := canonicalRange) st stepStageMain failingBody initialState s1 s2
              "exit with `FAILURE`: 1") as (_ & Hrun & _).
  - vm_compute. reflexivity.
  - vm_compute. reflexivity.
  - destruct (Hrun s3 (inl ())) as [Hresult _].
    + vm_compute. reflexivity.
    + exact (f_equal snd Hresult).
Defined.

(** A failing body with [continue-on-error: true], every file readable:
    the invocation succeeds, outcome failure and conclusion success are
    recorded. *)
Lemma continue_on_error_policy_witness :
  recorded (@runStepExecutor _ (fileCollaborators None) asciiTables canonicalRange
     (plainStep "build" "true") stepStageMain failingBody initialState).1 "build"
  = Some (StepStatusFailure, StepStatusSuccess).
Proof.
  pose (C := fileCollaborators None).
  pose (st := plainStep "build" "true").
  pose (s1 := (@prepare _ C st stepStageMain 0%nat
                 (@installed _ C asciiTables canonicalRange st stepStageMain initialState)).1).
  destruct (continue_on_error_policy (H := C) (H0 := asciiTables)
              (H1 := canonicalRange) st stepStageMain failingBody initialState s1 []
              "exit with `FAILURE`: 1") as (_ & Htrue & _ & Hmain & _).
  - vm_compute. reflexivity.
  - vm_compute. reflexivity.
  - destruct (Hmain eq_refl) as [_ Hrecorded].
    destruct Htrue as [Hstatus _].
    + vm_compute. discriminate.
    + vm_compute. reflexivity.
    + exact (eq_trans Hrecorded Hstatus).
Defined.

(** A main-stage step whose condition is false: the entry exists and is
    marked skipped. *)
Lemma step_result_entries_witness :
  let result :=
    @runStepExecutor _ (fileCollaborators None) asciiTables canonicalRange
      disabledStep stepStageMain failingBody initialState in
  StepResults (rc result.1) !! "build" = Some 0%nat
  ∧ heap result.1 !! 0%nat
    = Some (mkStepResult StepStatusSkipped StepStatusSkipped ∅)
  ∧ result.2 = None.
Proof.
  destruct (step_result_entries (H := fileCollaborators None) (H0 := asciiTables)
              (H1 := canonicalRange) disabledStep stepStageMain failingBody initialState)
    as (Hmain & _ & Hskip & _).
  destruct (Hmain eq_refl) as (_ & Hentry & _).
  destruct Hskip as [Hnone Hmarked]; [vm_compute; reflexivity|].
  split; [exact Hentry|]. split; [exact Hmarked | exact Hnone].
Defined.


(* ===================================================================== *)
(** ** Strategy options, steps and jobs of the model *)
(* ===================================================================== *)

Section model_options.

(** X1: [GetFailFast] answers [true] exactly for the empty string and the
    six spellings of true that [strconv.ParseBool] accepts; every other
    text, [yes] and [on] among them, gives [false]. *)
Theorem fail_fast_literals (s : Strategy) :
  GetFailFast s = true
  ↔ FailFastString s ∈ [""; "1"; "t"; "T"; "true"; "TRUE"; "True"].
Proof.
  unfold GetFailFast, Go.ParseBool.
  generalize (FailFastString s); intros x.
  repeat case_bool_decide; simpl;
    repeat match goal with
           | H : _ ∈ _ |- _ => rewrite ?elem_of_cons, ?elem_of_nil in H
           | H : _ ∉ _ |- _ => rewrite ?elem_of_cons, ?elem_of_nil in H
           | H : ¬ (_ ≠ _) |- _ => apply dec_stable in H
           end;
    rewrite ?elem_of_cons, ?elem_of_nil; split; intros; try done; try tauto.
  all: exfalso; intuition congruence.
Qed.

Lemma pretty_N_char_byte d :
  (d < 10)%N → Z.of_N (N_of_ascii (pretty_N_char d)) = 48 + Z.of_N d.
Proof.
  intros Hd.
  assert (d = 0 ∨ d = 1 ∨ d = 2 ∨ d = 3 ∨ d = 4 ∨ d = 5 ∨ d = 6 ∨ d = 7
          ∨ d = 8 ∨ d = 9)%N as Hcases by lia.
  repeat destruct Hcases as [->|Hcases]; try reflexivity.
  subst; reflexivity.
Qed.

(** The digit loop reads back the digits [pretty] writes. *)
Lemma ParseUint_loop_pretty x s :
  Z.of_N x <= Go.maxUint64 →
  Go.ParseUint_loop (Go.bytes_of (pretty_N_go x s)) 0
  = Go.ParseUint_loop (Go.bytes_of s) (Z.of_N x).
Proof.
  assert (Go.maxUint64 / 10 + 1 = 1844674407370955162) as Hdiv10 by reflexivity.
  assert (Go.maxUint64 = 18446744073709551615) as Hmax by reflexivity.
  revert s. induction (N.lt_wf_0 x) as [x _ IH]; intros s Hx.
  assert (x = 0 ∨ 0 < x)%N as [->|Hpos] by lia.
  { by rewrite pretty_N_go_0. }
  rewrite pretty_N_go_step by done.
  assert (x `mod` 10 < 10)%N as Hmod by (apply N.mod_lt; lia).
  pose proof (N.div_mod x 10 ltac:(lia)) as Hdiv.
  assert (x `div` 10 <= x)%N as Hle by (apply N.Div0.div_le_upper_bound; lia).
  rewrite Hmax in Hx.
  revert Hdiv Hle Hmod IH. generalize (x `div` 10)%N (x `mod` 10)%N.
  intros q r Hdiv Hle Hmod IH.
  rewrite IH; [| lia | lia].
  rewrite bytes_of_String, pretty_N_char_byte by done.
  cbn [Go.ParseUint_loop]. unfold Go.is_digit.
  rewrite Hdiv10, Hmax.
  replace (Z.of_N q * 10 + (48 + Z.of_N r - 48)) with (Z.of_N x) by lia.
  repeat case_match; try reflexivity; lia.
Qed.

Lemma pretty_N_go_head y d s :
  (d < 10)%N →
  ∃ d' s', (d' < 10)%N ∧ pretty_N_go y (String (pretty_N_char d) s)
                         = String (pretty_N_char d') s'.
Proof.
  revert d s. induction (N.lt_wf_0 y) as [y _ IH]; intros d s Hd.
  assert (y = 0 ∨ 0 < y)%N as [->|Hpos] by lia.
  { rewrite pretty_N_go_0. eauto. }
  rewrite pretty_N_go_step by done.
  apply IH; [apply N.div_lt; lia | apply N.mod_lt; lia].
Qed.

Lemma pretty_N_head (x : N) :
  ∃ d s, (d < 10)%N ∧ pretty x = String (pretty_N_char d) s.
Proof.
  unfold pretty, pretty_N. case_decide as Hx.
  - exists 0%N, "". split; [lia | reflexivity].
  - rewrite pretty_N_go_step by lia.
    apply pretty_N_go_head, N.mod_lt. lia.
Qed.

Lemma ParseUint_pretty (x : N) :
  Z.of_N x <= Go.maxUint64 →
  Go.ParseUint (Go.bytes_of (pretty x)) = (Z.of_N x, None).
Proof.
  intros Hx.
  destruct (pretty_N_head x) as (d & s & Hd & Hhead).
  unfold Go.ParseUint. rewrite Hhead, bytes_of_String, <- bytes_of_String, <- Hhead.
  unfold pretty, pretty_N. case_decide as H0; [by subst|].
  by rewrite ParseUint_loop_pretty.
Qed.

(** [strconv.Atoi] reads back every number of the [int] range from its
    decimal form. *)
Lemma Atoi_pretty (n : Z) :
  Go.minInt64 <= n <= Go.maxInt64 → Go.Atoi (pretty n) = (n, None).
Proof.
  assert (Go.minInt64 = - 9223372036854775808) as -> by reflexivity.
  assert (Go.maxInt64 = 9223372036854775807) as -> by reflexivity.
  assert (Go.maxUint64 = 18446744073709551615) as Hmax by reflexivity.
  intros Hn. unfold Go.Atoi.
  destruct n as [|p|p].
  - reflexivity.
  - change (pretty (Z.pos p)) with (pretty (N.pos p)).
    destruct (pretty_N_head (N.pos p)) as (d & s & Hd & Hhead).
    pose proof (ParseUint_pretty (N.pos p) ltac:(lia)) as Hparse.
    rewrite Hhead in Hparse |- *. rewrite bytes_of_String in Hparse |- *.
    pose proof (pretty_N_char_byte d Hd) as Hbyte.
    unfold Go.ParseInt. rewrite Hbyte in Hparse |- *.
    rewrite !bool_decide_eq_false_2 by lia. simpl orb. cbv iota.
    rewrite Hparse. simpl negb. simpl andb.
    assert (2 ^ 63 = 9223372036854775808) as -> by reflexivity.
    change (Z.of_N (N.pos p)) with (Z.pos p).
    destruct (Z.pos p >=? 9223372036854775808) eqn:Hge; [lia|]. reflexivity.
  - change (pretty (Z.neg p)) with ("-" +:+ pretty (N.pos p)).
    pose proof (ParseUint_pretty (N.pos p) ltac:(lia)) as Hparse.
    change (Go.bytes_of ("-" +:+ pretty (N.pos p)))
      with (45 :: Go.bytes_of (pretty (N.pos p))).
    unfold Go.ParseInt. cbv zeta.
    change (bool_decide (45 = 45)) with true.
    rewrite orb_true_r. cbv iota. rewrite Hparse. simpl negb. simpl andb.
    assert (2 ^ 63 = 9223372036854775808) as -> by reflexivity.
    change (Z.of_N (N.pos p)) with (Z.pos p).
    destruct (Z.pos p >? 9223372036854775808) eqn:Hgt; [lia|]. reflexivity.
Qed.

(** X2: for a [max-parallel] option written as a decimal number of the
    [int] range, [GetMaxParallel] is that number: zero and negative
    numbers are handed on as they are, and only the empty option gives
    the default [4]. *)
Theorem max_parallel_is_not_clamped (s : Strategy) (n : Z) :
  Go.minInt64 <= n <= Go.maxInt64 →
  MaxParallelString s = pretty n →
  GetMaxParallel s = n.
Proof.
  intros Hn Hs. unfold GetMaxParallel. rewrite Hs, Atoi_pretty by done.
  case_bool_decide as Hne; [done|].
  destruct n as [|p|p]; [done| |done].
  change (pretty (Z.pos p)) with (pretty (N.pos p)) in Hne.
  destruct (pretty_N_head (N.pos p)) as (d' & s'' & _ & Hhead). congruence.
Qed.

End model_options.

(* ===================================================================== *)
(** ** Writing a list of entries into a map *)
(* ===================================================================== *)

(** After a loop [for k, v := range l { t[f(k)] = v }] the key [key]
    holds the value of the last entry written to it, and what the map
    held before when no entry was. *)
Lemma foldl_insert_lookup {A} (f : string → string) (l : list (string * A))
    (t : gmap string A) (key : string) :
  foldl (λ env '(k, v), <[f k := v]> env) t l !! key
  = match last (filter (λ kv, f kv.1 = key) l) with
    | Some kv => Some kv.2
    | None => t !! key
    end.
Proof.
  induction l as [|[k v] l IH] using rev_ind; [done|].
  rewrite foldl_app, filter_app, last_app. simpl.
  rewrite filter_cons, filter_nil. simpl.
  destruct (decide (f k = key)) as [<-|Hne]; simpl.
  - by rewrite lookup_insert_eq.
  - by rewrite lookup_insert_ne.
Qed.

Lemma last_filter_elem_of {A} (P : A → Prop) `{!∀ x, Decision (P x)} (l : list A) x :
  last (filter P l) = Some x → x ∈ l ∧ P x.
Proof.
  intros Hlast. apply last_Some in Hlast as [l' Hl'].
  assert (x ∈ filter P l) as Hin by (rewrite Hl'; set_solver).
  by apply list_elem_of_filter in Hin as [? ?].
Qed.

Lemma last_filter_None {A} (P : A → Prop) `{!∀ x, Decision (P x)} (l : list A) :
  last (filter P l) = None ↔ ∀ x, x ∈ l → ¬ P x.
Proof.
  rewrite last_None. split.
  - intros Hnil x Hx HP.
    assert (x ∈ filter P l) as Hin by (by apply list_elem_of_filter).
    rewrite Hnil in Hin. by apply elem_of_nil in Hin.
  - intros Hall. destruct (filter P l) as [|y l'] eqn:Hf; [done|].
    assert (y ∈ filter P l) as Hin by (rewrite Hf; left).
    apply list_elem_of_filter in Hin as [HP Hy]. by destruct (Hall y).
Qed.

(** In a list without two entries for one key, the last entry for a key
    is the only one. *)
Lemma last_filter_key {A} (l : list (string * A)) k v :
  NoDup l.*1 → (k, v) ∈ l →
  last (filter (λ kv, kv.1 = k) l) = Some (k, v).
Proof.
  intros Hnd Hin.
  destruct (last (filter (λ kv, kv.1 = k) l)) as [[k' v']|] eqn:Hlast.
  - apply last_filter_elem_of in Hlast as [Hin' Hk]. simpl in Hk. subst k'.
    f_equal. f_equal.
    apply list_elem_of_lookup in Hin as [i Hi], Hin' as [j Hj].
    assert (i = j) as ->.
    { eapply NoDup_lookup; [exact Hnd|..]; rewrite list_lookup_fmap.
      - by rewrite Hi.
      - by rewrite Hj. }
    congruence.
  - exfalso. eapply last_filter_None in Hlast; [|exact Hin]. by apply Hlast.
Qed.

(* ===================================================================== *)
(** ** The environment of a step *)
(* ===================================================================== *)

Section step_env.
Context `{UnicodeTables} `{MapRange}.

Lemma NoDup_range {A} (m : gmap string A) : NoDup (range m).*1.
Proof. rewrite range_perm. apply NoDup_fst_map_to_list. Qed.

(** X3: [Step.GetEnv] holds the declared environment and one variable
    per [with] entry, named by [inputKey], which starts with [INPUT_].
    A declared variable keeps its value unless a [with] entry is written
    to its name; the variable of a [with] entry holds the value of a
    [with] entry with that variable name, its own when no other entry
    shares the name. *)
Theorem step_env_of_with_entries (s : Step) :
  (∀ k, Go.HasPrefix (inputKey k) "INPUT_" = true)
  ∧ (∀ key, (∀ k, is_Some (With s !! k) → inputKey k ≠ key) →
       GetEnv s !! key = Env s !! key)
  ∧ (∀ k v, With s !! k = Some v →
       ∃ k' v', With s !! k' = Some v' ∧ inputKey k' = inputKey k
                ∧ GetEnv s !! inputKey k = Some v')
  ∧ (∀ k v, With s !! k = Some v →
       (∀ k', is_Some (With s !! k') → inputKey k' = inputKey k → k' = k) →
       GetEnv s !! inputKey k = Some v).
Proof.
  split_and!.
  - intros k. unfold inputKey.
    generalize (Go.Map ToUpper (Go.Map inputKeyRune (Go.Map ToUpper k))).
    intros x. simpl. by destruct x.
  - intros key Hfresh. unfold GetEnv. rewrite foldl_insert_lookup.
    destruct (last _) as [[k v]|] eqn:Hlast; [|done].
    apply last_filter_elem_of in Hlast as [Hin Hk]. simpl in Hk.
    apply elem_of_range in Hin. destruct (Hfresh k); eauto.
  - intros k v Hk. unfold GetEnv. rewrite foldl_insert_lookup.
    destruct (last _) as [[k' v']|] eqn:Hlast.
    + apply last_filter_elem_of in Hlast as [Hin Hk']. simpl in Hk'.
      apply elem_of_range in Hin. eauto.
    + exfalso. apply elem_of_range in Hk.
      eapply last_filter_None in Hlast; [|exact Hk]. by apply Hlast.
  - intros k v Hk Hinj. unfold GetEnv. rewrite foldl_insert_lookup.
    destruct (last _) as [[k' v']|] eqn:Hlast.
    + apply last_filter_elem_of in Hlast as [Hin Hk']. simpl in Hk'.
      apply elem_of_range in Hin.
      assert (k' = k) as -> by (apply Hinj; eauto). simpl. congruence.
    + exfalso. apply elem_of_range in Hk.
      eapply last_filter_None in Hlast; [|exact Hk]. by apply Hlast.
Qed.

End step_env.

Section input_names.
Context `{UnicodeTables}.

(** A string of ASCII bytes is read rune by rune as its bytes. *)
Lemma decodeRunes_ascii (l : list Z) :
  Forall (λ b, 0 <= b < 128) l → Go.decodeRunes l = (λ b, (b, [b])) <$> l.
Proof.
  induction 1 as [|b l Hb _ IH]; [done|].
  cbn [Go.decodeRunes fmap list_fmap].
  destruct (b <? 128) eqn:Hlt; [|lia]. by rewrite IH.
Qed.

Lemma envNameByte_ascii b : envNameByte b = true → 0 <= b < 128.
Proof.
  unfold envNameByte, Go.between.
  repeat case_bool_decide; intros Hb; lia.
Qed.

Lemma inputKeyRune_envNameByte r : envNameByte (inputKeyRune r) = true.
Proof.
  unfold inputKeyRune, envNameByte.
  destruct (Go.between 65 90 r || Go.between 48 57 r || bool_decide (r = 45)) eqn:Hr.
  - by rewrite Hr.
  - reflexivity.
Qed.

Lemma encodeRune_ascii b : 0 <= b < 128 → Go.encodeRune b = [b].
Proof.
  intros Hb. unfold Go.encodeRune, Go.between.
  destruct (0 <=? b) eqn:H0; [|lia]. destruct (b <=? 127) eqn:H1; [|lia]. done.
Qed.

(** [strings.Map] with a mapping into the bytes of a variable name
    writes one such byte per rune. *)
Lemma Map_inputKeyRune (t : string) :
  ∃ l, Go.Map inputKeyRune t = Go.of_bytes l
       ∧ Forall (λ b, envNameByte b = true) l
       ∧ length l = length (Go.decodeRunes (Go.bytes_of t)).
Proof.
  unfold Go.Map. generalize (Go.decodeRunes (Go.bytes_of t)). intros runes.
  exists ((λ cw, inputKeyRune cw.1) <$> runes). split_and!.
  - f_equal. induction runes as [|[c w] runes IH]; [done|].
    cbn [fmap list_fmap concat]. rewrite <- IH. simpl.
    pose proof (envNameByte_ascii _ (inputKeyRune_envNameByte c)) as Hc.
    destruct (inputKeyRune c <? 0) eqn:Hneg; [lia|].
    by rewrite encodeRune_ascii.
  - apply Forall_fmap, Forall_forall. intros cw _. apply inputKeyRune_envNameByte.
  - by rewrite length_fmap.
Qed.

(** Where [ToUpper] leaves the bytes of variable names alone, mapping it
    over such a name changes nothing. *)
Lemma Map_ToUpper_envName (l : list Z) :
  (∀ r, envNameByte r = true → ToUpper r = r) →
  Forall (λ b, envNameByte b = true) l →
  Go.Map ToUpper (Go.of_bytes l) = Go.of_bytes l.
Proof.
  intros Hupper Hl. unfold Go.Map.
  rewrite bytes_of_of_bytes, decodeRunes_ascii.
  - f_equal. induction Hl as [|b l Hb _ IH]; [done|].
    cbn [fmap list_fmap concat]. rewrite IH, (Hupper b Hb).
    pose proof (envNameByte_ascii b Hb) as Hrange.
    destruct (b <? 0) eqn:Hneg; [lia|]. by rewrite encodeRune_ascii.
  - eapply Forall_impl; [exact Hl|]. intros b Hb. by apply envNameByte_ascii.
  - eapply Forall_impl; [exact Hl|]. intros b Hb.
    apply envNameByte_ascii in Hb. lia.
Qed.

(** X4: whatever the [with] key, the variable [GetEnv] names after it
    is [INPUT_] followed by upper-case letters, digits, hyphens and
    underscores only, one for each rune of the upper-cased key.  The
    tables are assumed to leave these characters alone under
    [ToUpper]. *)
Theorem input_names_are_sanitised (k : string) :
  (∀ r, envNameByte r = true → ToUpper r = r) →
  ∃ name,
    inputKey k = "INPUT_" +:+ name
    ∧ Forall (λ b, envNameByte b = true) (Go.bytes_of name)
    ∧ length (Go.bytes_of name)
      = length (Go.decodeRunes (Go.bytes_of (Go.Map ToUpper k))).
Proof.
  intros Hupper. unfold inputKey.
  destruct (Map_inputKeyRune (Go.Map ToUpper k)) as (l & -> & Hl & Hlen).
  rewrite Map_ToUpper_envName by done.
  exists (Go.of_bytes l).
  assert (Go.bytes_of (Go.of_bytes l) = l) as ->.
  { apply bytes_of_of_bytes. eapply Forall_impl; [exact Hl|]. intros b Hb.
    apply envNameByte_ascii in Hb. lia. }
  done.
Qed.

End input_names.

(* ===================================================================== *)
(** ** Matrix expansion: matching and failure *)
(* ===================================================================== *)

Section matrix_extras.



Context `{MapRange}.





End matrix_extras.

(* ===================================================================== *)
(** ** Validation of steps, jobs of a workflow *)
(* ===================================================================== *)

Section steps_and_jobs.

(** X7: [Validate] accepts a step exactly when each of its four checks
    passes: a step that is no [run] step needs [uses] to be allowed, a
    [run] step needs a shell, [if] and [continue-on-error] need to be
    allowed when present.  The type of a step is [StepTypeInvalid]
    exactly when it has both [run] and [uses]; under the default
    restrictions such a step is accepted when it has no [if] and no
    [continue-on-error]. *)
Theorem validate_accepts (s : CompositeStep) (config : option CompositeRestrictions) :
  let c := default defaultCompositeRestrictions config in
  let st := CS_Step s in
  (Validate s config = None ↔
     (Step_Type st ≠ StepTypeRun → AllowCompositeUses c = true)
     ∧ (Step_Type st = StepTypeRun → Shell st ≠ "")
     ∧ (If_IsZero s = false → AllowCompositeIf c = true)
     ∧ (ContinueOnError s = true → AllowCompositeContinueOnError c = true))
  ∧ (Step_Type st = StepTypeInvalid ↔ Run st ≠ "" ∧ Uses st ≠ "")
  ∧ (Step_Type st = StepTypeInvalid → If_IsZero s = true →
     ContinueOnError s = false → Validate s None = None).
Proof.
  intros c st. split_and!.
  - unfold Validate. fold c st.
    destruct (AllowCompositeUses c), (AllowCompositeIf c),
      (AllowCompositeContinueOnError c), (If_IsZero s), (ContinueOnError s);
      repeat case_bool_decide; simpl;
      (split;
       [ intros Hv; try discriminate Hv; split_and!; intros; congruence
       | intros (Huses & Hshell & Hif & Hcoe); try reflexivity; exfalso;
         first [ by apply Hshell
               | by specialize (Huses ltac:(assumption))
               | by specialize (Hif eq_refl)
               | by specialize (Hcoe eq_refl) ] ]).
  - unfold Step_Type.
    repeat case_bool_decide; repeat case_match; split; try done;
      intros [? ?]; done.
  - intros Hinvalid Hif Hcoe. unfold Validate. fold st.
    rewrite Hinvalid, Hif, Hcoe. reflexivity.
Qed.

Context `{MapRange}.

Lemma GetJob_loop_absent jobID (jobs : list (string * option Job)) :
  jobID ∉ jobs.*1 → GetJob_loop jobID jobs = Ok None.
Proof.
  induction jobs as [|[id j] jobs IH]; [done|].
  rewrite fmap_cons, not_elem_of_cons. intros [Hne Hnot]. simpl.
  rewrite bool_decide_eq_false_2 by done. by apply IH.
Qed.

Lemma GetJob_loop_present jobID (jobs : list (string * option Job)) j :
  NoDup jobs.*1 → (jobID, j) ∈ jobs →
  GetJob_loop jobID jobs =
    match j with
    | Some j => Ok (Some (jobID, if bool_decide (Job_Name j = "")
                                 then setName j jobID else j))
    | None => Panic
    end.
Proof.
  induction jobs as [|[id j'] jobs IH]; intros Hnd Hin.
  { by apply elem_of_nil in Hin. }
  rewrite fmap_cons in Hnd. apply NoDup_cons in Hnd as [Hfresh Hnd].
  apply elem_of_cons in Hin as [[= <- <-]|Hin]; simpl.
  - by rewrite bool_decide_eq_true_2.
  - rewrite bool_decide_eq_false_2; [by apply IH|].
    intros <-. apply Hfresh. apply list_elem_of_fmap. by exists (jobID, j).
Qed.

(** What [GetJob] does is decided by the entry of the id alone. *)
Lemma GetJob_lookup (Jobs : gmap string (option Job)) (jobID : string) :
  GetJob Jobs jobID =
    match Jobs !! jobID with
    | None => (Jobs, Ok None)
    | Some None => (Jobs, Panic)
    | Some (Some j) =>
        let j := if bool_decide (Job_Name j = "") then setName j jobID else j in
        (<[jobID := Some j]> Jobs, Ok (Some j))
    end.
Proof.
  unfold GetJob. destruct (Jobs !! jobID) as [j|] eqn:Hj.
  - rewrite (GetJob_loop_present jobID (range Jobs) j);
      [by destruct j | apply NoDup_range | by apply elem_of_range].
  - rewrite GetJob_loop_absent; [done|].
    intros Hin. apply list_elem_of_fmap in Hin as ([id j] & -> & Hin).
    apply elem_of_range in Hin. simpl in Hj. congruence.
Qed.

(** X8: [GetJob] finds a job by the key it has in the workflow, in
    whatever order the map is visited: an id that is no key gives nil and
    changes nothing; a job that had no name carries its id as name from
    then on, in the workflow too, and no other job is touched; a second
    call returns the same job and changes nothing more.  A key that maps
    to a nil job makes the call panic. *)
Theorem get_job_by_id (Jobs : gmap string (option Job)) (jobID : string) :
  let named j := if bool_decide (Job_Name j = "") then setName j jobID else j in
  (Jobs !! jobID = None → GetJob Jobs jobID = (Jobs, Ok None))
  ∧ (Jobs !! jobID = Some None → GetJob Jobs jobID = (Jobs, Panic))
  ∧ (∀ j, Jobs !! jobID = Some (Some j) →
       GetJob Jobs jobID = (<[jobID := Some (named j)]> Jobs, Ok (Some (named j)))
       ∧ (jobID ≠ "" → Job_Name (named j) ≠ "")
       ∧ (∀ id, id ≠ jobID → (GetJob Jobs jobID).1 !! id = Jobs !! id)
       ∧ GetJob (GetJob Jobs jobID).1 jobID
         = (<[jobID := Some (named j)]> Jobs, Ok (Some (named j)))).
Proof.
  intros named. split_and!.
  - intros Hnone. by rewrite GetJob_lookup, Hnone.
  - intros Hnil. by rewrite GetJob_lookup, Hnil.
  - intros j Hj. rewrite (GetJob_lookup Jobs), Hj. cbv zeta. fold (named j).
    split_and!; [done|..].
    + intros Hid. unfold named. case_bool_decide as Hname; [done|]. done.
    + intros id Hne. simpl. by rewrite lookup_insert_ne.
    + simpl. rewrite GetJob_lookup, lookup_insert_eq. cbv zeta.
      fold (named (named j)).
      assert (named (named j) = named j) as ->.
      { unfold named. destruct (decide (Job_Name j = "")) as [Hname|Hname].
        - rewrite (bool_decide_eq_true_2 _ Hname). simpl.
          case_bool_decide as Hid; [|done]. simpl in Hid. by subst.
        - rewrite (bool_decide_eq_false_2 _ Hname).
          by rewrite (bool_decide_eq_false_2 _ Hname). }
      by rewrite insert_insert_eq.
Qed.

Lemma GetJobIDs_loop (l : list (string * option Job)) (ids : list string) :
  foldl (λ ids '(id, _), ids ++ [id]) ids l = ids ++ l.*1.
Proof.
  revert ids. induction l as [|[id j] l IH]; intros ids; simpl.
  - by rewrite app_nil_r.
  - by rewrite IH, <- app_assoc.
Qed.

Lemma GetJobIDs_keys (Jobs : gmap string (option Job)) :
  GetJobIDs Jobs = (range Jobs).*1.
Proof. unfold GetJobIDs. by rewrite GetJobIDs_loop. Qed.

(** X9: [GetJobIDs] lists every key of the workflow's jobs exactly once,
    and these are the ids for which [GetJob] does not answer nil. *)
Theorem job_ids_are_the_keys (Jobs : gmap string (option Job)) :
  GetJobIDs Jobs ≡ₚ (map_to_list Jobs).*1
  ∧ NoDup (GetJobIDs Jobs)
  ∧ length (GetJobIDs Jobs) = size Jobs
  ∧ ∀ id, id ∈ GetJobIDs Jobs ↔ (GetJob Jobs id).2 ≠ Ok None.
Proof.
  rewrite GetJobIDs_keys. split_and!.
  - by rewrite range_perm.
  - apply NoDup_range.
  - by rewrite length_fmap, range_perm, length_map_to_list.
  - intros id. pose proof (GetJob_lookup Jobs id) as Hspec.
    destruct (Jobs !! id) as [[j|]|] eqn:Hid.
    + rewrite Hspec. split; [done|]. intros _.
      apply list_elem_of_fmap. exists (id, Some j). split; [done|].
      by apply elem_of_range.
    + rewrite Hspec. split; [done|]. intros _.
      apply list_elem_of_fmap. exists (id, None). split; [done|].
      by apply elem_of_range.
    + rewrite Hspec. split; [|done]. intros Hin. exfalso.
      apply list_elem_of_fmap in Hin as ([id' j] & -> & Hin).
      apply elem_of_range in Hin. simpl in Hid. congruence.
Qed.

End steps_and_jobs.


(* ===================================================================== *)
(** ** Running a container *)
(* ===================================================================== *)

Section run_container.

(** X10: the result of [waitContainer] tells the exit status: two
    statuses give the same result only when they are equal.  An error
    read from the error channel is returned as it is, and a nil read
    from it counts as success; the result is nil in no other case than
    that one and status 0. *)
Theorem exit_status_is_recoverable :
  (∀ a b, waitContainer (FromStatusCh a) = waitContainer (FromStatusCh b) → a = b)
  ∧ (∀ err, waitContainer (FromErrCh (Some err)) = Some err)
  ∧ (∀ received, waitContainer received = None
       ↔ received = FromErrCh None ∨ received = FromStatusCh 0).
Proof.
  split_and!.
  - intros a b. unfold waitContainer.
    repeat case_bool_decide; subst; try done; intros Heq;
      apply (inj Some) in Heq.
    unfold failure in Heq. simpl in Heq. injection Heq as Heq.
    by apply (inj pretty).
  - done.
  - intros [[err|]|status]; unfold waitContainer; simpl.
    + split; [done|]. by intros [|].
    + split; [|done]. by left.
    + repeat case_bool_decide; subst; split; try done; try (by right).
      all: intros [|[= ?]]; done.
Qed.

Lemma Split_not_nil s sep : Go.Split s sep ≠ [].
Proof.
  destruct s as [|c s]; [done|]. simpl.
  case_bool_decide; [done|]. by destruct (Go.Split s sep).
Qed.

Lemma concat_Split s sep :
  String.concat (String sep "") (Go.Split s sep) = s.
Proof.
  induction s as [|c s IH]; [done|]. simpl.
  pose proof (Split_not_nil s sep) as Hne.
  case_bool_decide as Hc.
  - subst c. destruct (Go.Split s sep) as [|w ws] eqn:Hs; [done|].
    change (String.concat (String sep "") ("" :: w :: ws))
      with (String sep (String.concat (String sep "") (w :: ws))).
    by rewrite IH.
  - destruct (Go.Split s sep) as [|w ws] eqn:Hs; [done|].
    destruct ws as [|w' ws].
    + simpl in IH |- *. by rewrite IH.
    + change (String.concat (String sep "") (String c w :: w' :: ws))
        with (String c (w +:+ String sep "" +:+ String.concat (String sep "") (w' :: ws))).
      change (String.concat (String sep "") (w :: w' :: ws))
        with (w +:+ String sep "" +:+ String.concat (String sep "") (w' :: ws)) in IH.
      by rewrite IH.
Qed.

Lemma Split_words s sep :
  Forall (λ w, sep ∉ String.list_ascii_of_string w) (Go.Split s sep).
Proof.
  induction s as [|c s IH]; simpl.
  - constructor; [|constructor]. simpl. apply not_elem_of_nil.
  - case_bool_decide as Hc.
    + constructor; [|done]. simpl. apply not_elem_of_nil.
    + destruct (Go.Split s sep) as [|w ws]; simpl.
      * constructor; [|constructor]. simpl.
        rewrite not_elem_of_cons. split; [done|]. apply not_elem_of_nil.
      * apply Forall_cons in IH as [Hw Hws]. constructor; [|done]. simpl.
        rewrite not_elem_of_cons. split; [done|]. done.
Qed.

Lemma length_Split s sep :
  length (Go.Split s sep)
  = S (length (filter (λ c, c = sep) (String.list_ascii_of_string s))).
Proof.
  induction s as [|c s IH]; [done|]. simpl. rewrite filter_cons.
  case_bool_decide as Hc.
  - rewrite decide_True by done. simpl. by rewrite IH.
  - rewrite decide_False by done. rewrite <- IH.
    pose proof (Split_not_nil s sep). by destruct (Go.Split s sep).
Qed.

Lemma volumes_set (vols : list string) (acc : gset string) :
  foldl (λ volumes vol, {[vol]} ∪ volumes) acc vols = list_to_set vols ∪ acc.
Proof.
  revert acc. induction vols as [|v vols IH]; intros acc; simpl.
  - change (list_to_set []) with (∅ : gset string). by rewrite (left_id_L ∅ (∪)).
  - rewrite IH.
    by rewrite (comm_L (∪) {[v]} (list_to_set vols)), <- (assoc_L (∪)).
Qed.

(** X11: a command of exactly one element is cut at every space before
    the container is created: no word holds a space, there is one word
    more than there are spaces and joining the words with spaces gives
    the element back.  A command of any other length is handed on as it
    is.  The volumes of the configuration are those of the input, and
    the entry point is set only when the input names one. *)
Theorem single_command_is_split_at_spaces input isTerminal :
  let config := containerConfig input isTerminal in
  (∀ cmd0, Input_Cmd input = [cmd0] →
     Forall (λ w, " "%char ∉ String.list_ascii_of_string w) (Config_Cmd config)
     ∧ String.concat " " (Config_Cmd config) = cmd0
     ∧ length (Config_Cmd config)
       = S (length (filter (λ c, c = " "%char) (String.list_ascii_of_string cmd0))))
  ∧ (length (Input_Cmd input) ≠ 1%nat → Config_Cmd config = Input_Cmd input)
  ∧ Config_Volumes config = list_to_set (Volumes input)
  ∧ Config_Entrypoint config
    = (if decide (Entrypoint input = "") then [] else [Entrypoint input]).
Proof.
  intros config.
  assert (Config_Cmd config =
          match Input_Cmd input with [cmd0] => Go.Split cmd0 " " | _ => Input_Cmd input end)
    as Hcmd.
  { unfold config, containerConfig. by repeat case_bool_decide. }
  split_and!.
  - intros cmd0 Hone. rewrite Hcmd, Hone. split_and!.
    + apply Split_words.
    + apply (concat_Split cmd0 " "%char).
    + apply length_Split.
  - intros Hlen. rewrite Hcmd.
    destruct (Input_Cmd input) as [|c0 [|c1 l]]; done.
  - assert (Config_Volumes config =
            if bool_decide (0 < length (Volumes input))%nat
            then foldl (λ volumes vol, {[vol]} ∪ volumes) ∅ (Volumes input)
            else ∅) as ->.
    { unfold config, containerConfig. by repeat case_bool_decide. }
    case_bool_decide as Hlen.
    + by rewrite volumes_set, (right_id_L ∅ (∪)).
    + destruct (Volumes input); [done|simpl in Hlen; lia].
  - unfold config, containerConfig.
    destruct (decide (Entrypoint input = "")) as [He|He].
    + rewrite (bool_decide_eq_false_2 (Entrypoint input ≠ "")) by tauto.
      by case_bool_decide.
    + by rewrite (bool_decide_eq_true_2 (Entrypoint input ≠ "")).
Qed.

Context {D : Type} `{DockerClient D} `{MapRange}.

Lemma copyContent_loop_calls containerID content (st st' : D * list call) err :
  copyContent_loop containerID content st = (st', err) →
  ∃ n, st'.2 = st.2 ++ take n ((λ '(dstPath, content),
                                  CopyToContainer containerID dstPath content)
                               <$> content)
       ∧ (n ≤ length content)%nat
       ∧ (err = None → n = length content).
Proof.
  revert st. induction content as [|[dstPath srcReader] content IH]; intros st; simpl.
  - intros [= <- <-]. exists 0%nat. by rewrite app_nil_r.
  - destruct (failed _) as [e|] eqn:Hfailed.
    + intros [= <- <-]. exists 1%nat. simpl. rewrite take_0. split_and!; [done|lia|done].
    + intros Hloop. apply IH in Hloop as (n & Hcalls & Hn & Hall).
      exists (S n). simpl in Hcalls |- *. rewrite Hcalls, <- app_assoc.
      split_and!; [done|lia|]. intros Herr. by rewrite Hall.
Qed.

(** Once the container is created, the calls made on it are a prefix of
    the planned ones, and all of them when the run succeeds. *)
Lemma runCreated_calls input containerID (st st' : D * list call) err :
  runCreated input containerID st = (st', err) →
  ∃ n, st'.2 = st.2 ++ take n (planned input containerID)
       ∧ (err = None → n = length (planned input containerID)).
Proof.
  unfold runCreated, copyContentToContainer, planned.
  set (copies := (λ '(dstPath, content), CopyToContainer containerID dstPath content)
                 <$> range (Content input)).
  destruct (copyContent_loop _ _ st) as [st1 err1] eqn:Hcopy.
  apply copyContent_loop_calls in Hcopy as (n & Hcalls & Hn & Hall).
  fold copies in Hcalls.
  assert (length copies = length (range (Content input))) as Hlen
    by apply length_fmap.
  destruct err1 as [e|].
  { intros [= <- <-]. exists n. rewrite take_app_le by lia. done. }
  specialize (Hall eq_refl). subst n. rewrite <- Hlen, firstn_all in Hcalls.
  unfold attachContainer, startContainer, awaitContainer, invoke_call. simpl.
  destruct (failed (daemon (ContainerAttach containerID) st1.1)) as [e|].
  { intros [= <- <-]. exists (length copies + 1)%nat. simpl.
    rewrite Hcalls, <- app_assoc, take_app_add. done. }
  destruct (failed (daemon (ContainerStart containerID) _)) as [e|].
  { intros [= <- <-]. exists (length copies + 2)%nat. simpl.
    rewrite Hcalls, <- !app_assoc, take_app_add. done. }
  intros [= <- <-]. exists (length copies + 3)%nat. simpl.
  rewrite Hcalls, <- !app_assoc, take_app_add. split; [done|].
  intros _. rewrite length_app. simpl. lia.
Qed.

(** X12: a dry run calls nothing and succeeds; a client or a creation
    that fails ends the run with that error and without a removal.  Once
    the container is created, the calls made on it are a prefix of the
    planned ones (the copies, attach, start, wait), all of them when the
    run succeeds, and the removal of that container follows as the last
    call, whatever failed before. *)
Theorem created_container_is_removed input (st : D * list call) :
  let result := NewDockerRunExecutor input st in
  let create :=
    ContainerCreate (containerConfig input IsTerminal) (Binds input) (Input_Name input) in
  let d := daemon create st.1 in
  (Dryrun input = true → result = (st, None))
  ∧ (∀ err, Dryrun input = false → NewClientWithOpts = Some err →
       result = (st, Some err))
  ∧ (∀ id err, Dryrun input = false → NewClientWithOpts = None →
       created d = (id, Some err) →
       result = ((d, st.2 ++ [create]), Some err))
  ∧ (∀ id, Dryrun input = false → NewClientWithOpts = None →
       created d = (id, None) →
       ∃ n, result.1.2
            = st.2 ++ create :: take n (planned input id) ++ [ContainerRemove id]
            ∧ (result.2 = None → n = length (planned input id))).
Proof.
  intros result create d. unfold result, NewDockerRunExecutor. split_and!.
  - by intros ->.
  - by intros err -> ->.
  - intros id err -> ->. unfold createContainer, invoke_call. simpl.
    fold create d. by intros ->.
  - intros id -> ->. unfold createContainer, invoke_call. simpl.
    fold create d. intros ->.
    destruct (runCreated input id (d, st.2 ++ [create])) as [st' err] eqn:Hrun.
    apply runCreated_calls in Hrun as (n & Hcalls & Hall).
    exists n. simpl in Hcalls |- *. rewrite Hcalls, <- !app_assoc. done.
Qed.

End run_container.


(* ===================================================================== *)
(** ** The daemon socket *)
(* ===================================================================== *)

Section daemon_socket.

Lemma lor_ge_128 a b : 0 <= a → 0 <= b → 128 <= a ∨ 128 <= b → 128 <= Z.lor a b.
Proof.
  intros Ha Hb Hbig.
  assert (0 <= Z.lor a b) as Hnonneg by (by apply Z.lor_nonneg).
  destruct (decide (128 <= Z.lor a b)) as [|Hsmall]; [done|]. exfalso.
  assert (Z.lor a b ≠ 0) as Hne.
  { intros H0. apply Z.lor_eq_0_iff in H0. lia. }
  assert (Z.log2 (Z.lor a b) < 7) as Hlog.
  { apply (Z.log2_lt_pow2 (Z.lor a b) 7); lia. }
  rewrite Z.log2_lor in Hlog by done.
  destruct Hbig as [Hbig|Hbig].
  - assert (a < 2 ^ 7); [|lia]. apply Z.log2_lt_pow2; lia.
  - assert (b < 2 ^ 7); [|lia]. apply Z.log2_lt_pow2; lia.
Qed.

Lemma land_low b n : 0 <= n → Z.land b (Z.ones n) = b mod 2 ^ n.
Proof. apply Z.land_ones. Qed.

(** A byte that is not ASCII starts a rune that is not ASCII, or the
    rune [RuneError]. *)
Lemma decodeRunes_head_high b0 t0 :
  128 <= b0 →
  ∃ r w rest, Go.decodeRunes (b0 :: t0) = (r, w) :: rest ∧ 128 <= r.
Proof.
  intros Hb0.
  assert (128 <= Go.RuneError) as Herror by (unfold Go.RuneError; lia).
  cbn [Go.decodeRunes]. destruct (b0 <? 128) eqn:Hlt; [lia|].
  destruct t0 as [|b1 t1]; [by eauto|].
  unfold Go.accepts2, Go.cont, Go.between.
  change 31 with (Z.ones 5). change 63 with (Z.ones 6).
  change 15 with (Z.ones 4). change 7 with (Z.ones 3).
  rewrite !Z.shiftl_mul_pow2, !land_low by lia.
  destruct ((194 <=? b0) && (b0 <=? 223)) eqn:H2.
  { destruct ((128 <=? b1) && (b1 <=? 191)) eqn:Hc1; [|by eauto].
    do 3 eexists. split; [done|]. apply lor_ge_128; [| |left].
    - pose proof (Z.mod_pos_bound b0 (2 ^ 5)). lia.
    - pose proof (Z.mod_pos_bound b1 (2 ^ 6)). lia.
    - pose proof (Z.mod_pos_bound b0 (2 ^ 5) ltac:(lia)).
      pose proof (Z.div_mod b0 (2 ^ 5) ltac:(lia)). lia. }
  destruct (negb _) eqn:Haccept; [by eauto|].
  apply negb_false_iff, andb_true_iff in Haccept as [Hrange Haccept].
  destruct t1 as [|b2 t2]; [by eauto|].
  rewrite ?Z.shiftl_mul_pow2, ?land_low by lia.
  destruct (negb ((128 <=? b2) && (b2 <=? 191))) eqn:Hc2; [by eauto|].
  apply negb_false_iff in Hc2.
  assert (0 <= b0 mod 2 ^ 4 ∧ 0 <= b0 mod 2 ^ 3 ∧ 0 <= b1 mod 2 ^ 6
          ∧ 0 <= b2 mod 2 ^ 6) as (Hm0 & Hm0' & Hm1 & Hm2).
  { pose proof (Z.mod_pos_bound b0 (2 ^ 4)). pose proof (Z.mod_pos_bound b0 (2 ^ 3)).
    pose proof (Z.mod_pos_bound b1 (2 ^ 6)). pose proof (Z.mod_pos_bound b2 (2 ^ 6)).
    lia. }
  assert (128 <= b0 mod 2 ^ 4 * 2 ^ 12 ∨ 128 <= b1 mod 2 ^ 6 * 2 ^ 6) as Hhigh3.
  { pose proof (Z.div_mod b0 (2 ^ 4) ltac:(lia)).
    pose proof (Z.mod_pos_bound b0 (2 ^ 4) ltac:(lia)).
    pose proof (Z.div_mod b1 (2 ^ 6) ltac:(lia)).
    pose proof (Z.mod_pos_bound b1 (2 ^ 6) ltac:(lia)).
    repeat case_bool_decide; lia. }
  destruct (b0 <? 240) eqn:H3.
  { do 3 eexists. split; [done|].
    destruct Hhigh3 as [Hh|Hh].
    - apply lor_ge_128; [lia| |by left].
      apply Z.lor_nonneg. lia.
    - apply lor_ge_128; [lia| |right].
      + apply Z.lor_nonneg. lia.
      + apply lor_ge_128; [lia|lia|by left]. }
  destruct t2 as [|b3 t3]; [by eauto|].
  rewrite ?Z.shiftl_mul_pow2, ?land_low by lia.
  destruct ((128 <=? b3) && (b3 <=? 191)) eqn:Hc3; [|by eauto].
  assert (0 <= b3 mod 2 ^ 6) as Hm3
    by (pose proof (Z.mod_pos_bound b3 (2 ^ 6)); lia).
  assert (128 <= b0 mod 2 ^ 3 * 2 ^ 18 ∨ 128 <= b1 mod 2 ^ 6 * 2 ^ 12) as Hhigh4.
  { pose proof (Z.div_mod b0 (2 ^ 3) ltac:(lia)).
    pose proof (Z.mod_pos_bound b0 (2 ^ 3) ltac:(lia)).
    pose proof (Z.div_mod b1 (2 ^ 6) ltac:(lia)).
    pose proof (Z.mod_pos_bound b1 (2 ^ 6) ltac:(lia)).
    repeat case_bool_decide; lia. }
  do 3 eexists. split; [done|].
  assert (0 <= Z.lor (b2 mod 2 ^ 6 * 2 ^ 6) (b3 mod 2 ^ 6)) as Hlow
    by (apply Z.lor_nonneg; lia).
  destruct Hhigh4 as [Hh|Hh].
  - apply lor_ge_128; [lia| |by left]. apply Z.lor_nonneg. lia.
  - apply lor_ge_128; [lia| |right].
    + apply Z.lor_nonneg. lia.
    + apply lor_ge_128; [lia|lia|by left].
Qed.

Lemma notLetter_isLetter r : notLetter r = negb (isLetter r).
Proof. unfold notLetter, isLetter, Go.between. lia. Qed.

(** A string all of whose runes are ASCII letters consists of the bytes
    of ASCII letters. *)
Lemma decodeRunes_letters l :
  Forall (λ rw, notLetter rw.1 = false) (Go.decodeRunes l) →
  Forall (λ b, isLetter b = true) l.
Proof.
  induction l as [|b0 t0 IH]; [constructor|]. intros Hrunes.
  destruct (decide (b0 < 128)) as [Hascii|Hhigh].
  - cbn [Go.decodeRunes] in Hrunes.
    destruct (b0 <? 128) eqn:Hlt; [|lia].
    apply Forall_cons in Hrunes as [Hhead Htail]. simpl in Hhead.
    constructor; [|by apply IH].
    rewrite notLetter_isLetter in Hhead. by apply negb_false_iff.
  - destruct (decodeRunes_head_high b0 t0 ltac:(lia)) as (r & w & rest & Heq & Hr).
    rewrite Heq in Hrunes. apply Forall_cons in Hrunes as [Hhead _].
    simpl in Hhead. unfold notLetter in Hhead. lia.
Qed.

Lemma IndexFunc_loop_none f runes i :
  0 <= i → Go.IndexFunc_loop f runes i = -1 → Forall (λ rw, f rw.1 = false) runes.
Proof.
  revert i. induction runes as [|[r w] runes IH]; intros i Hi; [constructor|].
  simpl. destruct (f r) eqn:Hf; [lia|]. intros Hloop.
  constructor; [done|]. eapply IH; [|exact Hloop]. lia.
Qed.

Lemma IndexFunc_loop_all f runes i :
  Forall (λ rw, f rw.1 = false) runes → Go.IndexFunc_loop f runes i = -1.
Proof.
  intros Hall. revert i. induction Hall as [|[r w] runes Hr _ IH]; intros i; [done|].
  simpl in Hr |- *. by rewrite Hr.
Qed.

Lemma HasPrefix_app s p : Go.HasPrefix s p = true → ∃ rest, s = p +:+ rest.
Proof.
  revert s. induction p as [|c p IH]; intros s.
  - exists s. by destruct s.
  - destruct s as [|d s]; [done|]. simpl.
    case_bool_decide as Hc; [|done]. simpl. intros Hp.
    destruct (IH s Hp) as [rest ->]. subst. by exists rest.
Qed.

Lemma substring_0_0 s : String.substring 0 0 s = "".
Proof. by destruct s. Qed.

Lemma Index_found s substr :
  Go.Index s substr ≠ -1 →
  0 <= Go.Index s substr
  ∧ ∃ rest, s = String.substring 0 (Z.to_nat (Go.Index s substr)) s +:+ substr +:+ rest.
Proof.
  induction s as [|c s IH].
  - cbn [Go.Index]. destruct (Go.HasPrefix "" substr) eqn:Hp;
      [|intros Hn; by destruct Hn]. intros _.
    split; [done|]. apply HasPrefix_app in Hp as [rest Hrest]. by exists rest.
  - cbn [Go.Index]. destruct (Go.HasPrefix (String c s) substr) eqn:Hp.
    + intros _. split; [done|]. apply HasPrefix_app in Hp as [rest Hrest].
      exists rest. by rewrite substring_0_0.
    + destruct (Go.Index s substr <? 0) eqn:Hneg; [intros Hn; by destruct Hn|].
      intros _.
      destruct IH as [Hi [rest Hrest]]; [lia|].
      split; [lia|]. exists rest.
      replace (Z.to_nat (Go.Index s substr + 1))
        with (S (Z.to_nat (Go.Index s substr))) by lia.
      cbn [String.substring].
      change (String c s = String c (String.substring 0 (Z.to_nat (Go.Index s substr)) s
                                      +:+ substr +:+ rest)).
      by f_equal.
Qed.

Lemma isLetter_not_colon c s :
  isLetter (Z.of_N (N_of_ascii c)) = true → Go.HasPrefix (String c s) "://" = false.
Proof.
  intros Hc. simpl. case_bool_decide as Heq; [|done]. subst c.
  by vm_compute in Hc.
Qed.

Lemma Index_scheme scheme rest :
  Forall (λ b, isLetter b = true) (Go.bytes_of scheme) →
  Go.Index (scheme +:+ "://" +:+ rest) "://" = Z.of_nat (String.length scheme).
Proof.
  induction scheme as [|c scheme IH]; intros Hletters.
  - simpl. by destruct rest.
  - rewrite bytes_of_String in Hletters. apply Forall_cons in Hletters as [Hc Hs].
    change (String c scheme +:+ "://" +:+ rest)
      with (String c (scheme +:+ "://" +:+ rest)).
    cbn [Go.Index]. rewrite isLetter_not_colon by done.
    rewrite IH by done. destruct (_ <? 0) eqn:Hneg; [lia|].
    cbn [String.length]. lia.
Qed.

Lemma substring_prefix a b : String.substring 0 (String.length a) (a +:+ b) = a.
Proof.
  induction a as [|c a IH]; simpl.
  - apply substring_0_0.
  - by rewrite IH.
Qed.

(** A string that starts with a scheme of letters and [://] is a Docker
    host URI. *)
Lemma isDockerHostURI_scheme scheme rest :
  Forall (λ b, isLetter b = true) (Go.bytes_of scheme) →
  isDockerHostURI (scheme +:+ "://" +:+ rest) = true.
Proof.
  intros Hletters. unfold isDockerHostURI. rewrite Index_scheme by done.
  rewrite bool_decide_eq_true_2 by lia.
  rewrite Nat2Z.id, substring_prefix.
  rewrite bool_decide_eq_true_2; [done|].
  unfold Go.IndexFunc. apply IndexFunc_loop_all.
  rewrite decodeRunes_ascii.
  - apply Forall_fmap. eapply Forall_impl; [exact Hletters|].
    intros b Hb. simpl. rewrite notLetter_isLetter, Hb. done.
  - eapply Forall_impl; [exact Hletters|]. intros b Hb. simpl.
    unfold isLetter, Go.between in Hb. lia.
Qed.

(** X13: [isDockerHostURI] holds exactly of the strings that consist of
    a scheme of ASCII letters, possibly none, followed by [://] and
    anything. *)
Theorem docker_host_uri_has_alphabetic_scheme (daemonPath : string) :
  isDockerHostURI daemonPath = true
  ↔ ∃ scheme rest,
      daemonPath = scheme +:+ "://" +:+ rest
      ∧ Forall (λ b, isLetter b = true) (Go.bytes_of scheme).
Proof.
  split.
  - unfold isDockerHostURI. case_bool_decide as Hfound; [|done].
    case_bool_decide as Hscheme; [|done]. intros _.
    destruct (Index_found _ _ Hfound) as [Hi [rest Hrest]].
    eexists _, rest. split; [exact Hrest|].
    apply decodeRunes_letters.
    by apply (IndexFunc_loop_none notLetter _ 0).
  - intros (scheme & rest & -> & Hletters). by apply isDockerHostURI_scheme.
Qed.

Context `{HostSystem}.

Lemma socketLocation_loop_found paths :
  (socketLocation_loop paths).2 = true
  ↔ ∃ p, p ∈ paths ∧ Lstat (ExpandEnv p) = None.
Proof.
  induction paths as [|p paths IH]; simpl.
  - split; [done|]. intros (p & Hp & _). by apply elem_of_nil in Hp.
  - destruct (Lstat (ExpandEnv p)) as [err|] eqn:Hstat.
    + rewrite IH. split.
      * intros (q & Hq & Hfound). exists q. split; [by right|done].
      * intros (q & Hq & Hfound). apply elem_of_cons in Hq as [->|Hq];
          [congruence|]. by exists q.
    + split; [|by case_match]. intros _. exists p. split; [left|done].
Qed.

Lemma socketLocation_loop_uri paths :
  (socketLocation_loop paths).2 = true →
  isDockerHostURI (socketLocation_loop paths).1 = true.
Proof.
  induction paths as [|p paths IH]; simpl; [done|].
  destruct (Lstat (ExpandEnv p)) as [err|]; [done|]. intros _.
  case_match; simpl.
  - apply (isDockerHostURI_scheme "npipe"). by repeat constructor.
  - apply (isDockerHostURI_scheme "unix"). by repeat constructor.
Qed.

Lemma socketLocation_loop_missing paths :
  (socketLocation_loop paths).2 = false → socketLocation_loop paths = ("", false).
Proof.
  induction paths as [|p paths IH]; simpl; [done|].
  destruct (Lstat (ExpandEnv p)) as [err|]; [done|]. by case_match.
Qed.

(** X14: with the host variable set, [GetSocketAndHost] never fails: the
    host is handed back as given and the socket is the one given, else
    the value of the variable, else the default location.  Without it, a
    given socket is accepted when it is a URI and is the error [not
    found] otherwise (a dash or a file path); an omitted socket becomes
    the default location, which is accepted when it is a URI and is the
    error of the last return otherwise.  The host is never changed, and
    an error comes with the zero value. *)
Theorem socket_and_host_cases (containerSocket dockerHost : string) :
  let result := GetSocketAndHost containerSocket dockerHost in
  (∀ value, LookupEnv dockerHost = Some value →
     result =
       (mkSocketAndHost
          (if decide (containerSocket ≠ "") then containerSocket
           else if decide (value ≠ "") then value
           else socketLocation.1)
          dockerHost, None))
  ∧ (LookupEnv dockerHost = None → containerSocket ≠ "" →
     result = if isDockerHostURI containerSocket
              then (mkSocketAndHost containerSocket dockerHost, None)
              else (mkSocketAndHost "" "", Some socketNotFound))
  ∧ (LookupEnv dockerHost = None → containerSocket = "" →
     result = if isDockerHostURI socketLocation.1
              then (mkSocketAndHost socketLocation.1 dockerHost, None)
              else (mkSocketAndHost "" "", Some (invalidSocket socketLocation.1)))
  ∧ (result.2 = None → Host result.1 = dockerHost).
Proof.
  intros result. unfold result, GetSocketAndHost. simpl. split_and!.
  - intros value ->. simpl.
    repeat (case_bool_decide || case_decide); simpl in *; try done; congruence.
  - intros -> Hne. simpl. rewrite (bool_decide_eq_true_2 _ Hne). simpl.
    destruct (isDockerHostURI containerSocket) eqn:Huri; simpl; [|done].
    rewrite (bool_decide_eq_false_2 (containerSocket = "")) by done. simpl.
    rewrite (bool_decide_eq_false_2 (containerSocket = "")) by done.
    simpl. by rewrite Huri.
  - intros -> ->. simpl.
    by destruct (isDockerHostURI socketLocation.1) eqn:Huri.
  - destruct (LookupEnv dockerHost) as [value|]; simpl.
    + by repeat case_bool_decide.
    + repeat (case_bool_decide || case_match); simpl; try done.
Qed.

(** X15: the default location is the value of [DOCKER_HOST] when that
    variable is set; otherwise it is found exactly when one of the
    common socket paths exists, and is then a Docker host URI; when none
    exists it is the empty string.  So, with no variable set and the
    socket omitted, [GetSocketAndHost] succeeds exactly when a common
    socket path exists, and fails through its last return when none
    does. *)
Theorem default_socket_location :
  (∀ value, LookupEnv "DOCKER_HOST" = Some value → socketLocation = (value, true))
  ∧ (LookupEnv "DOCKER_HOST" = None →
     (socketLocation.2 = true
        ↔ ∃ p, p ∈ CommonSocketPaths ∧ Lstat (ExpandEnv p) = None)
     ∧ (socketLocation.2 = true → isDockerHostURI socketLocation.1 = true)
     ∧ (socketLocation.2 = false → socketLocation = ("", false))
     ∧ ∀ dockerHost, LookupEnv dockerHost = None →
         ((GetSocketAndHost "" dockerHost).2 = None
            ↔ ∃ p, p ∈ CommonSocketPaths ∧ Lstat (ExpandEnv p) = None)
         ∧ (socketLocation.2 = false →
            GetSocketAndHost "" dockerHost
            = (mkSocketAndHost "" "", Some (invalidSocket "")))).
Proof.
  split.
  - intros value Hset. unfold socketLocation. by rewrite Hset.
  - intros Hunset.
    assert (socketLocation = socketLocation_loop CommonSocketPaths) as Hloc.
    { unfold socketLocation. by rewrite Hunset. }
    rewrite Hloc. split_and!.
    + apply socketLocation_loop_found.
    + apply socketLocation_loop_uri.
    + apply socketLocation_loop_missing.
    + intros dockerHost Hhost. unfold GetSocketAndHost.
      cbv zeta. cbn [Host Socket]. rewrite Hhost, Hloc.
      pose proof (socketLocation_loop_found CommonSocketPaths) as Hiff.
      pose proof (socketLocation_loop_uri CommonSocketPaths) as Huri.
      pose proof (socketLocation_loop_missing CommonSocketPaths) as Hmissing.
      destruct (socketLocation_loop CommonSocketPaths) as [path found].
      cbn [fst snd] in *. cbn [negb andb Socket Host].
      rewrite bool_decide_eq_false_2 by tauto.
      rewrite bool_decide_eq_true_2 by done. cbn [negb andb Socket Host].
      rewrite bool_decide_eq_true_2 by done. cbn [Socket].
      destruct found.
      * rewrite Huri by done. cbn [snd]. split; [|done].
        split; [|done]. intros _. by apply Hiff.
      * injection (Hmissing eq_refl) as ->.
        change (isDockerHostURI "") with false. cbn [snd]. split; [|done].
        split; [done|]. intros Hex. apply Hiff in Hex. congruence.
Qed.

End daemon_socket.


(* ===================================================================== *)
(** ** The script of a step: names, shells and command lines *)
(* ===================================================================== *)

Section script_extras.
Context `{ShellCollaborators}.

Lemma length_append (a b : string) :
  String.length (a +:+ b) = (String.length a + String.length b)%nat.
Proof. induction a as [|c a IH]; simpl; [done|]. by rewrite IH. Qed.

Lemma append_inv_tail (x y a : string) : x +:+ a = y +:+ a → x = y.
Proof.
  revert y. induction x as [|c x IH]; intros [|d y] Heq; simpl in Heq.
  - done.
  - apply (f_equal String.length) in Heq.
    rewrite !length_append in Heq. simpl in Heq. lia.
  - apply (f_equal String.length) in Heq.
    rewrite !length_append in Heq. simpl in Heq. lia.
  - change (String c (x +:+ a) = String d (y +:+ a)) in Heq.
    injection Heq as -> Heq. f_equal. by apply IH.
Qed.

Lemma append_empty_r (s : string) : s +:+ "" = s.
Proof.
  induction s as [|c s IH]; [done|].
  change (String c s +:+ "") with (String c (s +:+ "")). by rewrite IH.
Qed.

(** The enclosing contexts put one prefix in front of the step id. *)
Lemma compositeName_prefix (enclosing : list RunContext) :
  ∃ front, ∀ id, compositeName id enclosing = front +:+ id.
Proof.
  induction enclosing as [|parent enclosing [front IH]].
  - by exists "".
  - exists (front +:+ CurrentStep parent +:+ "-composite-"). intros id.
    unfold compositeName in IH |- *. simpl. rewrite IH.
    by rewrite !string_app_assoc.
Qed.

(** X16: in one run context two steps get the same script name only
    when they have the same id, also once the extension of a common
    shell is appended. *)
Theorem script_names_do_not_collide rc (step1 step2 : Step) (ext : string) :
  getScriptName rc step1 +:+ ext = getScriptName rc step2 +:+ ext →
  ID step1 = ID step2.
Proof.
  intros Heq. apply append_inv_tail in Heq.
  rewrite !getScriptName_ancestors in Heq.
  destruct (compositeName_prefix (ancestors rc)) as [front Hfront].
  rewrite !Hfront in Heq.
  apply (inj (String.append "workflow/")) in Heq.
  by apply (inj (String.append front)) in Heq.
Qed.

(** X17: [setupShellCommand] changes nothing of the step but its shell
    and working directory, and nothing of the run context.  The shell is
    the interpolated shell of the step, or of the job's defaults when
    the step declares none; when that text is empty it is the shell of
    the workflow's defaults, and when that is empty too it is [sh] in a
    job whose container names an image and stays empty otherwise.  So a
    step whose own shell interpolates to the empty string does not get
    the job's default.  The working directory follows the same order,
    without the last step. *)
Theorem shell_and_directory_precedence sc :
  let rc := SC_RunContext sc in
  let step := SC_Step sc in
  let job := Run_Job (RC_Run rc) in
  let workflow := Run_Workflow (RC_Run rc) in
  let step' := SC_Step (setupShellCommand sc).1 in
  let declared :=
    ExprEval_Interpolate rc
      (if decide (Shell step = "")
       then RunDefaults_Shell (Job_Defaults job) else Shell step) in
  let directory :=
    ExprEval_Interpolate rc
      (if decide (WorkingDirectory step = "")
       then RunDefaults_WorkingDirectory (Job_Defaults job)
       else WorkingDirectory step) in
  let image := default "" (Image <$> Container job) in
  SC_RunContext (setupShellCommand sc).1 = rc
  ∧ step' = setWorkingDirectory (setShell step (Shell step')) (WorkingDirectory step')
  ∧ (declared ≠ "" → Shell step' = declared)
  ∧ (declared = "" → RunDefaults_Shell (Workflow_Defaults workflow) ≠ "" →
     Shell step' = RunDefaults_Shell (Workflow_Defaults workflow))
  ∧ (declared = "" → RunDefaults_Shell (Workflow_Defaults workflow) = "" →
     Shell step' = if decide (image = "") then "" else "sh")
  ∧ WorkingDirectory step'
    = (if decide (directory = "")
       then RunDefaults_WorkingDirectory (Workflow_Defaults workflow)
       else directory).
Proof.
  intros rc step job workflow step' declared directory image.
  unfold step'. rewrite setupShellCommand_unfold. cbn [fst SC_Step SC_RunContext].
  fold rc. clear step'.
  assert (SC_Step (setupShell sc) =
          setShell step
            (if decide (declared = "") then
               if decide (RunDefaults_Shell (Workflow_Defaults workflow) = "")
               then (if decide (image = "") then "" else "sh")
               else RunDefaults_Shell (Workflow_Defaults workflow)
             else declared)) as Hshell.
  { unfold setupShell, declared, image. fold rc step. cbn [SC_Step].
    fold job workflow.
    destruct (Container job) as [c|];
      cbn [fmap option_fmap option_map default];
      repeat first [ case_bool_decide | case_decide
                   | progress (cbn [setShell Shell andb] in *) ];
      try done; try congruence;
      unfold setShell;
      cbn [ID Name Uses Run WorkingDirectory Shell Env With RawContinueOnError];
      congruence. }
  assert (SC_RunContext (setupShell sc) = rc) as Hrc by done.
  unfold setupWorkingDirectory. rewrite Hrc, Hshell. cbn [SC_Step].
  fold job workflow.
  set (shell := if decide (declared = "") then _ else _).
  unfold directory.
  repeat first [ case_bool_decide | case_decide
               | progress (cbn [setWorkingDirectory setShell WorkingDirectory Shell]
                             in *) ];
    (split_and!; [done|done|..]); try done; try congruence; unfold shell;
    intros; repeat case_decide; try done; try congruence.
Qed.

Lemma Index_lower s substr : -1 <= Go.Index s substr.
Proof.
  induction s as [|c s IH]; cbn [Go.Index]; repeat case_match; lia.
Qed.

(** Where [old] does not occur, [strings.Replace] changes nothing. *)
Lemma Replace1_absent s old new : Go.Index s old = -1 → Go.Replace1 s old new = s.
Proof.
  induction s as [|c s IH]; cbn [Go.Index Go.Replace1].
  - by destruct (Go.HasPrefix "" old).
  - destruct (Go.HasPrefix (String c s) old); [done|].
    pose proof (Index_lower s old).
    destruct (Go.Index s old <? 0) eqn:Hneg; [|lia].
    intros _. rewrite IH; [done|lia].
Qed.

(** X18: a step whose shell is still empty once resolved is run with
    the command line of bash, yet its script file gets no extension,
    unlike that of a step whose shell is [bash].  A shell that is none
    of the known ones is its own command line; when it holds no [{0}]
    the path of the script is not part of the command at all. *)
Theorem step_without_shell_runs_bash_without_extension sc :
  let result := setupShellCommand sc in
  let step' := SC_Step result.1 in
  let name := result.2.1.1 in
  let bash := "bash --noprofile --norc -e -o pipefail " in
  (Shell step' = "" →
     name = getScriptName (SC_RunContext sc) step'
     ∧ (Cmd result.1, result.2.2) = shellquote_Split (bash +:+ ActPath +:+ "/" +:+ name))
  ∧ (Shell step' = "bash" →
     name = getScriptName (SC_RunContext sc) step' +:+ ".sh"
     ∧ (Cmd result.1, result.2.2) = shellquote_Split (bash +:+ ActPath +:+ "/" +:+ name))
  ∧ (Shell step' ∉ knownShells →
     name = getScriptName (SC_RunContext sc) step'
     ∧ ShellCommand step' = Shell step'
     ∧ (Go.Index (Shell step') "{0}" = -1 →
        (Cmd result.1, result.2.2) = shellquote_Split (Shell step'))).
Proof.
  intros result step' name bash. unfold name, step', result.
  rewrite setupShellCommand_unfold. cbn [fst snd SC_Step Cmd].
  set (step := SC_Step (setupWorkingDirectory (setupShell sc))).
  set (rc := SC_RunContext sc).
  assert (∀ p, Go.Replace1 "bash --noprofile --norc -e -o pipefail {0}" "{0}" p
               = bash +:+ p) as Hbash.
  { intros p. simpl. unfold bash. by rewrite append_empty_r. }
  split_and!.
  - intros Hshell. unfold ShellCommand. rewrite Hshell.
    change (shellWrapping "") with ("", "", ""). cbn [fst snd].
    rewrite append_empty_r. split; [done|].
    rewrite bool_decide_eq_true_2 by (left).
    rewrite Hbash. by destruct (shellquote_Split _).
  - intros Hshell. unfold ShellCommand. rewrite Hshell.
    change (shellWrapping "bash") with (".sh", "", ""). cbn [fst snd]. split; [done|].
    rewrite bool_decide_eq_true_2 by (right; left).
    rewrite Hbash. by destruct (shellquote_Split _).
  - intros Hcustom. unfold knownShells in Hcustom.
    rewrite !not_elem_of_cons in Hcustom.
    destruct Hcustom as (? & ? & ? & ? & ? & ? & ? & _).
    assert (shellWrapping (Shell step) = ("", "", "")) as ->.
    { unfold shellWrapping.
      rewrite !bool_decide_eq_false_2; [done|done|done|..];
        rewrite !not_elem_of_cons; split_and!; try done; apply not_elem_of_nil. }
    assert (ShellCommand step = Shell step) as Hcmd.
    { unfold ShellCommand.
      rewrite !bool_decide_eq_false_2; [done|done|done|done|done|done|..].
      rewrite !not_elem_of_cons; split_and!; try done; apply not_elem_of_nil. }
    cbn [fst snd]. rewrite append_empty_r. split_and!; [done|done|].
    intros Habsent. rewrite Hcmd, Replace1_absent by done.
    by destruct (shellquote_Split _).
Qed.

End script_extras.


(* ===================================================================== *)
(** ** Merging environments: both modes *)
(* ===================================================================== *)

Section merge_extras.
Context `{UnicodeTables} `{MapRange}.

Lemma foldl_concat {A B} (f : A → B → A) (a : A) (ls : list (list B)) :
  foldl f a (concat ls) = foldl (λ a l, foldl f a l) a ls.
Proof.
  revert a. induction ls as [|l ls IH]; intros a; [done|].
  simpl. by rewrite foldl_app, IH.
Qed.

(** The case-sensitive merge writes the entries of the maps in order. *)
Lemma mergeIntoMapCaseSensitive_writes target (maps : list (gmap string string)) :
  mergeIntoMapCaseSensitive target maps
  = foldl (λ target '(k, v), <[k := v]> target) target (concat (range <$> maps)).
Proof.
  unfold mergeIntoMapCaseSensitive. rewrite foldl_concat.
  revert target. induction maps as [|m maps IH]; intros target; [done|].
  simpl. by rewrite IH.
Qed.

Lemma sensitive_lookup target (maps : list (gmap string string)) k :
  mergeIntoMapCaseSensitive target maps !! k
  = match last (filter (λ kv, kv.1 = k) (concat (range <$> maps))) with
    | Some kv => Some kv.2
    | None => target !! k
    end.
Proof.
  rewrite mergeIntoMapCaseSensitive_writes.
  apply (foldl_insert_lookup (λ k, k)).
Qed.

(** Writing the entries of a map, in any order, is a union that prefers
    that map. *)
Lemma merge_one_map (target m : gmap string string) :
  foldl (λ target '(k, v), <[k := v]> target) target (range m) = m ∪ target.
Proof.
  apply map_eq. intros k.
  rewrite (foldl_insert_lookup (λ k, k)).
  destruct (m !! k) as [v|] eqn:Hk.
  - rewrite (last_filter_key (range m) k v);
      [| apply NoDup_range | by apply elem_of_range].
    symmetry. by apply lookup_union_Some_l.
  - rewrite lookup_union_r by done.
    destruct (last _) as [[k' v']|] eqn:Hlast; [|done].
    apply last_filter_elem_of in Hlast as [Hin Hk']. simpl in Hk'. subst k'.
    apply elem_of_range in Hin. congruence.
Qed.

(** X19: the case-sensitive merge is the union of the maps over the
    target in which a later map wins over an earlier one and every map
    over the target, in whatever order the maps are visited: a key
    holds the value of the last map that has it, and what the target
    held when no map has it. *)
Theorem case_sensitive_merge_is_union target (maps : list (gmap string string)) :
  mergeIntoMapCaseSensitive target maps = foldl (λ target m, m ∪ target) target maps
  ∧ ∀ k, mergeIntoMapCaseSensitive target maps !! k
         = match last (filter (λ m : gmap string string, is_Some (m !! k)) maps) with
           | Some m => m !! k
           | None => target !! k
           end.
Proof.
  assert (∀ target, mergeIntoMapCaseSensitive target maps
                    = foldl (λ target m, m ∪ target) target maps) as Hunion.
  { unfold mergeIntoMapCaseSensitive. clear target.
    induction maps as [|m maps IH]; intros target; [done|].
    simpl. by rewrite merge_one_map, IH. }
  split; [done|]. intros k. rewrite Hunion. clear Hunion.
  induction maps as [|m maps IH] using rev_ind; [done|].
  rewrite foldl_app, filter_app, last_app. simpl.
  rewrite filter_cons, filter_nil.
  destruct (decide (is_Some (m !! k))) as [[v Hv]|Hnone]; simpl.
  - rewrite Hv. by apply lookup_union_Some_l.
  - rewrite lookup_union_r; [done|]. by apply eq_None_not_Some.
Qed.

Lemma elem_of_concat {A} (x : A) (ls : list (list A)) :
  x ∈ concat ls ↔ ∃ l, x ∈ l ∧ l ∈ ls.
Proof.
  induction ls as [|l ls IH]; simpl.
  - split; [by intros ?%elem_of_nil|]. by intros (l & _ & ?%elem_of_nil).
  - rewrite elem_of_app, IH. split.
    + intros [Hx|(l' & Hx & Hl')].
      * exists l. split; [done|left].
      * exists l'. split; [done|by right].
    + intros (l' & Hx & [->|Hl']%elem_of_cons); [by left|].
      right. by exists l'.
Qed.

Lemma elem_of_writes target (maps : list (gmap string string)) k v :
  (k, v) ∈ writes target maps
  ↔ target !! k = Some v ∨ ∃ m, m ∈ maps ∧ m !! k = Some v.
Proof.
  unfold writes. rewrite elem_of_app, elem_of_range. apply or_iff_compat_l.
  rewrite elem_of_concat. split.
  - intros (l & Hin & Hl). apply list_elem_of_fmap in Hl as (m & -> & Hm).
    exists m. split; [done|]. by apply elem_of_range.
  - intros (m & Hm & Hk). exists (range m). split; [by apply elem_of_range|].
    apply list_elem_of_fmap. by exists m.
Qed.

Lemma firstSpelling_written name ws k :
  firstSpelling name ws = Some k → ∃ v, (k, v) ∈ ws.
Proof.
  unfold firstSpelling, writesTo. intros Hfirst.
  destruct (filter _ ws) as [|[k' v] l] eqn:Hf; [done|].
  simpl in Hfirst. injection Hfirst as ->. exists v.
  assert ((k, v) ∈ filter (λ kv, foldKey kv.1 = name) ws) as Hin
    by (rewrite Hf; left).
  by apply list_elem_of_filter in Hin as [_ ?].
Qed.

Lemma lastValue_written name ws k :
  firstSpelling name ws = Some k → is_Some (lastValue name ws).
Proof.
  unfold firstSpelling, lastValue. intros Hfirst.
  destruct (writesTo name ws) as [|kv l] eqn:Hf; [done|].
  apply fmap_is_Some, last_is_Some. done.
Qed.

(** A write to a name gives the name a first spelling. *)
Lemma written_firstSpelling ws k v :
  (k, v) ∈ ws → ∃ k', firstSpelling (foldKey k) ws = Some k'.
Proof.
  intros Hin. unfold firstSpelling, writesTo.
  assert ((k, v) ∈ filter (λ kv, foldKey kv.1 = foldKey k) ws) as Hf
    by (by apply list_elem_of_filter).
  destruct (filter _ ws) as [|[k' v'] l]; [by apply elem_of_nil in Hf|].
  by exists k'.
Qed.

Lemma filter_iff_in {A} (P Q : A → Prop) `{!∀ x, Decision (P x)}
    `{!∀ x, Decision (Q x)} (l : list A) :
  (∀ x, x ∈ l → P x ↔ Q x) → filter P l = filter Q l.
Proof.
  induction l as [|x l IH]; intros Hiff; [done|].
  rewrite !filter_cons.
  rewrite IH by (intros y Hy; apply Hiff; by right).
  destruct (decide (P x)) as [HP|HP].
  - rewrite decide_True; [done|]. apply Hiff; [left|done].
  - rewrite decide_False; [done|]. intros HQ. apply HP, Hiff; [left|done].
Qed.

(** X20: where no two of the keys written (those of the target and of
    the maps) are spellings of one name, the case-insensitive merge
    gives the same map as the case-sensitive one; merging no map at all
    then leaves the target as it is. *)
Theorem merges_agree_without_case_clashes target (maps : list (gmap string string)) :
  (∀ k1 k2, k1 ∈ (writes target maps).*1 → k2 ∈ (writes target maps).*1 →
     foldKey k1 = foldKey k2 → k1 = k2) →
  mergeIntoMapCaseInsensitive target maps = mergeIntoMapCaseSensitive target maps
  ∧ (maps = [] → mergeIntoMapCaseInsensitive target maps = target).
Proof.
  intros Hinj.
  assert (mergeIntoMapCaseInsensitive target maps
          = mergeIntoMapCaseSensitive target maps) as Hagree.
  { apply map_eq. intros k. rewrite merge_lookup, sensitive_lookup.
    set (ws := writes target maps) in *.
    set (rest := concat (range <$> maps)).
    assert (ws = range target ++ rest) as Hws by done.
    destruct (decide (k ∈ ws.*1)) as [Hk|Hk].
    - assert (writesTo (foldKey k) ws = filter (λ kv, kv.1 = k) ws) as Hsame.
      { unfold writesTo. apply filter_iff_in. intros [k' v'] Hin. simpl.
        split; [|by intros ->]. intros Hfold. apply Hinj; [|done|done].
        apply list_elem_of_fmap. by exists (k', v'). }
      apply list_elem_of_fmap in Hk as ([k' v] & Hkeq & Hin).
      simpl in Hkeq. subst k'.
      assert ((k, v) ∈ filter (λ kv : string * string, kv.1 = k) ws) as Hf
        by (by apply list_elem_of_filter).
      unfold firstSpelling, lastValue. rewrite Hsame.
      assert (fst <$> head (filter (λ kv : string * string, kv.1 = k) ws) = Some k)
        as ->.
      { destruct (filter _ ws) as [|[k1 v1] l] eqn:Hfilter;
          [by apply elem_of_nil in Hf|].
        assert ((k1, v1) ∈ filter (λ kv : string * string, kv.1 = k) ws) as H1
          by (rewrite Hfilter; left).
        apply list_elem_of_filter in H1 as [H1 _]. simpl in H1 |- *. by subst. }
      rewrite decide_True by done.
      rewrite Hws, filter_app, last_app.
      fold rest. destruct (last (filter _ rest)) as [kv|] eqn:Hlast; [done|].
      destruct (target !! k) as [v'|] eqn:Htarget.
      + by rewrite (last_filter_key (range target) k v');
          [| apply NoDup_range | apply elem_of_range].
      + rewrite Hws, filter_app in Hf. apply elem_of_app in Hf as [Hf|Hf].
        * apply list_elem_of_filter in Hf as [_ Hf]. apply elem_of_range in Hf.
          congruence.
        * apply last_None in Hlast. rewrite Hlast in Hf.
          by apply elem_of_nil in Hf.
    - rewrite decide_False.
      + destruct (last _) as [[k' v']|] eqn:Hlast; [|done]. exfalso.
        apply last_filter_elem_of in Hlast as [Hin Hk']. simpl in Hk'. subst k'.
        apply Hk, list_elem_of_fmap. exists (k, v'). split; [done|].
        rewrite Hws. apply elem_of_app. by right.
      + intros Hfirst. apply firstSpelling_written in Hfirst as [v Hin].
        apply Hk, list_elem_of_fmap. by exists (k, v). }
  split; [done|]. intros ->. by rewrite Hagree.
Qed.

End merge_extras.

Section merge_into_map.
Context {W : Type} `{Collaborators W} `{UnicodeTables} `{MapRange}.

(** A key of one of the maps is a key of the merged map: the key
    itself in the case-sensitive mode, a spelling of its name in the
    case-insensitive one. *)
Lemma mergeIntoMap_holds_name target (maps : list (gmap string string)) m k :
  m ∈ maps → is_Some (m !! k) →
  ∃ k', foldKey k' = foldKey k ∧ is_Some (mergeIntoMap target maps !! k')
        ∧ (IsEnvironmentCaseInsensitive = false → k' = k).
Proof.
  unfold mergeIntoMap. intros Hm [v Hv]. destruct IsEnvironmentCaseInsensitive.
  - assert ((k, v) ∈ writes target maps) as Hin
      by (apply elem_of_writes; right; eauto).
    destruct (written_firstSpelling _ _ _ Hin) as [k' Hfirst].
    pose proof (firstSpelling_fold _ _ _ Hfirst) as Hfold.
    exists k'. split_and!; [done| |done].
    rewrite merge_lookup, Hfold, decide_True by done.
    by eapply lastValue_written.
  - exists k. split_and!; [done| |done].
    rewrite sensitive_lookup.
    destruct (last _) as [kv|] eqn:Hlast; [done|]. exfalso.
    pose proof (proj1 (last_filter_None _ _) Hlast (k, v)) as Hnot.
    apply Hnot; [|done].
    apply elem_of_concat. exists (range m). split; [by apply elem_of_range|].
    apply list_elem_of_fmap. by exists m.
Qed.

(** X21: in either mode of the environment, [mergeIntoMap] takes no key
    away from the target, and a key of the result is a key of the target
    or of one of the maps.  Every key of a map is a key of the result in
    the case-sensitive mode, and under some spelling of its name in the
    case-insensitive one. *)
Theorem merge_keeps_every_key target (maps : list (gmap string string)) (k : string) :
  (is_Some (target !! k) → is_Some (mergeIntoMap target maps !! k))
  ∧ (is_Some (mergeIntoMap target maps !! k) →
     is_Some (target !! k) ∨ ∃ m, m ∈ maps ∧ is_Some (m !! k))
  ∧ (∀ m, m ∈ maps → is_Some (m !! k) →
     ∃ k', foldKey k' = foldKey k ∧ is_Some (mergeIntoMap target maps !! k')
           ∧ (IsEnvironmentCaseInsensitive = false → k' = k)).
Proof.
  split_and!; [..|intros m; apply mergeIntoMap_holds_name];
    unfold mergeIntoMap; destruct IsEnvironmentCaseInsensitive.
  - intros Hk. rewrite merge_lookup. case_decide as Hfirst; [|done].
    by eapply lastValue_written.
  - intros Hk. rewrite sensitive_lookup. by destruct (last _).
  - rewrite merge_lookup. case_decide as Hfirst; [|by left]. intros _.
    apply firstSpelling_written in Hfirst as [v Hin].
    apply elem_of_writes in Hin as [Hin|(m & Hm & Hin)]; [left|right]; eauto.
  - rewrite sensitive_lookup.
    destruct (last _) as [[k' v']|] eqn:Hlast; [|by left]. intros _. right.
    apply last_filter_elem_of in Hlast as [Hin Hk']. simpl in Hk'. subst k'.
    apply elem_of_concat in Hin as (l & Hin & Hl).
    apply list_elem_of_fmap in Hl as (m & -> & Hm).
    exists m. split; [done|]. apply elem_of_range in Hin. eauto.
Qed.

End merge_into_map.


(* ===================================================================== *)
(** ** The stages of a step invocation *)
(* ===================================================================== *)

Ltac stages :=
  cbv beta iota zeta delta
    [mbind M_bind mret M_ret Return modify gets setConclusion setOutcome run].

Section lifecycle_extras.
Context {W : Type} `{Collaborators W} `{UnicodeTables} `{MapRange}.

Lemma installed_state step stage s :
  world (installed step stage s) = world s
  ∧ evaluated (installed step stage s) = evaluated s.
Proof.
  unfold installed, install, setupEnv, mergeEnv, interpolateEnv.
  destruct (decide (stage = stepStageMain)); done.
Qed.

(** X22: [setupEnv] never fails and changes nothing but the environment
    of the step.  Interpolation adds and removes no variable: the
    variables afterwards are those of the merged environment.  Every
    variable the step declares, in [env] or through [with], is set
    afterwards, under its own key in a case-sensitive environment and
    under a spelling of its name in a case-insensitive one; in a
    case-sensitive environment the merged environment holds the step's
    value for it, whatever the job or the container declared. *)
Theorem setup_env_sets_the_declared_variables (st : step) (s : State W) :
  let final := (setupEnv st s).1 in
  (setupEnv st s).2 = inl None
  ∧ (rc final, heap final, world final, evaluated final)
    = (rc s, heap s, world s, evaluated s)
  ∧ (∀ k, is_Some (stepEnv final !! k) ↔ is_Some (mergedEnv st s !! k))
  ∧ (∀ k, is_Some (GetEnv (getStepModel st) !! k) →
       ∃ k', foldKey k' = foldKey k ∧ is_Some (stepEnv final !! k')
             ∧ (IsEnvironmentCaseInsensitive = false → k' = k))
  ∧ (IsEnvironmentCaseInsensitive = false →
     ∀ k v, GetEnv (getStepModel st) !! k = Some v → mergedEnv st s !! k = Some v).
Proof.
  intros final.
  assert (∀ k, is_Some (stepEnv final !! k) ↔ is_Some (mergedEnv st s !! k)) as Hkeys.
  { intros k. unfold final, setupEnv, mergeEnv, interpolateEnv, mergedEnv. stages.
    unfold setStepEnv. cbn [stepEnv rc world heap evaluated fst].
    rewrite !map_lookup_imap.
    destruct (Container _); by destruct (mergeIntoMap _ _ !! k). }
  split_and!; [done|done|done|..].
  - intros k Hk.
    destruct (mergeIntoMap_holds_name
                (withGithubEnv (world s)
                   (mergeIntoMap (stepEnv s)
                      match Container (Run_Job (RC_Run (rc s))) with
                      | Some c => [RC_GetEnv (world s); ContainerSpec_Env c]
                      | None => [RC_GetEnv (world s)]
                      end))
                [GetEnv (getStepModel st)] (GetEnv (getStepModel st)) k)
      as (k' & Hfold & Hsome & Hsame); [left|done|].
    exists k'. split_and!; [done| |done]. by apply Hkeys.
  - intros Hsensitive k v Hk. unfold mergedEnv, mergeIntoMap at 1.
    rewrite Hsensitive. unfold mergeIntoMapCaseSensitive. simpl.
    rewrite merge_one_map. by apply lookup_union_Some_l.
Qed.

(** The condition of a stage decides how [prepare] ends. *)
Lemma prepare_enabled (st : step) stage p (s : State W) :
  EvalBool s (getIfExpression st stage) (defaultCheck stage) = (true, None) →
  prepare st stage p s = (started (getIfExpression st stage) stage s, inl ()).
Proof.
  intros Hcond. unfold prepare, isStepEnabled, callEvalBool. stages.
  fold (defaultCheck stage). rewrite Hcond. stages.
  unfold onWorld, setStepEnv, started, commandFiles, fileVariables.
  cbn [negb rc heap stepEnv world evaluated foldl].
  destruct (Copy _ _ _) as [w err]. reflexivity.
Qed.


(** How an invocation is made of its stages. *)
Lemma runStepExecutor_stages (st : step) stage executor s0 :
  let p := length (heap s0) in
  runStepExecutor st stage executor s0 =
    match prepare st stage p (installed st stage s0) with
    | (s1, inr r) => (s1, r)
    | (s1, inl _) =>
        match invoke st stage executor p s1 with
        | (s2, inr r) => (s2, r)
        | (s2, inl err) =>
            match processRunnerFileCommands s2 with
            | (s3, inr r) => (s3, r)
            | (s3, inl _) => (s3, err)
            end
        end
    end.
Proof.
  intros p. rewrite runStepExecutor_installed. unfold run, p.
  rewrite bind_run.
  destruct (prepare _ _ _ _) as [s1 [[]|r]]; [|done].
  rewrite bind_run. destruct (invoke _ _ _ _ _) as [s2 [err|r]]; [|done].
  rewrite bind_run. destruct (processRunnerFileCommands s2) as [s3 [[]|r]]; [|done].
  by destruct err.
Qed.

Lemma fileVariables_lookup (env : gmap string string) k :
  foldl (λ env '(k, v), <[k := v]> env) env fileVariables !! k
  = match list_to_map (M := gmap string string) fileVariables !! k with
    | Some v => Some v
    | None => env !! k
    end.
Proof.
  unfold fileVariables. simpl.
  rewrite !lookup_insert.
  repeat case_decide; subst; try done.
Qed.

(** X23: when the condition of a stage holds, the body starts in a
    state whose environment holds the five variables of the runner file
    commands, each with the path of its file under the act path,
    whatever the step or the job declared for them, and every other
    variable as [setupEnv] left it.  The five files have been created
    empty by one copy into the container, and a failure of that copy
    does not keep the body from running. *)
Theorem body_starts_with_the_file_variables (st : step) stage executor s0 :
  let s := installed st stage s0 in
  let p := length (heap s0) in
  let expr := getIfExpression st stage in
  EvalBool s expr (defaultCheck stage) = (true, None) →
  prepare st stage p s = (started expr stage s, inl ())
  ∧ (∀ k v, (k, v) ∈ fileVariables → stepEnv (started expr stage s) !! k = Some v)
  ∧ (∀ k, k ∉ fileVariables.*1 →
       stepEnv (started expr stage s) !! k = stepEnv s !! k)
  ∧ world (started expr stage s) = (Copy GetActPath commandFiles (world s0)).1
  ∧ Forall (λ f, Mode f = 438 ∧ Body f = "") commandFiles
  ∧ runStepExecutor st stage executor s0
    = match invoke st stage executor p (started expr stage s) with
      | (s2, inr r) => (s2, r)
      | (s2, inl err) =>
          match processRunnerFileCommands s2 with
          | (s3, inr r) => (s3, r)
          | (s3, inl _) => (s3, err)
          end
      end.
Proof.
  intros s p expr Hcond. split_and!.
  - by apply prepare_enabled.
  - intros k v Hin. unfold started. cbn [stepEnv].
    rewrite fileVariables_lookup.
    unfold fileVariables in Hin |- *.
    rewrite !elem_of_cons, elem_of_nil in Hin.
    destruct Hin as [[= -> ->]|[[= -> ->]|[[= -> ->]|[[= -> ->]|[[= -> ->]|[]]]]]];
      reflexivity.
  - intros k Hk. unfold started. cbn [stepEnv]. rewrite fileVariables_lookup.
    rewrite (not_elem_of_list_to_map_1 _ _ Hk). done.
  - unfold started. cbn [world]. unfold s.
    by rewrite (proj1 (installed_state st stage s0)).
  - unfold commandFiles. by repeat constructor.
  - rewrite runStepExecutor_stages. fold p s.
    by rewrite (prepare_enabled st stage p s Hcond).
Qed.


(** X25: when the condition holds and the body succeeds, the evaluator
    is not asked about [continue-on-error] and the step result stays
    success in outcome and conclusion; the invocation returns what the
    processing of the file commands returns, so it fails only by an
    error of that processing, and the step result says success even
    then. *)
Theorem successful_body (st : step) stage executor s0 w :
  let s := installed st stage s0 in
  let p := length (heap s0) in
  let expr := getIfExpression st stage in
  let s1 := started expr stage s in
  let s2 := mkState (rc s1) (heap s1) (stepEnv s1) w (evaluated s1) in
  let result := runStepExecutor st stage executor s0 in
  EvalBool s expr (defaultCheck stage) = (true, None) →
  executor (world s1) = (w, None) →
  invoke st stage executor p s1 = (s2, inl None)
  ∧ (∀ s3 r, processRunnerFileCommands s2 = (s3, r) →
       result = (s3, match r with inl _ => None | inr perr => perr end))
  ∧ statuses (heap result.1) !! p = Some (StepStatusSuccess, StepStatusSuccess)
  ∧ evaluated result.1 = evaluated s0 ++ [(expr, defaultCheck stage)].
Proof.
  intros s p expr s1 s2 result Hcond Hbody.
  assert (invoke st stage executor p s1 = (s2, inl None)) as Hinvoke.
  { unfold invoke, onWorld. stages. by rewrite Hbody. }
  assert (∀ s3 r, processRunnerFileCommands s2 = (s3, r) →
            result = (s3, match r with inl _ => None | inr perr => perr end))
    as Hresult.
  { intros s3 r Hproc. unfold result. rewrite runStepExecutor_stages. fold p s.
    rewrite (prepare_enabled st stage p s Hcond). fold expr s1.
    rewrite Hinvoke, Hproc. by destruct r as [[]|]. }
  split_and!; [done|done|..];
    destruct (processRunnerFileCommands s2) as [s3 r] eqn:Hproc;
    rewrite (Hresult s3 r eq_refl); cbn [fst];
    destruct (processRunnerFileCommands_sameRecords s2 s3 r Hproc)
      as (_ & Hstatuses & Hevaluated).
  - rewrite Hstatuses. unfold s2, s1, started. cbn [heap]. unfold statuses.
    rewrite list_lookup_fmap. unfold s, p. by rewrite lookup_installed.
  - rewrite Hevaluated. unfold s2, s1, started. cbn [evaluated]. unfold s.
    by rewrite (proj2 (installed_state st stage s0)).
Qed.



(** X27: an invocation allocates exactly one step result and changes
    the outcome and the conclusion of no other; it leaves the run and
    the parent of the run context as they are and makes the step's id
    the current step, in every stage and whether or not the step
    runs. *)
Theorem invocation_leaves_other_results_alone (st : step) stage executor s0 :
  let result := runStepExecutor st stage executor s0 in
  let p := length (heap s0) in
  length (heap result.1) = S p
  ∧ (∀ q, q ≠ p → statuses (heap result.1) !! q = statuses (heap s0) !! q)
  ∧ CurrentStep (rc result.1) = ID (getStepModel st)
  ∧ RC_Run (rc result.1) = RC_Run (rc s0)
  ∧ Parent (rc result.1) = Parent (rc s0).
Proof.
  intros result p.
  assert (sameTable (installed st stage s0) result.1) as [Hrc Hlen].
  { unfold result. rewrite runStepExecutor_installed.
    apply run_keeps, keeps_after_install. }
  rewrite Hrc, installed_rc, Hlen, installed_length. split_and!; try done.
  intros q Hq. by apply runStepExecutor_others.
Qed.

End lifecycle_extras.


(* ===================================================================== *)
(** ** Further theorems at concrete inputs *)
(* ===================================================================== *)

(** [max-parallel: -3] is handed on as [-3]. *)
Lemma max_parallel_is_not_clamped_witness : GetMaxParallel negativeParallel = -3.
Proof.
  apply (max_parallel_is_not_clamped negativeParallel (-3)).
  - vm_compute. split; discriminate.
  - reflexivity.
Defined.

(** The input [my key] with the ASCII tables. *)
Lemma input_names_are_sanitised_witness :
  ∃ name, @inputKey asciiTables "my key" = "INPUT_" +:+ name
          ∧ Forall (λ b, envNameByte b = true) (Go.bytes_of name)
          ∧ length (Go.bytes_of name) = 6%nat.
Proof.
  apply (input_names_are_sanitised (H := asciiTables) "my key").
  intros r. unfold envNameByte, ToUpper, asciiTables, asciiToUpper, Go.between.
  repeat case_bool_decide; intros Hr;
    destruct ((97 <=? r) && (r <=? 122)) eqn:Hlower; try reflexivity; lia.
Defined.


(** Two steps [build] of one context, whatever their shells. *)
Lemma script_names_do_not_collide_witness :
  ID (runStep "build" "bash" "") = ID (runStep "build" "sh" "true").
Proof.
  apply (script_names_do_not_collide (topContext "") (runStep "build" "bash" "")
           (runStep "build" "sh" "true") ".sh").
  reflexivity.
Defined.

(** [PATH] and [HOME] are spellings of different names. *)
Lemma merges_agree_without_case_clashes_witness :
  @mergeIntoMapCaseInsensitive asciiTables canonicalRange
    {["PATH" := "/bin"]} [ {["HOME" := "/root"]} ]
  = @mergeIntoMapCaseSensitive canonicalRange
      {["PATH" := "/bin"]} [ {["HOME" := "/root"]} ].
Proof.
  refine (proj1 (merges_agree_without_case_clashes (H := asciiTables)
                   (H0 := canonicalRange)
                   {["PATH" := "/bin"]} [ {["HOME" := "/root"]} ] _)).
  assert (@asciiRows asciiTables) as Hrows by (intros r _; reflexivity).
  intros k1 k2 H1 H2 Hfold.
  assert ((@writes canonicalRange {["PATH" := "/bin"]} [ {["HOME" := "/root"]} ]).*1
          = ["PATH"; "HOME"]) as Hkeys by (vm_compute; reflexivity).
  rewrite Hkeys in H1, H2.
  apply elem_of_cons in H1 as [->|H1], H2 as [->|H2]; try reflexivity.
  - apply list_elem_of_singleton in H2 as ->.
    discriminate (eq_trans (eq_sym (foldKey_PATH Hrows))
                    (eq_trans Hfold (foldKey_HOME Hrows))).
  - apply list_elem_of_singleton in H1 as ->.
    discriminate (eq_trans (eq_sym (foldKey_HOME Hrows))
                    (eq_trans Hfold (foldKey_PATH Hrows))).
  - apply list_elem_of_singleton in H1 as ->.
    apply list_elem_of_singleton in H2 as ->. reflexivity.
Defined.

(** A step without condition in the main stage: the body finds the path
    of the env file in [GITHUB_ENV]. *)
Lemma body_starts_with_the_file_variables_witness :
  let C := fileCollaborators None in
  let s := @installed _ C asciiTables canonicalRange (plainStep "build" "")
             stepStageMain initialState in
  stepEnv (@started _ C "" stepStageMain s) !! "GITHUB_ENV"
  = Some "/var/run/act/workflow/envs.txt".
Proof.
  intros C s.
  destruct (body_starts_with_the_file_variables (H := C) (H0 := asciiTables)
              (H1 := canonicalRange) (plainStep "build" "") stepStageMain
              failingBody initialState) as (_ & Hvars & _).
  - vm_compute. reflexivity.
  - apply Hvars. vm_compute. do 3 right. left.
Defined.


(** A body that succeeds: outcome and conclusion are success. *)
Lemma successful_body_witness :
  statuses (heap (@runStepExecutor _ (fileCollaborators None) asciiTables canonicalRange
     (plainStep "build" "") stepStageMain succeedingBody initialState).1) !! 0%nat
  = Some (StepStatusSuccess, StepStatusSuccess).
Proof.
  destruct (successful_body (H := fileCollaborators None) (H0 := asciiTables)
              (H1 := canonicalRange) (plainStep "build" "") stepStageMain
              succeedingBody initialState []) as (_ & _ & Hstatus & _).
  - vm_compute. reflexivity.
  - vm_compute. reflexivity.
  - exact Hstatus.
Defined.
